(** * Bin-packing propagator of Gecode: size sets, [nosum] and the
      dual-feasibility lower bounds ([gecode/int/bin-packing/propagate.hpp])

    The C++ code works on [int] values, indexes raw arrays and loops with
    [while].  The embedding keeps all three visible:

    - a run either returns a value, stops at an operation whose behaviour
      C++ leaves undefined (signed overflow, division by zero, an access
      outside an array, a failed [assert]), or exhausts the iteration
      budget given to its loops;
    - every arithmetic operation on [int] is checked against the 32-bit
      range;
    - arrays are lists read with stdpp's lookup. *)

From Stdlib Require Import ZArith Lia.
From stdpp Require Import base numbers list sorting.

Local Open Scope Z_scope.

(** ** Outcomes of a run *)

Inductive fault : Type :=
  | Overflow       (* signed arithmetic left the range of int *)
  | DivByZero      (* x / 0 or x % 0 *)
  | OutOfBounds    (* array access outside the allocated block *)
  | Uninitialised  (* read of an array cell or local never written *)
  | AssertFailed.  (* assert(...) evaluated to false *)

Inductive res (A : Type) : Type :=
  | Ret (a : A)
  | Fault (e : fault)
  | OutOfFuel.

Arguments Ret {A} a.
Arguments Fault {A} e.
Arguments OutOfFuel {A}.

#[global] Instance fault_eq_dec : EqDecision fault.
Proof. solve_decision. Defined.

#[global] Instance res_eq_dec {A : Type} `{EqDecision A} : EqDecision (res A).
Proof. solve_decision. Defined.

Definition res_bind {A B : Type} (f : A → res B) (m : res A) : res B :=
  match m with
  | Ret a => f a
  | Fault e => Fault e
  | OutOfFuel => OutOfFuel
  end.

#[global] Instance res_ret : MRet res := @Ret.
#[global] Instance res_mbind : MBind res := @res_bind.

Definition assert (b : bool) : res unit :=
  if b then Ret () else Fault AssertFailed.

(** ** The C++ type int *)

Definition int_min : Z := - 2 ^ 31.
Definition int_max : Z := 2 ^ 31 - 1.

Definition in_int (z : Z) : Prop := int_min ≤ z ≤ int_max.

Definition chk (z : Z) : res Z :=
  if bool_decide (int_min ≤ z ≤ int_max) then Ret z else Fault Overflow.

Definition iadd (x y : Z) : res Z := chk (x + y).
Definition isub (x y : Z) : res Z := chk (x - y).
Definition imul (x y : Z) : res Z := chk (x * y).

(** [/] and [%] of C++ truncate towards zero. *)
Definition idiv (x y : Z) : res Z :=
  if bool_decide (y = 0) then Fault DivByZero else chk (x ÷ y).
Definition imod (x y : Z) : res Z :=
  if bool_decide (y = 0) then Fault DivByZero
  else _ ← chk (x ÷ y); Ret (Z.rem x y).

(** A bool used as an int. *)
Definition b2i (b : bool) : Z := if b then 1 else 0.

(** Two's-complement reduction, used only to describe what an overflowing
    operation leaves behind on hardware that wraps. *)
Definition wrap (z : Z) : Z := (z + 2 ^ 31) `mod` 2 ^ 32 - 2 ^ 31.

(** Reading cell [i] of an array. *)
Definition read {A : Type} (a : list A) (i : Z) : res A :=
  if bool_decide (0 ≤ i) then
    match a !! Z.to_nat i with
    | Some v => Ret v
    | None => Fault OutOfBounds
    end
  else Fault OutOfBounds.

Definition sumZ (l : list Z) : Z := foldr Z.add 0 l.

(** ** SizeSet

    The classes are declared in a header outside the sources at hand;
    their fields are the ones the member functions read and write.
    [s] is the block of [n_max] ints obtained from the region; a cell is
    [None] until [add] writes it. *)

Module SizeSet.

Record SizeSet : Type := mk { n : Z; t : Z; s : list (option Z) }.

(** [SizeSet(region, n_max)] *)
Definition create (n_max : Z) : SizeSet :=
  {| n := 0; t := 0; s := replicate (Z.to_nat n_max) None |}.

(** [t += s0; s[n++] = s0;] *)
Definition add (s0 : Z) (x : SizeSet) : res SizeSet :=
  t' ← iadd (t x) s0;
  if bool_decide (0 ≤ n x < Z.of_nat (length (s x))) then
    n' ← iadd (n x) 1;
    Ret {| n := n'; t := t'; s := <[Z.to_nat (n x) := Some s0]> (s x) |}
  else Fault OutOfBounds.

Definition card (x : SizeSet) : res Z := Ret (n x).
Definition total (x : SizeSet) : res Z := Ret (t x).

(** [operator [](i)]: returns [s[i]] *)
Definition get (x : SizeSet) (i : Z) : res Z :=
  c ← read (s x) i;
  match c with
  | Some v => Ret v
  | None => Fault Uninitialised
  end.

(** The set obtained by adding the sizes of [l] from left to right. *)
Definition of_list (n_max : Z) (l : list Z) : res SizeSet :=
  foldl (λ acc s0, x ← acc; add s0 x) (Ret (create n_max)) l.

End SizeSet.

(** ** SizeSetMinusOne: a SizeSet with a cursor [p] on the excluded entry *)

Module SizeSetMinusOne.

Record SizeSetMinusOne : Type := mk { base : SizeSet.SizeSet; p : Z }.

(** [SizeSetMinusOne(region, n_max) : SizeSet(region, n_max), p(-1)] *)
Definition create (n_max : Z) : SizeSetMinusOne :=
  {| base := SizeSet.create n_max; p := -1 |}.

(** [add] is inherited from SizeSet. *)
Definition add (s0 : Z) (x : SizeSetMinusOne) : res SizeSetMinusOne :=
  b ← SizeSet.add s0 (base x);
  Ret {| base := b; p := p x |}.

Definition of_list (n_max : Z) (l : list Z) : res SizeSetMinusOne :=
  foldl (λ acc s0, x ← acc; add s0 x) (Ret (create n_max)) l.

(** [do p++; while (s[p] > s0);] started with cursor [q] *)
Fixpoint minus_loop (fuel : nat) (b : SizeSet.SizeSet) (s0 q : Z) : res Z :=
  match fuel with
  | O => OutOfFuel
  | S fuel' =>
      q' ← iadd q 1;
      v ← SizeSet.get b q';
      if bool_decide (s0 < v) then minus_loop fuel' b s0 q' else Ret q'
  end.

Definition minus (fuel : nat) (s0 : Z) (x : SizeSetMinusOne)
  : res SizeSetMinusOne :=
  q ← minus_loop fuel (base x) s0 (p x);
  _ ← assert (bool_decide (q < SizeSet.n (base x)));
  Ret {| base := base x; p := q |}.

Definition card (x : SizeSetMinusOne) : res Z :=
  _ ← assert (bool_decide (0 ≤ p x));
  isub (SizeSet.n (base x)) 1.

Definition total (x : SizeSetMinusOne) : res Z :=
  _ ← assert (bool_decide (0 ≤ p x));
  v ← SizeSet.get (base x) (p x);
  isub (SizeSet.t (base x)) v.

(** [operator [](i)]: returns [s[(i < p) ? i : i+1]] *)
Definition get (x : SizeSetMinusOne) (i : Z) : res Z :=
  _ ← assert (bool_decide (0 ≤ p x));
  if bool_decide (i < p x) then SizeSet.get (base x) i
  else j ← iadd i 1; SizeSet.get (base x) j.

(** A sequence of [minus] calls, in order. *)
Definition minus_all (fuel : nat) (vs : list Z) (x : SizeSetMinusOne)
  : res SizeSetMinusOne :=
  foldl (λ acc v, y ← acc; minus fuel v y) (Ret x) vs.

End SizeSetMinusOne.

(** ** What [nosum] asks of its template parameter *)

Class SizeSetOps (T : Type) : Type := {
  card : T → res Z;
  total : T → res Z;
  at_ : T → Z → res Z
}.

#[global] Instance SizeSet_ops : SizeSetOps SizeSet.SizeSet :=
  {| card := SizeSet.card; total := SizeSet.total; at_ := SizeSet.get |}.

#[global] Instance SizeSetMinusOne_ops
  : SizeSetOps SizeSetMinusOne.SizeSetMinusOne :=
  {| card := SizeSetMinusOne.card;
     total := SizeSetMinusOne.total;
     at_ := SizeSetMinusOne.get |}.

(** ** Pack::nosum *)

Section nosum_code.
Context {T : Type} `{SizeSetOps T}.
Variables (s : T) (a b n : Z).

(** [while (sc + s[n-kp] < a) { sc += s[n-kp]; kp++; }] *)
Fixpoint nosum_small (fuel : nat) (sc kp : Z) : res (Z * Z) :=
  match fuel with
  | O => OutOfFuel
  | S fuel' =>
      i ← isub n kp;
      x ← at_ s i;
      y ← iadd sc x;
      if bool_decide (y < a) then
        kp' ← iadd kp 1;
        nosum_small fuel' y kp'
      else Ret (sc, kp)
  end.

(** [while (sa + sc >= a) { kp--; sc -= s[n-kp];
                            sb += s[n-kp] - s[n-kp-k-1]; }] *)
Fixpoint nosum_shift (fuel : nat) (k sa sb sc kp : Z) : res (Z * Z * Z) :=
  match fuel with
  | O => OutOfFuel
  | S fuel' =>
      y ← iadd sa sc;
      if bool_decide (a ≤ y) then
        kp' ← isub kp 1;
        i ← isub n kp';
        x ← at_ s i;
        sc' ← isub sc x;
        j0 ← isub i k;
        j ← isub j0 1;
        z ← at_ s j;
        d ← isub x z;
        sb' ← iadd sb d;
        nosum_shift fuel' k sa sb' sc' kp'
      else Ret (sb, sc, kp)
  end.

(** The main loop [while ((sa < a) && (sb <= b)) { ... }];
    [inner] is the budget of each run of the nested loop. *)
Fixpoint nosum_main (fuel inner : nat) (k sa sb sc kp : Z)
  : res (Z * Z * Z) :=
  match fuel with
  | O => OutOfFuel
  | S fuel' =>
      if bool_decide (sa < a) && bool_decide (sb ≤ b) then
        x ← at_ s k;
        sa' ← iadd sa x;
        k' ← iadd k 1;
        if bool_decide (sa' < a) then
          kp1 ← isub kp 1;
          i ← isub n kp1;
          y ← at_ s i;
          sb1 ← iadd sb y;
          sc1 ← isub sc y;
          '(sb2, sc2, kp2) ← nosum_shift inner k' sa' sb1 sc1 kp1;
          nosum_main fuel' inner k' sa' sb2 sc2 kp2
        else nosum_main fuel' inner k' sa' sb sc kp
      else Ret (sa, sb, sc)
  end.
End nosum_code.

(** [nosum(s, a, b, ap, bp)].  The reference parameters [ap] and [bp] are
    passed in and handed back with the result; [None] is an int that was
    never assigned. *)
Definition nosum {T : Type} `{SizeSetOps T} (fuel : nat) (s : T) (a b : Z)
    (ap bp : option Z) : res (bool * option Z * option Z) :=
  if bool_decide (a ≤ 0) then Ret (false, ap, bp)
  else
    tot ← total s;
    if bool_decide (tot ≤ b) then Ret (false, ap, bp)
    else
      c ← card s;
      n ← isub c 1;
      '(sc, kp) ← nosum_small s a n fuel 0 0;
      i ← isub n kp;
      sb ← at_ s i;
      '(sa, sb', sc') ← nosum_main s a b n fuel fuel 0 0 sb sc kp;
      ap' ← iadd sa sc';
      Ret (bool_decide (sa < a), Some ap', Some sb').

(** [nosum(s, a, b)]: [int ap, bp; return nosum(s, a, b, ap, bp);] *)
Definition nosum3 {T : Type} `{SizeSetOps T} (fuel : nat) (s : T) (a b : Z)
    : res bool :=
  '(r, _, _) ← nosum fuel s a b None None;
  Ret r.

(** ** Dual-feasibility functions *)

(** Modelled from the spec: the struct LambdaRange is declared outside the
    sources at hand.  Section 3 describes it as a closed integer interval
    [min, max]; the code builds it as [{min, max}] and reads [.min] and
    [.max]. *)
Module LambdaRange.
Record LambdaRange : Type := mk { min : Z; max : Z }.
End LambdaRange.
Abbreviation LambdaRange := LambdaRange.LambdaRange.

(** Modelled from the spec: [ceil_div_pp] is declared outside the sources
    at hand; section 4.2 says that divisions are ceiling divisions on
    nonnegative operands.  A negative operand fails the precondition and a
    zero divisor is a division by zero. *)
Definition ceil_div_pp (x y : Z) : res Z :=
  _ ← assert (bool_decide (0 ≤ x) && bool_decide (0 ≤ y));
  if bool_decide (y = 0) then Fault DivByZero
  else Ret ((x + y - 1) ÷ y).

(** [(c0 * v0) + (c1 * v1)] *)
Definition dot2 (c0 v0 c1 v1 : Z) : res Z :=
  p0 ← imul c0 v0;
  p1 ← imul c1 v1;
  iadd p0 p1.

(** [(c0 * v0) + (c1 * v1) + (c2 * v2)] *)
Definition dot3 (c0 v0 c1 v1 c2 v2 : Z) : res Z :=
  p0 ← imul c0 v0;
  p1 ← imul c1 v1;
  q ← iadd p0 p1;
  p2 ← imul c2 v2;
  iadd q p2.

Definition fCCM1 (w l c : Z) : res Z :=
  tw ← imul 2 w;
  let c0 := b2i (bool_decide (c < tw)) in
  let c1 := b2i (bool_decide (tw = c)) in
  let c2 := b2i (bool_decide (tw < c)) in
  q ← idiv c l;
  d ← isub c w;
  q' ← idiv d l;
  e ← isub q q';
  v0 ← imul 2 e;
  v1 ← idiv c l;
  q2 ← idiv w l;
  v2 ← imul 2 q2;
  dot3 c0 v0 c1 v1 c2 v2.

Definition fMT (w l c : Z) : res Z :=
  let c0 := b2i (bool_decide (w < l)) in
  c1 ← (if bool_decide (l ≤ w)
        then d ← isub c l; Ret (b2i (bool_decide (w ≤ d)))
        else Ret 0);
  d ← isub c l;
  let c2 := b2i (bool_decide (d < w)) in
  dot3 c0 0 c1 w c2 c.

Definition fBJ1 (w l c : Z) : res Z :=
  cl ← imod c l;
  p ← isub l cl;
  wl ← imod w l;
  let c0 := b2i (bool_decide (wl ≤ cl)) in
  let c1 := b2i (bool_decide (cl < wl)) in
  q ← idiv w l;
  v0 ← imul q p;
  a1 ← iadd v0 wl;
  v1 ← isub a1 cl;
  dot2 c0 v0 c1 v1.

Definition fVB2Base (w l c : Z) : res Z :=
  lw ← imul l w;
  v ← ceil_div_pp lw c;
  if bool_decide (0 < v) then isub v 1 else Ret 0.

Definition fVB2 (w l c : Z) : res Z :=
  tw ← imul 2 w;
  let c0 := b2i (bool_decide (c < tw)) in
  let c1 := b2i (bool_decide (tw = c)) in
  let c2 := b2i (bool_decide (tw < c)) in
  t0 ← fVB2Base c l c;
  t1 ← fVB2Base w l c;
  d ← isub c w;
  t2 ← fVB2Base d l c;
  a0 ← imul 2 t0;
  a2 ← imul 2 t2;
  v0 ← isub a0 a2;
  v2 ← imul 2 t1;
  dot3 c0 v0 c1 t0 c2 v2.

Definition fFS1 (w l c : Z) : res Z :=
  l1 ← iadd l 1;
  wl1 ← imul w l1;
  r ← imod wl1 c;
  let c0 := b2i (bool_decide (r = 0)) in
  let c1 := b2i (bool_decide (r ≠ 0)) in
  v0 ← imul w l;
  q ← idiv wl1 c;
  v1 ← imul q c;
  dot2 c0 v0 c1 v1.

Definition fRAD2Base (w l c : Z) : res Z :=
  let c0 := b2i (bool_decide (w < l)) in
  c1 ← (if bool_decide (l ≤ w)
        then tl ← imul 2 l; d ← isub c tl; Ret (b2i (bool_decide (w ≤ d)))
        else Ret 0);
  tl ← imul 2 l;
  d ← isub c tl;
  c2 ← (if bool_decide (d < w)
        then tl' ← imul 2 l; Ret (b2i (bool_decide (w < tl')))
        else Ret 0);
  v1 ← idiv c 3;
  v2 ← idiv c 2;
  dot3 c0 0 c1 v1 c2 v2.

Definition fRAD2 (w l c : Z) : res Z :=
  tl ← imul 2 l;
  let c0 := b2i (bool_decide (w < tl)) in
  let c1 := b2i (bool_decide (tl ≤ w)) in
  v0 ← fRAD2Base w l c;
  d ← isub c w;
  r ← fRAD2Base d l c;
  v1 ← isub c r;
  dot2 c0 v0 c1 v1.

(** The ranges of lambda; the divisors are constants, so nothing can go
    wrong for an int [c]. *)
Definition lCCM1 (c : Z) : LambdaRange := LambdaRange.mk 1 (c ÷ 2).
Definition lMT (c : Z) : LambdaRange := LambdaRange.mk 0 (c ÷ 2).
Definition lBJ1 (c : Z) : LambdaRange := LambdaRange.mk 1 c.
Definition lVB2 (c : Z) : LambdaRange := LambdaRange.mk 2 c.
Definition lFS1 (c : Z) : LambdaRange := LambdaRange.mk 1 100.
Definition lRAD2 (c : Z) : LambdaRange := LambdaRange.mk (c ÷ 4 + 1) (c ÷ 3).

Definition sanitizeLambdaRange (lambdaRange : LambdaRange)
    (nNotZeroWeights maxWeight : Z) : res LambdaRange :=
  prod ← imul nNotZeroWeights maxWeight;
  if bool_decide (prod ≠ 0) then
    prod' ← imul nNotZeroWeights maxWeight;
    q ← idiv int_max prod';
    let lMax := Z.min q (LambdaRange.max lambdaRange) in
    Ret (LambdaRange.mk (LambdaRange.min lambdaRange) lMax)
  else Ret (LambdaRange.mk 0 (-1)).

(** The same function on a machine whose multiplication wraps around
    instead of trapping. *)
Definition sanitizeLambdaRange_wrapping (lambdaRange : LambdaRange)
    (nNotZeroWeights maxWeight : Z) : res LambdaRange :=
  let prod := wrap (nNotZeroWeights * maxWeight) in
  if bool_decide (prod ≠ 0) then
    q ← idiv int_max prod;
    let lMax := Z.min q (LambdaRange.max lambdaRange) in
    Ret (LambdaRange.mk (LambdaRange.min lambdaRange) lMax)
  else Ret (LambdaRange.mk 0 (-1)).

Section dff.
(** The number of samples [nLambdaSamples] is a constant declared outside
    the sources at hand. *)
Variable nLambdaSamples : Z.

(** The two template parameters. *)
Variable f : Z → Z → Z → res Z.
Variable l : Z → LambdaRange.

(** Modelled from the spec: the class IntDynamicArray is declared outside
    the sources at hand; [weights] is the list of its entries
    [weights[0]], ..., [weights[capacity() - 1]], which the loop adds up
    after transforming them. *)
Definition calcDffLowerboundSingleLambda (weights : list Z)
    (capacity lambda : Z) : res Z :=
  sumTransformedWeights ←
    foldl (λ acc w, sum ← acc; v ← f w lambda capacity; iadd sum v)
          (Ret 0) weights;
  transformedCapacity ← f capacity lambda capacity;
  ceil_div_pp sumTransformedWeights transformedCapacity.

(** [for (lambda = ...; lambda < lambdaRange.max; lambda += lStep)] *)
Fixpoint dff_loop (fuel : nat) (weights : list Z) (capacity : Z)
    (rmax lStep lambda fLowerbound : Z) : res Z :=
  match fuel with
  | O => OutOfFuel
  | S fuel' =>
      if bool_decide (lambda < rmax) then
        lowerbound ← calcDffLowerboundSingleLambda weights capacity lambda;
        let fLowerbound' := Z.max fLowerbound lowerbound in
        lambda' ← iadd lambda lStep;
        dff_loop fuel' weights capacity rmax lStep lambda' fLowerbound'
      else Ret fLowerbound
  end.

(** The range that is sampled. *)
Definition dff_range (capacity nNotZeroWeights maxWeight : Z)
    (sanitize : bool) : res LambdaRange :=
  if sanitize
  then sanitizeLambdaRange (l capacity) nNotZeroWeights maxWeight
  else Ret (l capacity).

(** [lStep = ceil_div_pp(max - min + 1, nLambdaSamples + 1)] *)
Definition dff_step (lambdaRange : LambdaRange) : res Z :=
  d ← isub (LambdaRange.max lambdaRange) (LambdaRange.min lambdaRange);
  d1 ← iadd d 1;
  m ← iadd nLambdaSamples 1;
  ceil_div_pp d1 m.

Definition calcDffLowerbound (fuel : nat) (weights : list Z)
    (capacity nNotZeroWeights maxWeight : Z) (sanitize : bool) : res Z :=
  lambdaRange ← dff_range capacity nNotZeroWeights maxWeight sanitize;
  lStep ← dff_step lambdaRange;
  lambda ← iadd (LambdaRange.min lambdaRange) lStep;
  dff_loop fuel weights capacity (LambdaRange.max lambdaRange) lStep
           lambda 0.
End dff.

(** The six pairs of a transform and its range that the propagator
    passes as template arguments. *)
Inductive transform : Type := CCM1 | MT | BJ1 | VB2 | FS1 | RAD2.

Definition transform_f (t : transform) : Z → Z → Z → res Z :=
  match t with
  | CCM1 => fCCM1 | MT => fMT | BJ1 => fBJ1
  | VB2 => fVB2 | FS1 => fFS1 | RAD2 => fRAD2
  end.

Definition transform_l (t : transform) : Z → LambdaRange :=
  match t with
  | CCM1 => lCCM1 | MT => lMT | BJ1 => lBJ1
  | VB2 => lVB2 | FS1 => lFS1 | RAD2 => lRAD2
  end.

(** ** The values of the transforms

    What each transform returns when none of its operations leaves the
    range of int, as a function on the integers: the expressions of the
    code without the checks. *)

Definition val_CCM1 (w l c : Z) : Z :=
  b2i (bool_decide (c < 2 * w)) * (2 * (c ÷ l - (c - w) ÷ l))
  + b2i (bool_decide (2 * w = c)) * (c ÷ l)
  + b2i (bool_decide (2 * w < c)) * (2 * (w ÷ l)).

Definition val_MT (w l c : Z) : Z :=
  b2i (bool_decide (w < l)) * 0
  + (if bool_decide (l ≤ w) then b2i (bool_decide (w ≤ c - l)) else 0) * w
  + b2i (bool_decide (c - l < w)) * c.

Definition val_BJ1 (w l c : Z) : Z :=
  b2i (bool_decide (Z.rem w l ≤ Z.rem c l)) * (w ÷ l * (l - Z.rem c l))
  + b2i (bool_decide (Z.rem c l < Z.rem w l))
    * (w ÷ l * (l - Z.rem c l) + Z.rem w l - Z.rem c l).

Definition val_VB2Base (w l c : Z) : Z :=
  let v := (l * w + c - 1) ÷ c in
  if bool_decide (0 < v) then v - 1 else 0.

Definition val_VB2 (w l c : Z) : Z :=
  b2i (bool_decide (c < 2 * w))
    * (2 * val_VB2Base c l c - 2 * val_VB2Base (c - w) l c)
  + b2i (bool_decide (2 * w = c)) * val_VB2Base c l c
  + b2i (bool_decide (2 * w < c)) * (2 * val_VB2Base w l c).

Definition val_FS1 (w l c : Z) : Z :=
  b2i (bool_decide (Z.rem (w * (l + 1)) c = 0)) * (w * l)
  + b2i (bool_decide (Z.rem (w * (l + 1)) c ≠ 0))
    * ((w * (l + 1)) ÷ c * c).

Definition val_RAD2Base (w l c : Z) : Z :=
  b2i (bool_decide (w < l)) * 0
  + (if bool_decide (l ≤ w) then b2i (bool_decide (w ≤ c - 2 * l)) else 0)
    * (c ÷ 3)
  + (if bool_decide (c - 2 * l < w) then b2i (bool_decide (w < 2 * l)) else 0)
    * (c ÷ 2).

Definition val_RAD2 (w l c : Z) : Z :=
  b2i (bool_decide (w < 2 * l)) * val_RAD2Base w l c
  + b2i (bool_decide (2 * l ≤ w)) * (c - val_RAD2Base (c - w) l c).

Definition transform_val (t : transform) : Z → Z → Z → Z :=
  match t with
  | CCM1 => val_CCM1 | MT => val_MT | BJ1 => val_BJ1
  | VB2 => val_VB2 | FS1 => val_FS1 | RAD2 => val_RAD2
  end.

(** ** Item and the Pack propagator

    Views, spaces and subscriptions belong to the kernel; they enter as
    parameters. *)

Inductive PropCond : Type := PC_INT_BND | PC_INT_DOM.

Module Item.
Section item.
Variables (IntView Space : Type).
Variable view_update : Space → IntView → IntView.

(** [x] is the view inherited from DerivedView, [s] the size. *)
Record Item : Type := mk { x : IntView; s : Z }.

Definition bin (i : Item) : IntView := x i.
Definition size (i : Item) : Z := s i.

(** [update(home, i)]: [x.update(home, i.x); s = i.s;] *)
Definition update (home : Space) (i : Item) : Item :=
  {| x := view_update home (x i); s := s i |}.
End item.
Arguments x {IntView} _.
Arguments s {IntView} _.
Arguments bin {IntView} _.
Arguments size {IntView} _.
Arguments update {IntView Space} _ _ _.
End Item.

Module Pack.
Section pack.
Variables (IntView OffsetView Space : Type).
Variable int_update : Space → IntView → IntView.
Variable offset_update : Space → OffsetView → OffsetView.
Variable offset_subscribe : Space → OffsetView → PropCond → Space.
Variable int_subscribe : Space → IntView → PropCond → Space.

Record Pack : Type :=
  mk { l : list OffsetView; bs : list (Item.Item IntView); t : Z }.

(** [for (int i=0; i<bs.size(); i++) t += bs[i].size();] from [t0] *)
Definition add_sizes (t0 : Z) (bs0 : list (Item.Item IntView)) : res Z :=
  foldl (λ acc i, t' ← acc; iadd t' (Item.size i)) (Ret t0) bs0.

(** [Pack(Home home, ViewArray<OffsetView>& l0, ViewArray<Item>& bs0)] *)
Definition create (home : Space) (l0 : list OffsetView)
    (bs0 : list (Item.Item IntView)) : res (Space * Pack) :=
  let home1 := foldl (λ h v, offset_subscribe h v PC_INT_BND) home l0 in
  let home2 :=
    foldl (λ h i, int_subscribe h (Item.x i) PC_INT_DOM) home1 bs0 in
  t' ← add_sizes 0 bs0;
  Ret (home2, {| l := l0; bs := bs0; t := t' |}).

(** [Pack(Space& home, Pack& p)] *)
Definition clone (home : Space) (p : Pack) : Pack :=
  {| l := offset_update home <$> l p;
     bs := Item.update int_update home <$> bs p;
     t := t p |}.
End pack.
Arguments l {IntView OffsetView} _.
Arguments bs {IntView OffsetView} _.
Arguments t {IntView OffsetView} _.
End Pack.

(** The sizes of an array of items. *)
Definition sizes {IntView : Type} (bs0 : list (Item.Item IntView)) : list Z :=
  Item.size <$> bs0.

(** ** Comparing items *)

Section item_order.
Variable IntView : Type.
(** Equality of two views, which belongs to the kernel. *)
Variable view_eq : IntView → IntView → bool.

(** [operator ==]: [(i.bin() == j.bin()) && (i.size() == j.size())] *)
Definition Item_eq (i j : Item.Item IntView) : bool :=
  view_eq (Item.bin i) (Item.bin j) && bool_decide (Item.size i = Item.size j).

(** [operator !=]: [!(i == j)] *)
Definition Item_ne (i j : Item.Item IntView) : bool := negb (Item_eq i j).
End item_order.

(** [operator <], for sorting according to size: [i.size() > j.size()] *)
Definition Item_lt {IntView : Type} (i j : Item.Item IntView) : bool :=
  bool_decide (Item.size j < Item.size i).

(** ** Sub-multisets and their sums *)

(** All sums of sub-multisets of [l], by exhaustive enumeration. *)
Fixpoint subsums (l : list Z) : list Z :=
  match l with
  | [] => [0]
  | x :: r => subsums r ++ map (Z.add x) (subsums r)
  end.

Definition achievable (l : list Z) (v : Z) : Prop := v ∈ subsums l.

#[global] Instance achievable_dec l v : Decision (achievable l v).
Proof. unfold achievable. apply _. Defined.

(** Non-increasing order. *)
Definition descending (l : list Z) : Prop := Sorted (λ x y, y ≤ x) l.

Definition nonneg (l : list Z) : Prop := Forall (λ x, 0 ≤ x) l.

(** Strongly sorted form of [descending]. *)
Definition desc (l : list Z) : Prop := StronglySorted (λ x y, y ≤ x) l.

(** The sum of the entries [l[i..j)], with int indices. *)
Definition seg (l : list Z) (i j : Z) : Z :=
  sumZ (take (Z.to_nat (j - i)) (drop (Z.to_nat i) l)).

(** ** A size set that stands for a list of sizes

    [card], [total] and indexing agree with the list, their results are
    ints, and indexing outside the list is a fault. *)

Record represents {T : Type} `{SizeSetOps T} (s : T) (l : list Z) : Prop := {
  repr_card : card s = Ret (Z.of_nat (length l));
  repr_card_int : Z.of_nat (length l) ≤ int_max;
  repr_total : total s = Ret (sumZ l);
  repr_total_int : sumZ l ≤ int_max;
  repr_in : ∀ i x, 0 ≤ i → l !! Z.to_nat i = Some x → at_ s i = Ret x;
  repr_out : ∀ i, ¬ (0 ≤ i < Z.of_nat (length l)) → ∃ e, at_ s i = Fault e
}.

(** The state of a SizeSet that has received the sizes [l]. *)
Definition filled (x : SizeSet.SizeSet) (l : list Z) : Prop :=
  SizeSet.n x = Z.of_nat (length l) ∧ SizeSet.t x = sumZ l ∧
  in_int (SizeSet.n x) ∧ in_int (SizeSet.t x) ∧
  ∃ r, SizeSet.s x = (Some <$> l) ++ replicate r None.

(** [b] is the ceiling of the sum of the transformed weights over the
    transformed capacity, for the transform [f] at [lam]. *)
Definition per_lambda_bound (f : Z → Z → Z → res Z) (weights : list Z)
    (c lam b : Z) : Prop :=
  ∃ (vs : list Z) (tc : Z),
    Forall2 (λ w v, f w lam c = Ret v) weights vs ∧
    f c lam c = Ret tc ∧
    0 < tc ∧ tc * (b - 1) < sumZ vs ≤ tc * b.

(** The range that calcDffLowerbound samples, written out: the range
    [l(capacity)] of the transform when [sanitize] is off; with [sanitize]
    on, the empty range [0, -1] when [nNotZeroWeights * maxWeight] is
    zero, and otherwise the range of the transform with its upper end cut
    at [INT_MAX / (nNotZeroWeights * maxWeight)]. *)
Definition sampled_range (l : Z → LambdaRange)
    (capacity nNotZeroWeights maxWeight : Z) (sanitize : bool) : LambdaRange :=
  if sanitize then
    if bool_decide (nNotZeroWeights * maxWeight = 0) then LambdaRange.mk 0 (-1)
    else LambdaRange.mk
           (LambdaRange.min (l capacity))
           (Z.min (int_max ÷ (nNotZeroWeights * maxWeight))
                  (LambdaRange.max (l capacity)))
  else l capacity.

(** At [lam] the transform [f] returns a nonnegative int for every weight,
    these values sum to an int, and the transformed capacity is
    positive. *)
Definition transform_defined (f : Z → Z → Z → res Z) (weights : list Z)
    (c lam : Z) : Prop :=
  ∃ (vs : list Z) (tc : Z),
    Forall2 (λ w v, f w lam c = Ret v ∧ 0 ≤ v) weights vs ∧
    sumZ vs ≤ int_max ∧
    f c lam c = Ret tc ∧ 0 < tc.

(** ** Properties of runs *)

(** [returns m P]: the run [m] returns a value that satisfies [P]. *)
Definition returns {A : Type} (m : res A) (P : A → Prop) : Prop :=
  ∃ v, m = Ret v ∧ P v.

(** The run does not depend on the budget of the loops. *)
Definition halts {A : Type} (m : res A) : Prop := m ≠ OutOfFuel.

(** The run does not stop at a division by zero. *)
Definition no_dbz {A : Type} (m : res A) : Prop := m ≠ Fault DivByZero.

(** A run with a larger budget returns what the run [m] returned. *)
Definition res_le {A : Type} (m m' : res A) : Prop :=
  ∀ v, m = Ret v → m' = Ret v.

(** State of the main loop: [sa] holds the [k] largest sizes, [sc] the
    [kp] smallest, and [sb] the [k+1] sizes just above those of [sc]. *)
Definition nosum_inv (l : list Z) (k sa sb sc kp : Z) : Prop :=
  let N := Z.of_nat (length l) in
  0 ≤ k ∧ 0 ≤ kp ∧ k + kp ≤ N - 1 ∧
  sa = seg l 0 k ∧ sc = seg l (N - kp) N ∧
  sb = seg l (N - kp - k - 1) (N - kp).

(** One more of the small sizes would bring [sa + sc] to [a]. *)
Definition nosum_tight (l : list Z) (a sa sc kp : Z) : Prop :=
  ∃ x, l !! Z.to_nat (Z.of_nat (length l) - 1 - kp) = Some x ∧
       a ≤ sa + sc + x.

(** ** Sample inputs *)

(** The sizes 5, 5, 3 after three calls of [add]. *)
Definition sizes_553 : SizeSet.SizeSet :=
  {| SizeSet.n := 3; SizeSet.t := 13; SizeSet.s := [Some 5; Some 5; Some 3] |}.

(** The sizes 5, 3, 3, 1 in a SizeSetMinusOne on which [minus] has not
    been called yet. *)
Definition sizes_5331 : SizeSetMinusOne.SizeSetMinusOne :=
  {| SizeSetMinusOne.base :=
       {| SizeSet.n := 4; SizeSet.t := 12;
          SizeSet.s := [Some 5; Some 3; Some 3; Some 1] |};
     SizeSetMinusOne.p := -1 |}.

(** ** Facts on sums, sub-lists and sorted lists *)

Lemma int_range : int_min = - int_max - 1 ∧ 0 < int_max.
Proof. by vm_compute. Qed.

Lemma chk_ok z : in_int z → chk z = Ret z.
Proof. intros Hz. unfold chk. by rewrite bool_decide_eq_true_2. Qed.

Lemma chk_Ret z v : chk z = Ret v → v = z ∧ in_int z.
Proof.
  unfold chk. case_bool_decide; [|done]. intros [= <-]. done.
Qed.

Lemma sumZ_app l1 l2 : sumZ (l1 ++ l2) = sumZ l1 + sumZ l2.
Proof. induction l1 as [|x l1 IH]; simpl; lia. Qed.

Lemma sumZ_nonneg l : nonneg l → 0 ≤ sumZ l.
Proof. induction 1; simpl; lia. Qed.

Lemma nonneg_sublist k l : k `sublist_of` l → nonneg l → nonneg k.
Proof.
  induction 1 as [|x k l _ IH|x k l _ IH]; intros Hl; [done| |].
  - apply Forall_cons in Hl as [??]. apply Forall_cons.
    split; [done|by apply IH].
  - apply Forall_cons in Hl as [??]. by apply IH.
Qed.

Lemma sumZ_sublist k l : k `sublist_of` l → nonneg l → sumZ k ≤ sumZ l.
Proof.
  induction 1 as [|x k l _ IH|x k l _ IH]; intros Hl; [done| |];
    apply Forall_cons in Hl as [??]; simpl; specialize (IH ltac:(done)); lia.
Qed.

Lemma subsums_sublist l v :
  v ∈ subsums l ↔ ∃ k, k `sublist_of` l ∧ sumZ k = v.
Proof.
  revert v. induction l as [|x l IH]; intros v; simpl.
  - rewrite list_elem_of_singleton. split.
    + intros ->. exists []. split; [constructor|done].
    + intros (k & ->%sublist_nil_r & <-). done.
  - rewrite elem_of_app, list_elem_of_fmap. split.
    + intros [Hv|(w & -> & Hw)].
      * apply IH in Hv as (k & ? & ?). exists k. split; [by constructor|done].
      * apply IH in Hw as (k & ? & <-). exists (x :: k).
        split; [by constructor|done].
    + intros (k & Hk & <-). apply sublist_cons_r in Hk as [Hk|(k' & -> & Hk)].
      * left. apply IH. eauto.
      * right. exists (sumZ k'). split; [done|]. apply IH. eauto.
Qed.

Lemma descending_desc l : descending l → desc l.
Proof.
  apply Sorted_StronglySorted. intros x y z ??. lia.
Qed.

Lemma desc_lookup l i j x y :
  desc l → (i ≤ j)%nat → l !! i = Some x → l !! j = Some y → y ≤ x.
Proof.
  intros Hl. revert i j. induction Hl as [|a l Hl IH Ha]; intros i j Hij Hi Hj.
  - done.
  - destruct i as [|i], j as [|j]; simplify_eq/=; try lia.
    + eapply Forall_forall in Ha; [exact Ha|]. by eapply list_elem_of_lookup_2.
    + eapply IH; [|done..]. lia.
Qed.

Lemma desc_take l k : desc l → desc (take k l).
Proof.
  intros Hl. rewrite <-(take_drop k l) in Hl.
  by apply StronglySorted_app_1_l in Hl.
Qed.

Lemma nonneg_take l k : nonneg l → nonneg (take k l).
Proof. apply Forall_take. Qed.

Lemma nonneg_drop l k : nonneg l → nonneg (drop k l).
Proof. apply Forall_drop. Qed.

(** Moving the head of a sorted list in front of a prefix of its tail can
    only increase the sum. *)
Lemma sumZ_take_shift x l k :
  desc (x :: l) → 0 ≤ x → sumZ (take (S k) l) ≤ x + sumZ (take k l).
Proof.
  revert k. induction l as [|y l IH]; intros k Hl Hx.
  - rewrite !take_nil. simpl. lia.
  - assert (y ≤ x).
    { eapply (desc_lookup _ 0 1); [exact Hl|lia|done..]. }
    assert (desc (x :: l)).
    { inversion_clear Hl as [|?? Hl' Hx']. constructor.
      - by inversion_clear Hl'.
      - by inversion_clear Hx'. }
    destruct k as [|k]; simpl.
    + lia.
    + specialize (IH k ltac:(done) Hx). simpl in IH. lia.
Qed.

(** A sub-list with at most [k] entries sums to at most the [k] largest. *)
Lemma sumZ_sublist_top k l m :
  desc l → nonneg l → k `sublist_of` l → (length k ≤ m)%nat →
  sumZ k ≤ sumZ (take m l).
Proof.
  intros Hd Hn Hk. revert m Hd Hn.
  induction Hk as [|x k l _ IH|x k l _ IH]; intros m Hd Hn Hm.
  - rewrite take_nil. done.
  - apply Forall_cons in Hn as [??]. simpl in Hm.
    destruct m as [|m]; [lia|]. simpl.
    assert (desc l) by (by inversion_clear Hd).
    specialize (IH m ltac:(done) ltac:(done) ltac:(lia)). lia.
  - apply Forall_cons in Hn as [??].
    assert (desc l) by (by inversion_clear Hd).
    specialize (IH m ltac:(done) ltac:(done) Hm).
    destruct m as [|m]; simpl.
    + rewrite take_0 in IH. done.
    + pose proof (sumZ_take_shift x l m Hd ltac:(done)). lia.
Qed.

(** A sub-list with at least [m] entries sums to at least the [m]
    smallest. *)
Lemma sumZ_sublist_bot k l m :
  desc l → nonneg l → k `sublist_of` l → (m ≤ length k)%nat →
  sumZ (drop (length l - m) l) ≤ sumZ k.
Proof.
  intros Hd Hn Hk. revert m Hd Hn.
  induction Hk as [|x k l Hk IH|x k l Hk IH]; intros m Hd Hn Hm.
  - done.
  - apply Forall_cons in Hn as [??].
    assert (desc l) by (by inversion_clear Hd).
    pose proof (sumZ_nonneg k (nonneg_sublist _ _ Hk ltac:(done))).
    simpl in Hm. destruct m as [|m].
    + rewrite drop_ge by (simpl; lia). simpl. lia.
    + specialize (IH m ltac:(done) ltac:(done) ltac:(lia)).
      pose proof (sublist_length _ _ Hk).
      replace (length (x :: l) - S m)%nat with (length l - m)%nat
        by (simpl; lia).
      destruct (length l - m)%nat as [|j] eqn:Hj; simpl.
      * rewrite drop_0 in IH. lia.
      * destruct (lookup_lt_is_Some_2 l j ltac:(lia)) as [y Hy].
        rewrite (drop_S _ _ _ Hy). simpl.
        assert (y ≤ x).
        { eapply (desc_lookup (x :: l) 0 (S j)); [exact Hd|lia|done..]. }
        lia.
  - apply Forall_cons in Hn as [??].
    assert (desc l) by (by inversion_clear Hd).
    pose proof (sublist_length _ _ Hk).
    specialize (IH m ltac:(done) ltac:(done) Hm).
    replace (length (x :: l) - m)%nat with (S (length l - m))
      by (simpl; lia).
    done.
Qed.

(** ** Sums of segments [l[i..j)] with int indices *)

Lemma seg_nil l i j : j ≤ i → seg l i j = 0.
Proof. intros. unfold seg. by replace (Z.to_nat (j - i)) with 0%nat by lia. Qed.

Lemma seg_split l i j k :
  0 ≤ i ≤ j → j ≤ k → seg l i k = seg l i j + seg l j k.
Proof.
  intros ??. unfold seg. rewrite <-sumZ_app. f_equal.
  replace (Z.to_nat j) with (Z.to_nat i + Z.to_nat (j - i))%nat by lia.
  rewrite <-drop_drop, take_take_drop. f_equal. lia.
Qed.

Lemma seg_one l i x : 0 ≤ i → l !! Z.to_nat i = Some x → seg l i (i + 1) = x.
Proof.
  intros ? Hx. unfold seg. rewrite (drop_S _ _ _ Hx).
  replace (Z.to_nat (i + 1 - i)) with 1%nat by lia. simpl. lia.
Qed.

Lemma seg_all l : seg l 0 (Z.of_nat (length l)) = sumZ l.
Proof.
  unfold seg. simpl. rewrite drop_0, take_ge; [done|lia].
Qed.

Lemma seg_nonneg l i j : nonneg l → 0 ≤ seg l i j.
Proof. intros. by apply sumZ_nonneg, nonneg_take, nonneg_drop. Qed.

Lemma seg_snoc l i j x :
  0 ≤ i ≤ j → l !! Z.to_nat j = Some x → seg l i (j + 1) = seg l i j + x.
Proof.
  intros ? Hx. rewrite (seg_split l i j (j + 1)) by lia.
  by rewrite (seg_one l j x ltac:(lia) Hx).
Qed.

Lemma seg_cons l i j x :
  0 ≤ i < j → l !! Z.to_nat i = Some x → seg l i j = x + seg l (i + 1) j.
Proof.
  intros ? Hx. rewrite (seg_split l i (i + 1) j) by lia.
  by rewrite (seg_one l i x ltac:(lia) Hx).
Qed.

(** Two segments that do not overlap fit in the total. *)
Lemma seg_pair_total l i j k :
  nonneg l → 0 ≤ i → i ≤ j → j ≤ k → k ≤ Z.of_nat (length l) →
  seg l 0 i + seg l j k ≤ sumZ l.
Proof.
  intros Hn ????. rewrite <-seg_all.
  rewrite (seg_split l 0 i (Z.of_nat (length l))) by lia.
  rewrite (seg_split l i j (Z.of_nat (length l))) by lia.
  rewrite (seg_split l j k (Z.of_nat (length l))) by lia.
  pose proof (seg_nonneg l i j Hn).
  pose proof (seg_nonneg l k (Z.of_nat (length l)) Hn). lia.
Qed.

Lemma seg_total l i j :
  nonneg l → 0 ≤ i → i ≤ j → j ≤ Z.of_nat (length l) → seg l i j ≤ sumZ l.
Proof.
  intros Hn ???. pose proof (seg_pair_total l i i j Hn).
  pose proof (seg_nonneg l 0 i Hn). lia.
Qed.

Lemma lookupZ l (i : Z) :
  0 ≤ i < Z.of_nat (length l) → ∃ x : Z, l !! Z.to_nat i = Some x.
Proof. intros. apply lookup_lt_is_Some_2. lia. Qed.

Lemma nonneg_lookup l (i : nat) x : nonneg l → l !! i = Some x → 0 ≤ x.
Proof. intros Hn Hx. by eapply (Forall_lookup_1 _ _ _ _ Hn Hx). Qed.

(** ** Runs that return *)

Lemma bind_Ret {A B} (m : res A) (k : A → res B) v :
  m ≫= k = Ret v → ∃ x, m = Ret x ∧ k x = Ret v.
Proof. destruct m as [x| |]; [|done..]. intros ?. by exists x. Qed.

Lemma returns_ret {A} (v : A) (P : A → Prop) : P v → returns (Ret v) P.
Proof. intros. by exists v. Qed.

Lemma returns_bind {A B} (m : res A) (k : A → res B) (P : B → Prop) :
  returns m (λ x, returns (k x) P) → returns (m ≫= k) P.
Proof. intros (x & -> & y & Hy & ?). exists y. done. Qed.

Lemma returns_chk z (P : Z → Prop) : in_int z → P z → returns (chk z) P.
Proof. intros Hz ?. rewrite (chk_ok z Hz). by apply returns_ret. Qed.

Lemma returns_eq {A} (m : res A) (v : A) (P : A → Prop) :
  m = Ret v → P v → returns m P.
Proof. intros -> ?. by apply returns_ret. Qed.

Lemma returns_impl {A} (m : res A) (P Q : A → Prop) :
  returns m P → (∀ v, P v → Q v) → returns m Q.
Proof. intros (v & ? & ?) HPQ. exists v. auto. Qed.

Lemma returns_inv {A} (m : res A) (v : A) (P : A → Prop) :
  returns m P → m = Ret v → P v.
Proof. intros (w & -> & ?) [= <-]. done. Qed.

Ltac int_ok :=
  unfold in_int; pose proof int_range; lia.

(** One checked arithmetic step of the code. *)
Ltac wp_chk :=
  apply returns_bind; unfold iadd, isub, imul;
  apply returns_chk; [int_ok|cbv beta].

(** One array read whose result is known. *)
Ltac wp_read Hat :=
  apply returns_bind; apply (returns_eq _ _ _ Hat); cbv beta.

Section nosum_proof.
Context {T : Type} `{SizeSetOps T}.
Variables (s : T) (l : list Z) (a b : Z).
Hypothesis Hrep : represents s l.
Hypothesis Hd : desc l.
Hypothesis Hn : nonneg l.
Hypothesis Ha : 0 < a.
Hypothesis Hab : a ≤ b.
Hypothesis Hb : b < sumZ l.

Local Abbreviation N := (Z.of_nat (length l)).

Local Lemma at_ok i :
  0 ≤ i < N →
  ∃ x, l !! Z.to_nat i = Some x ∧ at_ s i = Ret x ∧ 0 ≤ x.
Proof using Hrep Hn.
  intros Hi. destruct (lookupZ l i Hi) as [x Hx]. exists x.
  split; [done|]. split; [by apply (repr_in s l Hrep); [lia|]|].
  by eapply nonneg_lookup.
Qed.

Local Lemma N_int : 0 ≤ N ≤ int_max.
Proof using Hrep. pose proof (repr_card_int s l Hrep). lia. Qed.

Local Lemma total_int : sumZ l ≤ int_max.
Proof using Hrep. apply (repr_total_int s l Hrep). Qed.

(** The first loop stops with the [kp] smallest sizes in [sc], just
    short of [a]. *)
Lemma nosum_small_run fuel sc kp :
  0 ≤ kp ≤ N - 1 → sc = seg l (N - kp) N → sc < a →
  (Z.to_nat (N - kp) ≤ fuel)%nat →
  returns (nosum_small s a (N - 1) fuel sc kp) (λ '(sc', kp'),
    0 ≤ kp' ≤ N - 1 ∧ sc' = seg l (N - kp') N ∧ sc' < a ∧
    ∃ x, l !! Z.to_nat (N - 1 - kp') = Some x ∧ a ≤ sc' + x).
Proof using All.
  pose proof N_int. pose proof total_int.
  revert sc kp. induction fuel as [|fuel IH]; intros sc kp Hkp Hsc Hlt Hf.
  { lia. }
  destruct (at_ok (N - 1 - kp) ltac:(lia)) as (x & Hx & Hat & Hx0).
  assert (sc + x = seg l (N - 1 - kp) N) as Hy.
  { rewrite (seg_cons l (N - 1 - kp) N x) by (done || lia).
    replace (N - 1 - kp + 1) with (N - kp) by lia. lia. }
  pose proof (seg_total l (N - 1 - kp) N Hn ltac:(lia) ltac:(lia) ltac:(done)).
  pose proof (seg_nonneg l (N - kp) N Hn).
  cbn [nosum_small]. wp_chk. wp_read Hat. wp_chk.
  case_bool_decide as Hya.
  - assert (kp < N - 1).
    { destruct (decide (kp = N - 1)) as [->|]; [|lia].
      replace (N - 1 - (N - 1)) with 0 in Hy by lia.
      rewrite seg_all in Hy. lia. }
    wp_chk. apply IH; [lia| |lia|lia].
    rewrite Hy. f_equal. lia.
  - apply returns_ret. repeat split; try (done || lia).
    exists x. split; [done|lia].
Qed.

Local Lemma elem_total i x :
  0 ≤ i < N → l !! Z.to_nat i = Some x → 0 ≤ x ≤ sumZ l.
Proof using Hn.
  intros Hi Hx. split; [by eapply nonneg_lookup|].
  rewrite <-(seg_one l i x ltac:(lia) Hx). apply seg_total; [done|lia..].
Qed.

Lemma nosum_shift_run fuel k sa sb sc kp :
  nosum_inv l k sa sb sc kp → sa < a → nosum_tight l a sa sc kp →
  (Z.to_nat kp < fuel)%nat →
  returns (nosum_shift s a (N - 1) fuel k sa sb sc kp) (λ '(sb', sc', kp'),
    nosum_inv l k sa sb' sc' kp' ∧ sa + sc' < a ∧ nosum_tight l a sa sc' kp').
Proof using All.
  pose proof N_int. pose proof total_int.
  revert sb sc kp.
  induction fuel as [|fuel IH]; intros sb sc kp Hinv Hsa Htight Hf.
  { lia. }
  destruct Hinv as (Hk & Hkp & Hkkp & Esa & Esc & Esb).
  pose proof (seg_pair_total l k (N - kp) N Hn ltac:(lia) ltac:(lia)
                ltac:(lia) ltac:(done)) as Hpair.
  pose proof (seg_nonneg l 0 k Hn). pose proof (seg_nonneg l (N - kp) N Hn).
  cbn [nosum_shift]. wp_chk. case_bool_decide as Hy.
  - assert (1 ≤ kp).
    { destruct (decide (kp = 0)) as [->|]; [|lia].
      rewrite seg_nil in Esc by lia. lia. }
    wp_chk. wp_chk.
    replace (N - 1 - (kp - 1)) with (N - kp) by lia.
    destruct (at_ok (N - kp) ltac:(lia)) as (x & Hx & Hat & Hx0).
    destruct (at_ok (N - kp - k - 1) ltac:(lia)) as (z & Hz & Hzat & Hz0).
    pose proof (elem_total (N - kp) x ltac:(lia) Hx).
    pose proof (elem_total (N - kp - k - 1) z ltac:(lia) Hz).
    assert (sc = x + seg l (N - kp + 1) N) as Esc'.
    { rewrite Esc. apply seg_cons; [lia|done]. }
    assert (sb = z + seg l (N - kp - k) (N - kp)) as Esb'.
    { rewrite Esb. rewrite (seg_cons l (N - kp - k - 1) (N - kp) z);
        [|lia|done]. do 2 f_equal. lia. }
    assert (seg l (N - kp - k) (N - kp + 1) = seg l (N - kp - k) (N - kp) + x)
      as Ewin by (apply seg_snoc; [lia|done]).
    pose proof (seg_nonneg l (N - kp + 1) N Hn).
    pose proof (seg_nonneg l (N - kp - k) (N - kp + 1) Hn).
    pose proof (seg_total l (N - kp - k) (N - kp + 1) Hn ltac:(lia)
                  ltac:(lia) ltac:(lia)).
    wp_read Hat. wp_chk. wp_chk. wp_chk.
    wp_read Hzat. wp_chk. wp_chk.
    apply IH; [|done| |lia].
    + repeat split; try lia.
      * rewrite Esc'. replace (N - (kp - 1)) with (N - kp + 1) by lia. lia.
      * replace (N - (kp - 1) - k - 1) with (N - kp - k) by lia.
        replace (N - (kp - 1)) with (N - kp + 1) by lia. lia.
    + exists x. replace (N - 1 - (kp - 1)) with (N - kp) by lia.
      split; [done|lia].
  - apply returns_ret. repeat split; try (done || lia).
Qed.

Lemma nosum_main_run fuel inner k sa sb sc kp :
  nosum_inv l k sa sb sc kp → sa + sc < a → nosum_tight l a sa sc kp →
  (Z.to_nat (N - k) < fuel)%nat → (Z.to_nat N ≤ inner)%nat →
  returns (nosum_main s a b (N - 1) fuel inner k sa sb sc kp)
    (λ '(sa', sb', sc'),
      (sa' < a ∧ b < sb' ∧ ∃ k' kp', nosum_inv l k' sa' sb' sc' kp' ∧
                                      sa' + sc' < a) ∨
      (a ≤ sa' ∧ 0 ≤ sa' + sc' ≤ sumZ l)).
Proof using All.
  pose proof N_int. pose proof total_int. intros Hinv Hlt Htight Hf Hin.
  revert k sa sb sc kp Hinv Hlt Htight Hf.
  induction fuel as [|fuel IH]; intros k sa sb sc kp Hinv Hlt Htight Hf.
  { lia. }
  pose proof Hinv as (Hk & Hkp & Hkkp & Esa & Esc & Esb).
  pose proof (seg_nonneg l 0 k Hn). pose proof (seg_nonneg l (N - kp) N Hn).
  cbn [nosum_main]. rewrite (bool_decide_eq_true_2 (sa < a)) by lia.
  cbn [andb]. case_bool_decide as Hsb.
  - destruct (at_ok k ltac:(lia)) as (x & Hx & Hat & Hx0).
    assert (seg l 0 (k + 1) = sa + x) as Esa'.
    { rewrite Esa. apply seg_snoc; [lia|done]. }
    pose proof (seg_pair_total l (k + 1) (N - kp) N Hn ltac:(lia) ltac:(lia)
                  ltac:(lia) ltac:(done)) as Hpair.
    wp_read Hat. wp_chk. wp_chk. case_bool_decide as Hsa'.
    + destruct Htight as (x0 & Hx0' & Hx0a).
      assert (x0 ≤ x).
      { eapply (desc_lookup l (Z.to_nat k) (Z.to_nat (N - 1 - kp)));
          [done|lia|done..]. }
      assert (1 ≤ kp).
      { destruct (decide (kp = 0)) as [->|]; [|lia].
        rewrite seg_nil in Esc by lia. lia. }
      wp_chk. wp_chk.
      replace (N - 1 - (kp - 1)) with (N - kp) by lia.
      destruct (at_ok (N - kp) ltac:(lia)) as (y & Hy & Hyat & Hy0).
      assert (sc = y + seg l (N - kp + 1) N) as Esc'.
      { rewrite Esc. apply seg_cons; [lia|done]. }
      assert (seg l (N - kp - k - 1) (N - kp + 1) = sb + y) as Esb'.
      { rewrite Esb. apply seg_snoc; [lia|done]. }
      pose proof (seg_nonneg l (N - kp + 1) N Hn).
      pose proof (seg_nonneg l (N - kp - k - 1) (N - kp) Hn).
      pose proof (seg_total l (N - kp - k - 1) (N - kp + 1) Hn ltac:(lia)
                    ltac:(lia) ltac:(lia)).
      wp_read Hyat. wp_chk. wp_chk.
      apply returns_bind.
      eapply returns_impl.
      { apply (nosum_shift_run inner (k + 1) (sa + x) (sb + y) (sc - y)
                 (kp - 1)); [|done| |lia].
        - repeat split; try lia.
          + replace (N - (kp - 1)) with (N - kp + 1) by lia. lia.
          + replace (N - (kp - 1) - (k + 1) - 1) with (N - kp - k - 1) by lia.
            replace (N - (kp - 1)) with (N - kp + 1) by lia. lia.
        - exists y. replace (N - 1 - (kp - 1)) with (N - kp) by lia.
          split; [done|lia]. }
      intros [[sb2 sc2] kp2] (Hinv2 & Hlt2 & Htight2). cbv beta iota.
      apply IH; [done..|]. lia.
    + destruct fuel as [|fuel]; [lia|].
      cbn [nosum_main]. rewrite (bool_decide_eq_false_2 (sa + x < a)) by lia.
      cbn [andb]. apply returns_ret. right. lia.
  - apply returns_ret. left. split; [lia|]. split; [lia|].
    exists k, kp. done.
Qed.

Lemma nosum_run fuel ap0 bp0 :
  (Z.to_nat N < fuel)%nat →
  returns (nosum fuel s a b ap0 bp0) (λ '(r, ap, bp),
    ∃ ap' bp', ap = Some ap' ∧ bp = Some bp' ∧
      (r = true →
         ap' < a ∧ b < bp' ∧
         ∃ k kp, 0 ≤ k ∧ 0 ≤ kp ∧ k + kp ≤ N - 1 ∧
           ap' = seg l 0 k + seg l (N - kp) N ∧
           bp' = seg l (N - kp - k - 1) (N - kp))).
Proof using All.
  pose proof N_int. pose proof total_int. intros Hf.
  assert (1 ≤ N).
  { destruct l; [simpl in Hb; lia|]. simpl. lia. }
  unfold nosum. rewrite bool_decide_eq_false_2 by lia.
  rewrite (repr_total s l Hrep). cbn [mbind res_mbind res_bind].
  rewrite bool_decide_eq_false_2 by lia.
  rewrite (repr_card s l Hrep). cbn [mbind res_mbind res_bind].
  wp_chk. apply returns_bind.
  eapply returns_impl.
  { apply (nosum_small_run fuel 0 0); [lia| |lia|lia].
    by rewrite seg_nil by lia. }
  intros [sc kp] (Hkp & Esc & Hsc & x & Hx & Hxa). cbv beta iota.
  wp_chk.
  assert (at_ s (N - 1 - kp) = Ret x) as Hat.
  { apply (repr_in s l Hrep); [lia|done]. }
  wp_read Hat. apply returns_bind.
  eapply returns_impl.
  { apply (nosum_main_run fuel fuel 0 0 x sc kp); [|lia| |lia|lia].
    - repeat split; try lia.
      replace (N - kp - 0 - 1) with (N - 1 - kp) by lia.
      replace (N - kp) with (N - 1 - kp + 1) by lia.
      symmetry. apply seg_one; [lia|done].
    - exists x. split; [done|lia]. }
  intros [[sa sb'] sc'] Hpost. cbv beta iota.
  destruct Hpost as [(Hsa & Hsb & k' & kp' & Hinv & Hlt)|(Hsa & Hsum)].
  - destruct Hinv as (Hk & Hkp' & Hkkp & Esa & Esc' & Esb).
    pose proof (seg_nonneg l 0 k' Hn).
    pose proof (seg_nonneg l (N - kp') N Hn).
    wp_chk. apply returns_ret. exists (sa + sc'), sb'.
    split; [done|]. split; [done|]. intros _.
    split; [done|]. split; [done|]. exists k', kp'.
    repeat split; try (done || lia).
  - wp_chk. apply returns_ret. exists (sa + sc'), sb'.
    split; [done|]. split; [done|].
    rewrite bool_decide_eq_false_2 by lia. done.
Qed.
End nosum_proof.

(** ** The gap between the two sums found by [nosum] *)

Lemma seg_achievable l i j : achievable l (seg l i j).
Proof.
  apply subsums_sublist. eexists. split; [|done].
  etrans; [apply sublist_take|apply sublist_drop].
Qed.

Lemma seg_ends_achievable l k m :
  0 ≤ k ≤ m → achievable l (seg l 0 k + seg l m (Z.of_nat (length l))).
Proof.
  intros Hkm. apply subsums_sublist.
  exists (take (Z.to_nat k) l ++ drop (Z.to_nat m) l). split.
  - rewrite <-(take_drop (Z.to_nat k) l) at 3. apply sublist_app; [done|].
    replace (Z.to_nat m) with (Z.to_nat k + Z.to_nat (m - k))%nat by lia.
    rewrite <-drop_drop. apply sublist_drop.
  - rewrite sumZ_app. unfold seg. f_equal.
    + rewrite drop_0. f_equal. f_equal. lia.
    + f_equal. rewrite take_ge; [done|]. rewrite length_drop. lia.
Qed.

(** Every sub-multiset sum is at most the sum of the [k] largest and [kp]
    smallest sizes, or at least the sum of the [k+1] sizes just above the
    [kp] smallest. *)
Lemma nosum_gap l k kp v :
  desc l → nonneg l → 0 ≤ k → 0 ≤ kp → k + kp ≤ Z.of_nat (length l) - 1 →
  achievable l v →
  v ≤ seg l 0 k + seg l (Z.of_nat (length l) - kp) (Z.of_nat (length l)) ∨
  seg l (Z.of_nat (length l) - kp - k - 1) (Z.of_nat (length l) - kp) ≤ v.
Proof.
  intros Hd Hn Hk Hkp Hkkp (t & Ht & <-)%subsums_sublist.
  set (N := Z.of_nat (length l)) in *.
  set (m := Z.to_nat (N - kp)).
  assert (length (take m l) = m) as Hlen by (rewrite length_take; lia).
  rewrite <-(take_drop m l) in Ht.
  apply sublist_app_r in Ht as (t1 & t2 & -> & Ht1 & Ht2).
  rewrite sumZ_app.
  pose proof (sumZ_sublist _ _ Ht2 (nonneg_drop l m Hn)) as Hc.
  pose proof (sumZ_nonneg _ (nonneg_sublist _ _ Ht2 (nonneg_drop l m Hn))).
  pose proof (sumZ_nonneg _ (nonneg_sublist _ _ Ht1 (nonneg_take l m Hn))).
  assert (seg l (N - kp) N = sumZ (drop m l)) as ->.
  { unfold seg. fold m. rewrite take_ge; [done|]. rewrite length_drop. lia. }
  destruct (decide (length t1 ≤ Z.to_nat k)%nat) as [Hle|Hgt].
  - left.
    pose proof (sumZ_sublist_top t1 (take m l) (Z.to_nat k)
                  (desc_take l m Hd) (nonneg_take l m Hn) Ht1 Hle) as Htop.
    rewrite take_take in Htop.
    replace (Z.to_nat k `min` m)%nat with (Z.to_nat k) in Htop by lia.
    unfold seg. rewrite drop_0.
    replace (Z.to_nat (k - 0)) with (Z.to_nat k) by lia. lia.
  - right.
    pose proof (sumZ_sublist_bot t1 (take m l) (S (Z.to_nat k))
                  (desc_take l m Hd) (nonneg_take l m Hn) Ht1 ltac:(lia))
      as Hbot.
    rewrite Hlen in Hbot. unfold seg.
    rewrite take_drop_commute.
    replace (Z.to_nat (N - kp - k - 1)) with (m - S (Z.to_nat k))%nat by lia.
    replace (m - S (Z.to_nat k) + Z.to_nat (N - kp - (N - kp - k - 1)))%nat
      with m by lia.
    lia.
Qed.

(** ** More fuel never changes a returned value *)

Lemma res_le_refl {A} (m : res A) : res_le m m.
Proof. by intros v. Qed.

Lemma res_le_bind {A B} (m m' : res A) (k k' : A → res B) :
  res_le m m' → (∀ x, res_le (k x) (k' x)) → res_le (m ≫= k) (m' ≫= k').
Proof.
  intros Hm Hk v. destruct m as [x| |]; [|done..].
  rewrite (Hm x eq_refl). apply Hk.
Qed.

Ltac mono_bind := apply res_le_bind; [apply res_le_refl|intros ?].

Section nosum_mono.
Context {T : Type} `{SizeSetOps T}.
Variables (s : T) (a b : Z).

Lemma nosum_small_mono n fuel fuel' sc kp :
  (fuel ≤ fuel')%nat →
  res_le (nosum_small s a n fuel sc kp) (nosum_small s a n fuel' sc kp).
Proof.
  revert fuel' sc kp. induction fuel as [|fuel IH]; intros fuel' sc kp Hf.
  { done. }
  destruct fuel' as [|fuel']; [lia|]. cbn [nosum_small].
  do 3 mono_bind. case_bool_decide; [|apply res_le_refl].
  mono_bind. apply IH. lia.
Qed.

Lemma nosum_shift_mono n fuel fuel' k sa sb sc kp :
  (fuel ≤ fuel')%nat →
  res_le (nosum_shift s a n fuel k sa sb sc kp)
         (nosum_shift s a n fuel' k sa sb sc kp).
Proof.
  revert fuel' sb sc kp.
  induction fuel as [|fuel IH]; intros fuel' sb sc kp Hf.
  { done. }
  destruct fuel' as [|fuel']; [lia|]. cbn [nosum_shift].
  mono_bind. case_bool_decide; [|apply res_le_refl].
  do 9 mono_bind. apply IH. lia.
Qed.

Lemma nosum_main_mono n fuel fuel' inner inner' k sa sb sc kp :
  (fuel ≤ fuel')%nat → (inner ≤ inner')%nat →
  res_le (nosum_main s a b n fuel inner k sa sb sc kp)
         (nosum_main s a b n fuel' inner' k sa sb sc kp).
Proof.
  intros Hf Hi. revert fuel' k sa sb sc kp Hf.
  induction fuel as [|fuel IH]; intros fuel' k sa sb sc kp Hf.
  { done. }
  destruct fuel' as [|fuel']; [lia|]. cbn [nosum_main].
  destruct (bool_decide (sa < a) && bool_decide (sb ≤ b));
    [|apply res_le_refl].
  do 3 mono_bind. case_bool_decide; [|apply IH; lia].
  do 5 mono_bind. apply res_le_bind.
  - by apply nosum_shift_mono.
  - intros [[??]?]. apply IH. lia.
Qed.

Lemma nosum_mono fuel fuel' ap bp :
  (fuel ≤ fuel')%nat →
  res_le (nosum fuel s a b ap bp) (nosum fuel' s a b ap bp).
Proof.
  intros Hf. unfold nosum. case_bool_decide; [apply res_le_refl|].
  mono_bind. case_bool_decide; [apply res_le_refl|].
  do 2 mono_bind. apply res_le_bind.
  - by apply nosum_small_mono.
  - intros [??]. do 2 mono_bind. apply res_le_bind.
    + by apply nosum_main_mono.
    + intros [[??]?]. apply res_le_refl.
Qed.
End nosum_mono.

(** [nosum] with any budget: when it returns [true] on a non-degenerate
    interval, its two outputs frame a gap of the achievable sums. *)
Lemma nosum_true {T : Type} `{SizeSetOps T} (s : T) (l : list Z)
    (a b : Z) fuel ap0 bp0 ap bp :
  represents s l → descending l → nonneg l → 0 < a → a ≤ b → b < sumZ l →
  nosum fuel s a b ap0 bp0 = Ret (true, ap, bp) →
  ∃ ap' bp', ap = Some ap' ∧ bp = Some bp' ∧ ap' < a ∧ b < bp' ∧
    achievable l ap' ∧ achievable l bp' ∧
    ∀ v, achievable l v → v ≤ ap' ∨ bp' ≤ v.
Proof.
  intros Hrep Hd%descending_desc Hn Ha Hab Hb Hrun.
  set (F := (fuel `max` S (length l))%nat).
  apply (nosum_mono s a b fuel F) in Hrun; [|lia].
  pose proof (nosum_run s l a b Hrep Hd Hn Ha Hab Hb F ap0 bp0 ltac:(lia))
    as Hret.
  apply (returns_inv _ _ _ Hret) in Hrun as (ap' & bp' & -> & -> & Hgap).
  destruct (Hgap eq_refl) as (? & ? & k & kp & ? & ? & ? & Eap & Ebp).
  exists ap', bp'. do 4 (split; [done|]). rewrite Eap, Ebp. split; [|split].
  - apply seg_ends_achievable. lia.
  - apply seg_achievable.
  - intros v Hv. by apply nosum_gap.
Qed.

(** ** Size sets built by [add] *)

Lemma foldl_fault {A B} (f : B → res A → res A) (e : fault) (l : list B) :
  (∀ x, f x (Fault e) = Fault e) →
  foldl (λ acc x, f x acc) (Fault e) l = Fault e.
Proof. intros Hf. induction l as [|x l IH]; simpl; [done|]. by rewrite Hf. Qed.

Lemma filled_create n_max : filled (SizeSet.create n_max) [].
Proof.
  unfold filled, SizeSet.create. simpl. do 2 (split; [done|]).
  do 2 (split; [int_ok|]). by eexists.
Qed.

Lemma filled_add x l s0 y :
  filled x l → SizeSet.add s0 x = Ret y → filled y (l ++ [s0]).
Proof.
  intros (Hcnt & Htot & Hni & Hti & r & Hs). unfold SizeSet.add, iadd.
  destruct (chk (SizeSet.t x + s0)) as [t'| |] eqn:Ht; [|done..].
  apply chk_Ret in Ht as [-> ?]. cbn [mbind res_mbind res_bind].
  case_bool_decide as Hlen; [|done].
  destruct (chk (SizeSet.n x + 1)) as [n'| |] eqn:Hn'; [|done..].
  apply chk_Ret in Hn' as [-> ?]. cbn [mbind res_mbind res_bind].
  intros [= <-]. unfold filled. simpl.
  rewrite length_app, sumZ_app. simpl.
  split; [lia|]. split; [lia|]. split; [done|]. split; [done|].
  rewrite Hs in Hlen |- *. rewrite length_app, length_fmap, length_replicate in Hlen.
  destruct r as [|r]; [lia|]. exists r.
  rewrite Hcnt, Nat2Z.id, fmap_app. simpl.
  rewrite <-(length_fmap Some l) at 1.
  rewrite insert_app_r_alt by lia. rewrite Nat.sub_diag. simpl.
  by rewrite <-app_assoc.
Qed.

Lemma filled_of_list_from x l0 l y :
  filled x l0 →
  foldl (λ acc s0, z ← acc; SizeSet.add s0 z) (Ret x) l = Ret y →
  filled y (l0 ++ l).
Proof.
  revert x l0. induction l as [|s0 l IH]; intros x l0 Hx; simpl.
  - intros [= <-]. by rewrite app_nil_r.
  - destruct (SizeSet.add s0 x) as [z|e|] eqn:Hadd.
    + intros Hy.
      replace (l0 ++ s0 :: l) with ((l0 ++ [s0]) ++ l)
        by (by rewrite <-app_assoc).
      eapply IH; [|exact Hy]. by eapply filled_add.
    + by rewrite (foldl_fault (λ s1 acc, z ← acc; SizeSet.add s1 z)).
    + intros Hy. exfalso. clear -Hy.
      induction l as [|?? IHl]; simpl in *; [done|auto].
  Qed.

Lemma filled_of_list n_max l x :
  SizeSet.of_list n_max l = Ret x → filled x l.
Proof.
  intros Hx. by apply (filled_of_list_from _ [] l x (filled_create n_max)).
Qed.

Lemma filled_get x l i v :
  filled x l → 0 ≤ i → l !! Z.to_nat i = Some v → SizeSet.get x i = Ret v.
Proof.
  intros (_ & _ & _ & _ & r & Hs) Hi Hv. unfold SizeSet.get, read.
  rewrite bool_decide_eq_true_2 by done. rewrite Hs.
  rewrite lookup_app_l by (rewrite length_fmap; by eapply lookup_lt_Some).
  by rewrite list_lookup_fmap, Hv.
Qed.

Lemma filled_get_out x l i :
  filled x l → ¬ (0 ≤ i < Z.of_nat (length l)) → ∃ e, SizeSet.get x i = Fault e.
Proof.
  intros (_ & _ & _ & _ & r & Hs) Hi. unfold SizeSet.get, read.
  case_bool_decide; [|by eexists]. rewrite Hs.
  rewrite lookup_app_r by (rewrite length_fmap; lia).
  destruct (replicate r None !! _) as [c|] eqn:Hc; [|by eexists].
  apply lookup_replicate_1 in Hc as [-> _]. by eexists.
Qed.

Lemma filled_represents x l : filled x l → represents x l.
Proof.
  intros Hx. pose proof Hx as (Hcnt & Htot & Hni & Hti & _).
  split; simpl.
  - unfold SizeSet.card. by rewrite Hcnt.
  - rewrite <-Hcnt. apply Hni.
  - unfold SizeSet.total. by rewrite Htot.
  - rewrite <-Htot. apply Hti.
  - intros i v. by apply filled_get.
  - intros i. by apply filled_get_out.
Qed.

Lemma of_list_represents n_max l x :
  SizeSet.of_list n_max l = Ret x → represents x l.
Proof. intros. by eapply filled_represents, filled_of_list. Qed.

(** ** Properties of [nosum] *)

Lemma sizes_553_built : SizeSet.of_list 3 [5; 5; 3] = Ret sizes_553.
Proof. reflexivity. Qed.

Lemma descending_553 : descending [5; 5; 3].
Proof. repeat constructor; lia. Qed.

Lemma nonneg_553 : nonneg [5; 5; 3].
Proof. repeat constructor; lia. Qed.

(** C1 (NoSum soundness).  For sizes [l] sorted in descending order and
    nonnegative, held by a size set [s], and [0 < a <= b < total]: when
    [nosum(s, a, b)] returns [true], no sub-multiset of [l] has a sum in
    the interval ]a, b]. *)
Theorem nosum_sound {T : Type} `{SizeSetOps T} (s : T) (l : list Z)
    (a b : Z) (fuel : nat) :
  represents s l → descending l → nonneg l → 0 < a → a ≤ b → b < sumZ l →
  nosum3 fuel s a b = Ret true →
  ∀ v, achievable l v → ¬ (a < v ≤ b).
Proof.
  intros Hrep Hd Hn Ha Hab Hb Hrun v Hv Hin. unfold nosum3 in Hrun.
  destruct (nosum fuel s a b None None) as [[[r ap] bp]| |] eqn:Hns;
    [|done..].
  injection Hrun as ->.
  destruct (nosum_true s l a b fuel None None ap bp Hrep Hd Hn Ha Hab Hb Hns)
    as (ap' & bp' & _ & _ & ? & ? & _ & _ & Hgap).
  destruct (Hgap v Hv); lia.
Qed.

Lemma nosum_sound_witness :
  nosum3 10 sizes_553 6 7 = Ret true ∧
  Forall (λ v, ¬ (6 < v ≤ 7)) (subsums [5; 5; 3]).
Proof.
  split; [reflexivity|]. apply Forall_forall.
  apply (nosum_sound sizes_553 [5; 5; 3] 6 7 10).
  - apply (of_list_represents 3). reflexivity.
  - exact descending_553.
  - exact nonneg_553.
  - lia.
  - lia.
  - simpl. lia.
  - vm_compute. reflexivity.
Defined.

(** C2 (NoSum completeness).  For sizes [l] sorted in descending order and
    nonnegative and [a <= b]: when some sub-multiset of [l] has a sum in
    ]a, b], [nosum(s, a, b)] returns [false]. *)
Theorem nosum_complete {T : Type} `{SizeSetOps T} (s : T) (l : list Z)
    (a b : Z) (fuel : nat) :
  represents s l → descending l → nonneg l → a ≤ b →
  (∃ v, achievable l v ∧ a < v ≤ b) →
  (length l < fuel)%nat →
  nosum3 fuel s a b = Ret false.
Proof.
  intros Hrep Hd Hn Hab (v & Hv & Hin) Hf. unfold nosum3.
  destruct (decide (a ≤ 0)) as [Ha|Ha].
  { unfold nosum. by rewrite bool_decide_eq_true_2. }
  destruct (decide (sumZ l ≤ b)) as [Hb|Hb].
  { unfold nosum. rewrite bool_decide_eq_false_2 by done.
    rewrite (repr_total s l Hrep). cbn [mbind res_mbind res_bind].
    by rewrite bool_decide_eq_true_2. }
  destruct (nosum_run s l a b Hrep (descending_desc l Hd) Hn ltac:(lia) Hab
              ltac:(lia) fuel None None ltac:(lia))
    as ([[r ap] bp] & Hns & _).
  rewrite Hns. cbn [mbind res_mbind res_bind]. destruct r; [|done].
  destruct (nosum_true s l a b fuel None None ap bp Hrep Hd Hn ltac:(lia) Hab
              ltac:(lia) Hns) as (ap' & bp' & _ & _ & ? & ? & _ & _ & Hgap).
  destruct (Hgap v Hv); lia.
Qed.

Lemma nosum_complete_witness : nosum3 10 sizes_553 4 5 = Ret false.
Proof.
  apply (nosum_complete sizes_553 [5; 5; 3] 4 5 10).
  - apply (of_list_represents 3). reflexivity.
  - exact descending_553.
  - exact nonneg_553.
  - lia.
  - exists 5. split; [by apply (bool_decide_unpack _)|lia].
  - simpl. lia.
Defined.

(** C3 (NoSum output bounds).  Under the conditions of C1, when the
    five-argument [nosum] returns [true], [ap] is an achievable sum with
    [ap <= a], [bp] is an achievable sum with [bp > b], and no achievable
    sum lies strictly between [ap] and [bp]. *)
Theorem nosum_bounds {T : Type} `{SizeSetOps T} (s : T) (l : list Z)
    (a b : Z) (fuel : nat) (ap0 bp0 ap bp : option Z) :
  represents s l → descending l → nonneg l → 0 < a → a ≤ b → b < sumZ l →
  nosum fuel s a b ap0 bp0 = Ret (true, ap, bp) →
  ∃ ap' bp', ap = Some ap' ∧ bp = Some bp' ∧
    achievable l ap' ∧ ap' ≤ a ∧
    achievable l bp' ∧ b < bp' ∧
    ∀ v, achievable l v → ¬ (ap' < v < bp').
Proof.
  intros Hrep Hd Hn Ha Hab Hb Hns.
  destruct (nosum_true s l a b fuel ap0 bp0 ap bp Hrep Hd Hn Ha Hab Hb Hns)
    as (ap' & bp' & -> & -> & ? & ? & ? & ? & Hgap).
  exists ap', bp'. repeat split; try (done || lia).
  intros v Hv ?. destruct (Hgap v Hv); lia.
Qed.

Lemma nosum_bounds_witness :
  ∃ ap' bp', Some 5 = Some ap' ∧ Some 8 = Some bp' ∧
    achievable [5; 5; 3] ap' ∧ ap' ≤ 6 ∧
    achievable [5; 5; 3] bp' ∧ 7 < bp' ∧
    ∀ v, achievable [5; 5; 3] v → ¬ (ap' < v < bp').
Proof.
  apply (nosum_bounds sizes_553 [5; 5; 3] 6 7 10 None None).
  - apply (of_list_represents 3). reflexivity.
  - exact descending_553.
  - exact nonneg_553.
  - lia.
  - lia.
  - simpl. lia.
  - vm_compute. reflexivity.
Defined.

(** C4 (NoSum trivial rule).  For every size set and all [a], [b]: if
    [a <= 0] or [b >= total(s)], [nosum(s, a, b, ap, bp)] returns [false]
    at once, whatever the budget of its loops, and [ap] and [bp] still hold
    what they held before the call. *)
Theorem nosum_trivial {T : Type} `{SizeSetOps T} (s : T) (a b tot : Z)
    (fuel : nat) (ap bp : option Z) :
  a ≤ 0 ∨ (total s = Ret tot ∧ tot ≤ b) →
  nosum fuel s a b ap bp = Ret (false, ap, bp).
Proof.
  intros Htriv. unfold nosum. case_bool_decide as Ha; [done|].
  destruct Htriv as [?|[-> ?]]; [done|]. cbn [mbind res_mbind res_bind].
  by rewrite bool_decide_eq_true_2.
Qed.

Lemma nosum_trivial_witness :
  nosum 0 sizes_553 6 13 (Some 1) None = Ret (false, Some 1, None).
Proof.
  apply (nosum_trivial sizes_553 6 13 13 0 (Some 1) None).
  right. split; [reflexivity|lia].
Defined.

(** C10 (index safety and termination of [nosum]).  Under the conditions
    of C1 the call returns: a read outside [0, card) is a fault of the set
    (field [repr_out] of [represents]) and a loop still running after
    [fuel] tests gives [OutOfFuel], so a returned value means that every
    index [n-kp], [k] and [n-kp-k-1] was inside the set, that no sum left
    the range of int and that each loop stopped within [length l + 1]
    tests of its condition. *)
Theorem nosum_safe {T : Type} `{SizeSetOps T} (s : T) (l : list Z)
    (a b : Z) (fuel : nat) (ap0 bp0 : option Z) :
  represents s l → descending l → nonneg l → 0 < a → a ≤ b → b < sumZ l →
  (length l < fuel)%nat →
  ∃ r ap bp, nosum fuel s a b ap0 bp0 = Ret (r, Some ap, Some bp).
Proof.
  intros Hrep Hd Hn Ha Hab Hb Hf.
  destruct (nosum_run s l a b Hrep (descending_desc l Hd) Hn Ha Hab Hb
              fuel ap0 bp0 ltac:(lia))
    as ([[r ap] bp] & Hns & ap' & bp' & -> & -> & _).
  by exists r, ap', bp'.
Qed.

Lemma nosum_safe_witness :
  ∃ r ap bp, nosum 4 sizes_553 6 7 None None = Ret (r, Some ap, Some bp).
Proof.
  apply (nosum_safe sizes_553 [5; 5; 3] 6 7 4 None None).
  - apply (of_list_represents 3). reflexivity.
  - exact descending_553.
  - exact nonneg_553.
  - lia.
  - lia.
  - simpl. lia.
  - simpl. lia.
Defined.

(** ** SizeSetMinusOne *)

(** A non-increasing sequence drawn from a non-increasing list, counted
    with multiplicity, is a sub-list of it. *)
Lemma desc_submseteq_sublist vs l :
  desc vs → desc l → vs ⊆+ l → vs `sublist_of` l.
Proof.
  intros Hvs Hl. revert vs Hvs.
  induction l as [|x l IH]; intros vs Hvs Hsub.
  { apply submseteq_nil_r in Hsub as ->. constructor. }
  assert (desc l) as Hl' by (by inversion_clear Hl).
  apply submseteq_cons_r in Hsub as [Hsub|(vs' & Hperm & Hsub)].
  { apply sublist_cons. by apply IH. }
  destruct vs as [|y vs''].
  { by apply Permutation_nil_cons in Hperm. }
  assert (y ≤ x).
  { assert (y ∈ x :: vs') as [->|Hy]%elem_of_cons
      by (rewrite <-Hperm; left); [lia|].
    pose proof (elem_of_submseteq _ _ _ Hy Hsub) as Hyl.
    inversion_clear Hl as [|?? _ Hall].
    by eapply Forall_forall in Hall. }
  assert (x ≤ y).
  { assert (x ∈ y :: vs'') as [->|Hx]%elem_of_cons
      by (rewrite Hperm; left); [lia|].
    inversion_clear Hvs as [|?? _ Hall].
    by eapply Forall_forall in Hall. }
  assert (y = x) as -> by lia.
  apply Permutation_cons_inv in Hperm.
  apply sublist_skip, IH; [done|by inversion_clear Hvs|by rewrite Hperm].
Qed.

Lemma sublist_first (w : Z) r k :
  w :: r `sublist_of` k →
  ∃ j, k !! j = Some w ∧ r `sublist_of` drop (S j) k.
Proof.
  intros (k1 & k2 & -> & Hr)%sublist_cons_l. exists (length k1). split.
  - by rewrite list_lookup_middle.
  - rewrite (cons_middle w k1 k2), (assoc_L (++)).
    rewrite drop_app_length'; [done|]. rewrite length_app. simpl. lia.
Qed.

Section minus_proof.
Variables (b : SizeSet.SizeSet) (l : list Z).
Hypothesis Hb : filled b l.
Hypothesis Hd : desc l.
Hypothesis Hn : nonneg l.

(** The cursor stops on the first entry after [q] that is at most
    [s0]; when [s0] occurs after [q], that entry is [s0]. *)
Lemma minus_loop_run fuel s0 q (j : nat) :
  -1 ≤ q < Z.of_nat j → l !! j = Some s0 →
  (Z.to_nat (Z.of_nat j - q) ≤ fuel)%nat →
  returns (SizeSetMinusOne.minus_loop fuel b s0 q) (λ q',
    q < q' ≤ Z.of_nat j ∧ l !! Z.to_nat q' = Some s0).
Proof using All.
  intros Hq Hj. revert q Hq.
  induction fuel as [|fuel IH]; intros q Hq Hf; [lia|].
  pose proof (lookup_lt_Some _ _ _ Hj) as Hjl.
  pose proof Hb as (Hcnt & _ & Hni & _). unfold in_int in Hni.
  destruct (lookupZ l (q + 1) ltac:(lia)) as [v Hv].
  cbn [SizeSetMinusOne.minus_loop]. wp_chk.
  wp_read (filled_get b l (q + 1) v Hb ltac:(lia) Hv).
  assert (s0 ≤ v).
  { eapply (desc_lookup l (Z.to_nat (q + 1)) j); [done|lia|done..]. }
  case_bool_decide as Hlt.
  - assert (Z.of_nat j ≠ q + 1).
    { intros Heq. rewrite <-Heq, Nat2Z.id in Hv. simplify_eq. lia. }
    eapply returns_impl; [apply IH; lia|].
    intros q' [? ?]. split; [lia|done].
  - apply returns_ret. split; [lia|]. by replace s0 with v by lia.
Qed.

(** [minus] for a value that still occurs after the cursor. *)
Lemma minus_run fuel s0 x (j : nat) :
  SizeSetMinusOne.base x = b →
  -1 ≤ SizeSetMinusOne.p x < Z.of_nat j → l !! j = Some s0 →
  (length l ≤ fuel)%nat →
  returns (SizeSetMinusOne.minus fuel s0 x) (λ y,
    SizeSetMinusOne.base y = b ∧
    SizeSetMinusOne.p x < SizeSetMinusOne.p y ≤ Z.of_nat j ∧
    l !! Z.to_nat (SizeSetMinusOne.p y) = Some s0).
Proof using All.
  intros Hbase Hp Hj Hf. pose proof (lookup_lt_Some _ _ _ Hj).
  pose proof Hb as (Hcnt & _). unfold SizeSetMinusOne.minus.
  apply returns_bind. rewrite Hbase.
  eapply returns_impl; [by apply (minus_loop_run fuel s0 _ j); [| |lia]|].
  intros q [? ?]. cbv beta.
  unfold assert. rewrite bool_decide_eq_true_2 by lia.
  cbn [mbind res_mbind res_bind]. by apply returns_ret.
Qed.

(** A sequence of calls that is a sub-list of what lies after the
    cursor. *)
Lemma minus_all_run fuel vs v x :
  SizeSetMinusOne.base x = b → -1 ≤ SizeSetMinusOne.p x →
  vs ++ [v] `sublist_of` drop (Z.to_nat (SizeSetMinusOne.p x + 1)) l →
  (length l ≤ fuel)%nat →
  returns (SizeSetMinusOne.minus_all fuel (vs ++ [v]) x) (λ y,
    SizeSetMinusOne.base y = b ∧
    0 ≤ SizeSetMinusOne.p y < Z.of_nat (length l) ∧
    l !! Z.to_nat (SizeSetMinusOne.p y) = Some v).
Proof using All.
  intros Hbase Hp Hsub Hf. revert x Hbase Hp Hsub.
  induction vs as [|w vs IH]; intros x Hbase Hp Hsub.
  - apply sublist_first in Hsub as (j & Hj & _). rewrite lookup_drop in Hj.
    unfold SizeSetMinusOne.minus_all. simpl.
    eapply returns_impl.
    { apply (minus_run fuel v x
               (Z.to_nat (SizeSetMinusOne.p x + 1) + j)%nat Hbase
               ltac:(lia) Hj Hf). }
    intros y (? & ? & Hy). split; [done|]. split; [|done].
    apply lookup_lt_Some in Hy. lia.
  - apply sublist_first in Hsub as (j & Hj & Hrest).
    rewrite lookup_drop in Hj. rewrite drop_drop in Hrest.
    unfold SizeSetMinusOne.minus_all. simpl.
    destruct (minus_run fuel w x
                (Z.to_nat (SizeSetMinusOne.p x + 1) + j)%nat Hbase
                ltac:(lia) Hj Hf)
      as (y & Hy & Hbase' & Hpy & Hyw).
    rewrite Hy. apply (IH y Hbase' ltac:(lia)).
    etrans; [exact Hrest|].
    replace (Z.to_nat (SizeSetMinusOne.p x + 1) + S j)%nat
      with (Z.to_nat (SizeSetMinusOne.p y + 1) +
            (Z.to_nat (SizeSetMinusOne.p x + 1) + S j
             - Z.to_nat (SizeSetMinusOne.p y + 1)))%nat by lia.
    rewrite <-drop_drop. apply sublist_drop.
Qed.
End minus_proof.

Lemma minus_one_of_list_from x l0 l y :
  filled (SizeSetMinusOne.base x) l0 →
  foldl (λ acc s0, z ← acc; SizeSetMinusOne.add s0 z) (Ret x) l = Ret y →
  filled (SizeSetMinusOne.base y) (l0 ++ l) ∧
  SizeSetMinusOne.p y = SizeSetMinusOne.p x.
Proof.
  revert x l0. induction l as [|s0 l IH]; intros x l0 Hx; simpl.
  - intros [= <-]. by rewrite app_nil_r.
  - destruct (SizeSetMinusOne.add s0 x) as [z|e|] eqn:Hadd.
    + intros Hy.
      replace (l0 ++ s0 :: l) with ((l0 ++ [s0]) ++ l)
        by (by rewrite <-app_assoc).
      unfold SizeSetMinusOne.add in Hadd.
      destruct (SizeSet.add s0 (SizeSetMinusOne.base x)) as [b'| |] eqn:Hb';
        [|done..].
      injection Hadd as <-.
      apply (IH _ (l0 ++ [s0])) in Hy; [done|]. simpl.
      by eapply filled_add.
    + by rewrite (foldl_fault (λ s1 acc, z ← acc; SizeSetMinusOne.add s1 z)).
    + intros Hy. exfalso. clear -Hy.
      induction l as [|?? IHl]; simpl in *; [done|auto].
Qed.

Lemma sumZ_delete l (i : nat) v :
  l !! i = Some v → sumZ (delete i l) = sumZ l - v.
Proof.
  intros Hv. rewrite delete_take_drop.
  rewrite <-(take_drop_middle l i v Hv) at 3. rewrite !sumZ_app. simpl. lia.
Qed.

(** After [minus] has put the cursor on entry [p], the set stands for the
    sizes without that entry. *)
Lemma minus_represents x l v :
  filled (SizeSetMinusOne.base x) l → nonneg l →
  0 ≤ SizeSetMinusOne.p x →
  l !! Z.to_nat (SizeSetMinusOne.p x) = Some v →
  represents x (delete (Z.to_nat (SizeSetMinusOne.p x)) l).
Proof.
  intros Hb Hn Hp Hv. pose proof Hb as (Hcnt & Htot & Hni & Hti & _).
  unfold in_int in Hni, Hti.
  pose proof (lookup_lt_Some _ _ _ Hv) as Hlt.
  pose proof (nonneg_lookup _ _ _ Hn Hv).
  assert (v ≤ sumZ l).
  { rewrite <-(seg_one l (SizeSetMinusOne.p x) v Hp Hv).
    apply seg_total; [done|lia..]. }
  assert (length (delete (Z.to_nat (SizeSetMinusOne.p x)) l)
          = (length l - 1)%nat) as Hlen.
  { rewrite length_delete; [done|by eexists]. }
  split; simpl.
  - unfold SizeSetMinusOne.card, assert.
    rewrite (bool_decide_eq_true_2 (0 ≤ SizeSetMinusOne.p x)) by done. cbn [mbind res_mbind res_bind].
    unfold isub. rewrite chk_ok by int_ok. f_equal. lia.
  - pose proof int_range. lia.
  - unfold SizeSetMinusOne.total, assert.
    rewrite (bool_decide_eq_true_2 (0 ≤ SizeSetMinusOne.p x)) by done. cbn [mbind res_mbind res_bind].
    rewrite (filled_get _ l _ v Hb Hp Hv). cbn [mbind res_mbind res_bind].
    unfold isub. rewrite chk_ok by int_ok.
    by rewrite (sumZ_delete _ _ _ Hv), Htot.
  - rewrite (sumZ_delete _ _ _ Hv). lia.
  - intros i y Hi Hy. unfold SizeSetMinusOne.get, assert.
    rewrite (bool_decide_eq_true_2 (0 ≤ SizeSetMinusOne.p x)) by done. cbn [mbind res_mbind res_bind].
    pose proof (lookup_lt_Some _ _ _ Hy).
    case_bool_decide.
    + rewrite list_lookup_delete_lt in Hy by lia.
      by apply (filled_get _ l).
    + rewrite list_lookup_delete_ge in Hy by lia.
      unfold iadd. rewrite chk_ok by int_ok. cbn [mbind res_mbind res_bind].
      apply (filled_get _ l); [done|lia|].
      by replace (Z.to_nat (i + 1)) with (S (Z.to_nat i)) by lia.
  - intros i Hi. unfold SizeSetMinusOne.get, assert.
    rewrite (bool_decide_eq_true_2 (0 ≤ SizeSetMinusOne.p x)) by done. cbn [mbind res_mbind res_bind].
    case_bool_decide.
    + apply (filled_get_out _ l); [done|lia].
    + unfold iadd. destruct (chk (i + 1)) as [j| |] eqn:Hj.
      * apply chk_Ret in Hj as [-> _]. cbn [mbind res_mbind res_bind].
        apply (filled_get_out _ l); [done|lia].
      * by eexists.
      * unfold chk in Hj. by case_bool_decide.
Qed.

(** C5 (SizeSetMinusOne consistency).  Take a SizeSetMinusOne that
    received the nonnegative sizes [l] in non-increasing order, and a
    sequence of [minus] calls whose values are non-increasing and drawn
    from [l] (with multiplicity).  After the call [minus(v)] that ends the
    sequence the cursor [p] is on an entry equal to [v], [total()] is the
    total of the underlying set minus [v], [card()] is its cardinality
    minus one, and [operator[](i)] returns [s[i]] for [i < p] and [s[i+1]]
    for [i >= p]. *)
Theorem minus_consistent (n_max : Z) (l vs : list Z) (v : Z)
    (x0 : SizeSetMinusOne.SizeSetMinusOne) (fuel : nat) :
  SizeSetMinusOne.of_list n_max l = Ret x0 →
  descending l → nonneg l →
  descending (vs ++ [v]) → vs ++ [v] ⊆+ l →
  (length l ≤ fuel)%nat →
  ∃ x, SizeSetMinusOne.minus_all fuel (vs ++ [v]) x0 = Ret x ∧
    SizeSetMinusOne.base x = SizeSetMinusOne.base x0 ∧
    SizeSet.total (SizeSetMinusOne.base x) = Ret (sumZ l) ∧
    SizeSet.card (SizeSetMinusOne.base x) = Ret (Z.of_nat (length l)) ∧
    0 ≤ SizeSetMinusOne.p x < Z.of_nat (length l) ∧
    SizeSet.get (SizeSetMinusOne.base x) (SizeSetMinusOne.p x) = Ret v ∧
    SizeSetMinusOne.total x = Ret (sumZ l - v) ∧
    SizeSetMinusOne.card x = Ret (Z.of_nat (length l) - 1) ∧
    ∀ i, 0 ≤ i < Z.of_nat (length l) - 1 →
      ∃ y, SizeSetMinusOne.get x i = Ret y ∧
           SizeSet.get (SizeSetMinusOne.base x)
             (if bool_decide (i < SizeSetMinusOne.p x) then i else i + 1)
           = Ret y.
Proof.
  intros Hbuilt Hd Hn Hvs Hsub Hf.
  apply (minus_one_of_list_from (SizeSetMinusOne.create n_max) [] l x0
           (filled_create n_max)) in Hbuilt as [Hb Hp0].
  simpl in Hb, Hp0.
  apply descending_desc in Hd, Hvs.
  pose proof (desc_submseteq_sublist _ _ Hvs Hd Hsub) as Hsl.
  destruct (minus_all_run (SizeSetMinusOne.base x0) l Hb Hd Hn fuel vs v x0
              eq_refl ltac:(lia)) as (x & Hrun & Hbase & Hp & Hv).
  { by rewrite Hp0. }
  { done. }
  exists x. split; [done|]. split; [done|].
  rewrite <-Hbase in Hb. pose proof Hb as (Hcnt & Htot & _).
  pose proof (minus_represents x l v Hb Hn ltac:(lia) Hv) as Hrep.
  assert (length (delete (Z.to_nat (SizeSetMinusOne.p x)) l)
          = (length l - 1)%nat) as Hlen.
  { rewrite length_delete; [done|by eexists]. }
  split; [by unfold SizeSet.total; rewrite Htot|].
  split; [by unfold SizeSet.card; rewrite Hcnt|].
  split; [done|]. split; [by apply (filled_get _ l); [|lia|]|].
  split.
  { pose proof (repr_total _ _ Hrep) as Ht. simpl in Ht.
    by rewrite (sumZ_delete _ _ _ Hv) in Ht. }
  split.
  { pose proof (repr_card _ _ Hrep) as Hc. simpl in Hc.
    rewrite Hc, Hlen. f_equal. lia. }
  intros i Hi.
  destruct (lookupZ (delete (Z.to_nat (SizeSetMinusOne.p x)) l) i) as [y Hy].
  { rewrite Hlen. lia. }
  exists y. split; [by apply (repr_in _ _ Hrep); [lia|]|].
  case_bool_decide.
  - rewrite list_lookup_delete_lt in Hy by lia. by apply (filled_get _ l); [|lia|].
  - rewrite list_lookup_delete_ge in Hy by lia.
    apply (filled_get _ l); [done|lia|].
    by replace (Z.to_nat (i + 1)) with (S (Z.to_nat i)) by lia.
Qed.

(** The multiplicity counts: 5 occurs once among the sizes 5, 3, so a
    second [minus(5)] leaves the cursor on the entry 3 and [total()] is
    8 - 3. *)
Lemma minus_beyond_multiplicity :
  (x ← SizeSetMinusOne.of_list 2 [5; 3];
   y ← SizeSetMinusOne.minus_all 2 [5; 5] x;
   t ← SizeSetMinusOne.total y;
   Ret (SizeSetMinusOne.p y, t))
  = Ret (1, 8 - 3).
Proof. reflexivity. Qed.

Lemma minus_consistent_witness :
  ∃ x, SizeSetMinusOne.minus_all 4 ([3] ++ [3]) sizes_5331 = Ret x ∧
       SizeSetMinusOne.total x = Ret (sumZ [5; 3; 3; 1] - 3) ∧
       SizeSetMinusOne.card x = Ret (Z.of_nat (length [5; 3; 3; 1]) - 1).
Proof.
  destruct (minus_consistent 4 [5; 3; 3; 1] [3] 3 sizes_5331 4)
    as (x & Hx & _ & _ & _ & _ & _ & Ht & Hc & _).
  - reflexivity.
  - repeat constructor; lia.
  - repeat constructor; lia.
  - repeat constructor; lia.
  - apply sublist_submseteq.
    apply sublist_cons, sublist_skip, sublist_skip, sublist_cons, sublist_nil.
  - simpl. lia.
  - exists x. split; [exact Hx|]. split; [exact Ht|exact Hc].
Defined.

(** ** Ceiling division *)

Lemma ceil_div_pp_Ret x y v :
  ceil_div_pp x y = Ret v →
  0 ≤ x ∧ 0 < y ∧ y * (v - 1) < x ≤ y * v.
Proof.
  unfold ceil_div_pp, assert.
  destruct (bool_decide (0 ≤ x)) eqn:Hx; [|done].
  destruct (bool_decide (0 ≤ y)) eqn:Hy; [|done].
  apply bool_decide_eq_true_1 in Hx, Hy. cbn [andb mbind res_mbind res_bind].
  case_bool_decide as Hy0; [done|]. intros [= <-].
  rewrite Z.quot_div_nonneg by lia.
  pose proof (Z.div_mod (x + y - 1) y ltac:(lia)).
  pose proof (Z.mod_pos_bound (x + y - 1) y ltac:(lia)). nia.
Qed.

Lemma ceil_div_pp_no_fuel x y : ceil_div_pp x y ≠ OutOfFuel.
Proof.
  unfold ceil_div_pp, assert.
  destruct (bool_decide (0 ≤ x) && bool_decide (0 ≤ y)); [|done].
  cbn [mbind res_mbind res_bind]. by case_bool_decide.
Qed.

(** ** sanitizeLambdaRange *)


(** C7 (sanitization safety) at nNotZeroWeights = 5, maxWeight = 2^30 and
    the range [1, 100]: the product 5 * 2^30 that the function forms first
    does not fit an int.  Where the multiplication wraps around, the
    function goes on with 2^30 in place of the product and returns the
    range [1, 1], although 5 * 2^30 * 1 is above the largest int. *)
Theorem sanitizeLambdaRange_product_overflow :
  sanitizeLambdaRange (LambdaRange.mk 1 100) 5 (2 ^ 30) = Fault Overflow ∧
  sanitizeLambdaRange_wrapping (LambdaRange.mk 1 100) 5 (2 ^ 30)
    = Ret (LambdaRange.mk 1 1) ∧
  int_max < 5 * 2 ^ 30 * 1.
Proof. by vm_compute. Qed.

(** ** Runs that do not depend on the budget *)

Lemma halts_bind {A B} (m : res A) (k : A → res B) :
  halts m → (∀ x, halts (k x)) → halts (m ≫= k).
Proof. intros Hm Hk. destruct m; [apply Hk|done|done]. Qed.

Lemma halts_chk z : halts (chk z).
Proof. unfold halts, chk. by case_bool_decide. Qed.

Lemma halts_idiv x y : halts (idiv x y).
Proof. unfold idiv. case_bool_decide; [done|apply halts_chk]. Qed.

Lemma halts_imod x y : halts (imod x y).
Proof.
  unfold imod. case_bool_decide; [done|].
  apply halts_bind; [apply halts_chk|done].
Qed.

Lemma halts_ceil_div_pp x y : halts (ceil_div_pp x y).
Proof. apply ceil_div_pp_no_fuel. Qed.

Ltac halts_step :=
  first
    [ apply halts_chk | apply halts_idiv | apply halts_imod
    | apply halts_ceil_div_pp
    | apply halts_bind; [|intros ?]
    | case_bool_decide
    | done ].

Ltac halts_tac := unfold dot2, dot3, iadd, isub, imul; repeat halts_step.

Lemma fCCM1_halts w l c : halts (fCCM1 w l c).
Proof. unfold fCCM1. halts_tac. Qed.

Lemma fMT_halts w l c : halts (fMT w l c).
Proof. unfold fMT. halts_tac. Qed.

Lemma fBJ1_halts w l c : halts (fBJ1 w l c).
Proof. unfold fBJ1. halts_tac. Qed.

Lemma fVB2Base_halts w l c : halts (fVB2Base w l c).
Proof. unfold fVB2Base. halts_tac. Qed.

Lemma fVB2_halts w l c : halts (fVB2 w l c).
Proof.
  unfold fVB2. pose proof fVB2Base_halts.
  unfold dot3, iadd, isub, imul. repeat (halts_step || apply fVB2Base_halts).
Qed.

Lemma fFS1_halts w l c : halts (fFS1 w l c).
Proof. unfold fFS1. halts_tac. Qed.

Lemma fRAD2Base_halts w l c : halts (fRAD2Base w l c).
Proof. unfold fRAD2Base. halts_tac. Qed.

Lemma fRAD2_halts w l c : halts (fRAD2 w l c).
Proof.
  unfold fRAD2, dot2, iadd, isub, imul.
  repeat (halts_step || apply fRAD2Base_halts).
Qed.

(** ** The sampling loop of calcDffLowerbound *)

Lemma foldl_max_spec acc bs :
  acc ≤ foldl Z.max acc bs ∧
  Forall (λ b, b ≤ foldl Z.max acc bs) bs ∧
  (foldl Z.max acc bs = acc ∨ foldl Z.max acc bs ∈ bs).
Proof.
  revert acc. induction bs as [|b bs IH]; intros acc; simpl.
  - split; [lia|]. split; [constructor|by left].
  - destruct (IH (acc `max` b)) as (Hle & Hall & Hin).
    split; [lia|]. split; [constructor; [lia|done]|].
    destruct Hin as [Heq|Hin].
    + destruct (Z.max_spec acc b) as [[? Hm]|[? Hm]].
      * right. rewrite Heq, Hm. by left.
      * left. by rewrite Heq, Hm.
    + right. by right.
Qed.

Section dff_proof.
Variable nLambdaSamples : Z.
Variable f : Z → Z → Z → res Z.
Variable l : Z → LambdaRange.
Hypothesis Hf : ∀ w lam c, halts (f w lam c).

Lemma single_halts weights capacity lambda :
  halts (calcDffLowerboundSingleLambda f weights capacity lambda).
Proof using Hf.
  unfold calcDffLowerboundSingleLambda. apply halts_bind.
  - assert (halts (Ret 0 : res Z)) as Hacc by done. revert Hacc.
    generalize (Ret 0 : res Z).
    induction weights as [|w ws IH]; intros acc Hacc; simpl; [done|].
    apply IH. apply halts_bind; [done|intros ?].
    apply halts_bind; [apply Hf|intros ?]. apply halts_chk.
  - intros ?. apply halts_bind; [apply Hf|intros ?].
    apply halts_ceil_div_pp.
Qed.

Lemma sum_transformed_fault weights capacity lambda (m : res Z) :
  (∀ sum, m ≠ Ret sum) →
  ∀ sum, foldl (λ acc w, sum ← acc; v ← f w lambda capacity; iadd sum v)
               m weights ≠ Ret sum.
Proof.
  revert m. induction weights as [|w ws IH]; intros m Hm sum; simpl; [done|].
  apply IH. intros sum'. destruct m as [x| |]; [by destruct (Hm x)|done..].
Qed.

Lemma sum_transformed_Ret weights capacity lambda acc sum :
  foldl (λ acc w, sum ← acc; v ← f w lambda capacity; iadd sum v)
        (Ret acc) weights = Ret sum →
  ∃ vs, Forall2 (λ w v, f w lambda capacity = Ret v) weights vs ∧
        sum = acc + sumZ vs.
Proof.
  revert acc. induction weights as [|w ws IH]; intros acc; simpl.
  - intros [= <-]. exists []. split; [constructor|simpl; lia].
  - cbn [mbind res_mbind res_bind].
    destruct (f w lambda capacity) as [v| |] eqn:Hv;
      cbn [mbind res_mbind res_bind]; unfold iadd.
    + destruct (chk (acc + v)) as [acc'| |] eqn:Hacc.
      * apply chk_Ret in Hacc as [-> _]. intros (vs & Hvs & ->)%IH.
        exists (v :: vs). split; [by constructor|simpl; lia].
      * intros Hrun. by apply sum_transformed_fault in Hrun.
      * by apply halts_chk in Hacc.
    + intros Hrun. by apply sum_transformed_fault in Hrun.
    + intros Hrun. by apply sum_transformed_fault in Hrun.
Qed.

(** What calcDffLowerboundSingleLambda returns is the ceiling of the sum
    of the transformed weights over the transformed capacity. *)
Lemma single_bound weights capacity lambda b :
  calcDffLowerboundSingleLambda f weights capacity lambda = Ret b →
  per_lambda_bound f weights capacity lambda b.
Proof.
  unfold calcDffLowerboundSingleLambda.
  intros (sum & (vs & Hvs & ->)%sum_transformed_Ret & Hrun)%bind_Ret.
  apply bind_Ret in Hrun as (tc & Htc & (? & ? & ?)%ceil_div_pp_Ret).
  exists vs, tc. split; [done|]. split; [done|]. lia.
Qed.

Lemma single_nonneg weights capacity lambda v :
  calcDffLowerboundSingleLambda f weights capacity lambda = Ret v → 0 ≤ v.
Proof.
  unfold calcDffLowerboundSingleLambda.
  destruct (foldl _ _ _) as [sum| |]; [|done..].
  cbn [mbind res_mbind res_bind].
  destruct (f capacity lambda capacity) as [tc| |]; [|done..].
  cbn [mbind res_mbind res_bind]. intros Hv%ceil_div_pp_Ret. nia.
Qed.

(** The loop started at [lambda] evaluates [lambda], [lambda + lStep],
    ... as long as they are below [rmax], and keeps the maximum. *)
Lemma dff_loop_run fuel weights capacity rmax lStep lambda acc :
  1 ≤ lStep → (Z.to_nat (rmax - lambda) < fuel)%nat →
  halts (dff_loop f fuel weights capacity rmax lStep lambda acc) ∧
  ∀ v, dff_loop f fuel weights capacity rmax lStep lambda acc = Ret v →
    ∃ bs : list Z,
      (∀ (j : nat) bj, bs !! j = Some bj →
         lambda + Z.of_nat j * lStep < rmax ∧
         calcDffLowerboundSingleLambda f weights capacity
           (lambda + Z.of_nat j * lStep) = Ret bj) ∧
      rmax ≤ lambda + Z.of_nat (length bs) * lStep ∧
      v = foldl Z.max acc bs.
Proof using Hf.
  intros Hstep. revert lambda acc.
  induction fuel as [|fuel IH]; intros lambda acc Hfuel; [lia|].
  cbn [dff_loop]. case_bool_decide as Hlt.
  - pose proof (single_halts weights capacity lambda) as Hs.
    destruct (calcDffLowerboundSingleLambda f weights capacity lambda)
      as [b| |] eqn:Hb; [|by split|done].
    cbn [mbind res_mbind res_bind]. unfold iadd.
    destruct (chk (lambda + lStep)) as [lambda'| |] eqn:Hl;
      [|by split|by apply halts_chk in Hl].
    apply chk_Ret in Hl as [-> _]. cbn [mbind res_mbind res_bind].
    destruct (IH (lambda + lStep) (acc `max` b) ltac:(lia)) as [Hh Hv].
    split; [done|]. intros v Hrun.
    destruct (Hv v Hrun) as (bs & Hbs & Hend & ->).
    exists (b :: bs). split; [|split].
    + intros [|j] bj Hj; simpl in Hj.
      * injection Hj as <-. rewrite Z.add_0_r. done.
      * destruct (Hbs j bj Hj) as [? Hsj].
        replace (lambda + Z.of_nat (S j) * lStep)
          with (lambda + lStep + Z.of_nat j * lStep) by lia. done.
    + simpl. lia.
    + done.
  - split; [done|]. intros v [= <-]. exists []. split; [|split].
    + intros j bj Hj. done.
    + simpl. lia.
    + done.
Qed.
End dff_proof.

Lemma halts_sanitizeLambdaRange r n mw : halts (sanitizeLambdaRange r n mw).
Proof. unfold sanitizeLambdaRange. halts_tac. Qed.

Lemma dff_step_Ret nLambdaSamples (r : LambdaRange) lStep :
  dff_step nLambdaSamples r = Ret lStep →
  0 ≤ lStep ∧
  (lStep = 0 → LambdaRange.max r < LambdaRange.min r) ∧
  (1 ≤ lStep → LambdaRange.min r ≤ LambdaRange.max r).
Proof.
  unfold dff_step, isub, iadd.
  destruct (chk (LambdaRange.max r - LambdaRange.min r)) as [d| |] eqn:Hd;
    [|done..].
  apply chk_Ret in Hd as [-> _]. cbn [mbind res_mbind res_bind].
  destruct (chk (LambdaRange.max r - LambdaRange.min r + 1)) as [d1| |]
    eqn:Hd1; [|done..].
  apply chk_Ret in Hd1 as [-> _]. cbn [mbind res_mbind res_bind].
  destruct (chk (nLambdaSamples + 1)) as [m| |] eqn:Hm; [|done..].
  apply chk_Ret in Hm as [-> _]. cbn [mbind res_mbind res_bind].
  intros (? & ? & ? & ?)%ceil_div_pp_Ret. nia.
Qed.

Lemma halts_dff_step nLambdaSamples r : halts (dff_step nLambdaSamples r).
Proof. unfold dff_step. halts_tac. Qed.

Section dff_sampling.
Variable nLambdaSamples : Z.
Variable f : Z → Z → Z → res Z.
Variable l : Z → LambdaRange.

(** What a run of calcDffLowerbound can return.  For a transform [f]
    that runs without loops and any input: with enough budget for its
    loop the run does not exhaust it, and a value [v] that is returned is
    the maximum of the bounds of calcDffLowerboundSingleLambda at
    [min + lStep], [min + 2 lStep], ..., the points of that progression
    strictly between the ends of the range; it is 0 when there is no
    such point. *)
Lemma calcDffLowerbound_returned (weights : list Z)
    (capacity nNotZeroWeights maxWeight : Z) (sanitize : bool) :
  (∀ w lam c, halts (f w lam c)) →
  ∃ fuel0 : nat, ∀ fuel : nat, (fuel0 ≤ fuel)%nat →
    halts (calcDffLowerbound nLambdaSamples f l fuel weights capacity
             nNotZeroWeights maxWeight sanitize) ∧
    ∀ v, calcDffLowerbound nLambdaSamples f l fuel weights capacity
           nNotZeroWeights maxWeight sanitize = Ret v →
      ∃ (r : LambdaRange) (lStep : Z) (bs : list Z),
        dff_range l capacity nNotZeroWeights maxWeight sanitize = Ret r ∧
        dff_step nLambdaSamples r = Ret lStep ∧
        (∀ (j : nat) bj, bs !! j = Some bj →
           LambdaRange.min r
             < LambdaRange.min r + (Z.of_nat j + 1) * lStep
             < LambdaRange.max r ∧
           calcDffLowerboundSingleLambda f weights capacity
             (LambdaRange.min r + (Z.of_nat j + 1) * lStep) = Ret bj ∧
           per_lambda_bound f weights capacity
             (LambdaRange.min r + (Z.of_nat j + 1) * lStep) bj) ∧
        LambdaRange.max r
          ≤ LambdaRange.min r + (Z.of_nat (length bs) + 1) * lStep ∧
        v = foldl Z.max 0 bs ∧
        (bs = [] → v = 0) ∧
        (bs ≠ [] → v ∈ bs) ∧
        Forall (λ b, b ≤ v) bs.
Proof.
  intros Hf. unfold calcDffLowerbound.
  destruct (dff_range l capacity nNotZeroWeights maxWeight sanitize)
    as [r| |] eqn:Hr; cbn [mbind res_mbind res_bind].
  2: { exists 0%nat. intros fuel _. by split. }
  2: { exfalso. unfold dff_range in Hr. destruct sanitize; [|done].
       by apply halts_sanitizeLambdaRange in Hr. }
  destruct (dff_step nLambdaSamples r) as [lStep| |] eqn:Hs;
    cbn [mbind res_mbind res_bind].
  2: { exists 0%nat. intros fuel _. by split. }
  2: { by apply halts_dff_step in Hs. }
  pose proof (dff_step_Ret _ _ _ Hs) as (Hs0 & Hzero & Hpos).
  unfold iadd.
  destruct (chk (LambdaRange.min r + lStep)) as [lambda| |] eqn:Hl;
    cbn [mbind res_mbind res_bind].
  2: { exists 0%nat. intros fuel _. by split. }
  2: { by apply halts_chk in Hl. }
  apply chk_Ret in Hl as [-> _].
  destruct (decide (lStep = 0)) as [->|Hnz].
  - exists 1%nat. intros [|fuel] Hfuel; [lia|]. cbn [dff_loop].
    rewrite bool_decide_eq_false_2 by lia. split; [done|].
    intros v [= <-]. exists r, 0, []. split; [done|]. split; [done|].
    split; [done|]. split; [simpl; lia|]. split; [done|].
    split; [done|]. split; [done|constructor].
  - exists (S (Z.to_nat (LambdaRange.max r - (LambdaRange.min r + lStep)))).
    intros fuel Hfuel.
    destruct (dff_loop_run f Hf fuel weights capacity (LambdaRange.max r)
                lStep (LambdaRange.min r + lStep) 0 ltac:(lia) ltac:(lia))
      as [Hh Hv].
    split; [done|]. intros v Hrun.
    destruct (Hv v Hrun) as (bs & Hbs & Hend & ->).
    exists r, lStep, bs. split; [done|]. split; [done|].
    destruct (foldl_max_spec 0 bs) as (Hle & Hall & Hin).
    assert (Forall (λ b, 0 ≤ b) bs) as Hnn.
    { apply Forall_lookup. intros j bj Hj.
      destruct (Hbs j bj Hj) as [_ Hsj]. by eapply single_nonneg. }
    split; [|split; [lia|]]; [|split; [done|]]; [|split; [by intros ->|]];
      [|split; [|done]].
    + intros j bj Hj. destruct (Hbs j bj Hj) as [? Hsj].
      replace (LambdaRange.min r + (Z.of_nat j + 1) * lStep)
        with (LambdaRange.min r + lStep + Z.of_nat j * lStep) by lia.
      split; [nia|]. split; [done|by apply single_bound].
    + intros Hne. destruct Hin as [Heq|Hin]; [|done].
      destruct bs as [|b bs]; [done|]. rewrite Heq.
      apply Forall_cons in Hall as [Hb _].
      apply Forall_cons in Hnn as [Hb0 _].
      replace 0 with b by lia. by left.
Qed.
End dff_sampling.

(** ** Runs of calcDffLowerbound that return *)

Lemma transformed_nonneg (f : Z → Z → Z → res Z) weights vs c lam :
  Forall2 (λ w v, f w lam c = Ret v ∧ 0 ≤ v) weights vs → 0 ≤ sumZ vs.
Proof. induction 1 as [|???? [_ ?] _ IH]; simpl; lia. Qed.

Lemma sum_transformed_run (f : Z → Z → Z → res Z) weights vs c lam acc :
  Forall2 (λ w v, f w lam c = Ret v ∧ 0 ≤ v) weights vs →
  0 ≤ acc → acc + sumZ vs ≤ int_max →
  foldl (λ acc w, sum ← acc; v ← f w lam c; iadd sum v) (Ret acc) weights
  = Ret (acc + sumZ vs).
Proof.
  intros Hvs. revert acc.
  induction Hvs as [|w v ws vs [Hv Hv0] Hvs IH]; intros acc Hacc Hsum; simpl.
  - f_equal. lia.
  - simpl in Hsum. pose proof (transformed_nonneg _ _ _ _ _ Hvs).
    rewrite Hv. cbn [mbind res_mbind res_bind]. unfold iadd.
    rewrite chk_ok by int_ok. rewrite IH by lia. f_equal. lia.
Qed.

(** Where the transform is defined, calcDffLowerboundSingleLambda returns
    the ceiling of the sum of the transformed weights over the transformed
    capacity. *)
Lemma single_returns (f : Z → Z → Z → res Z) weights c lam :
  transform_defined f weights c lam →
  ∃ b, calcDffLowerboundSingleLambda f weights c lam = Ret b ∧
       per_lambda_bound f weights c lam b.
Proof.
  intros (vs & tc & Hvs & Hsum & Htc & Htc0).
  pose proof (transformed_nonneg _ _ _ _ _ Hvs).
  unfold calcDffLowerboundSingleLambda.
  rewrite (sum_transformed_run f weights vs c lam 0 Hvs) by lia.
  cbn [mbind res_mbind res_bind]. rewrite Htc.
  cbn [mbind res_mbind res_bind]. rewrite Z.add_0_l.
  destruct (ceil_div_pp (sumZ vs) tc) as [b| |] eqn:Hb.
  - exists b. split; [done|]. exists vs, tc.
    apply ceil_div_pp_Ret in Hb as (_ & _ & Hb).
    split; [|split; [done|lia]].
    eapply Forall2_impl; [exact Hvs|]. by intros w v [? _].
  - exfalso. unfold ceil_div_pp, assert in Hb.
    rewrite (bool_decide_eq_true_2 (0 ≤ sumZ vs)) in Hb by lia.
    rewrite (bool_decide_eq_true_2 (0 ≤ tc)) in Hb by lia.
    cbn [andb mbind res_mbind res_bind] in Hb.
    by rewrite (bool_decide_eq_false_2 (tc = 0)) in Hb by lia.
  - by apply ceil_div_pp_no_fuel in Hb.
Qed.

(** With a product that is an int, sanitizeLambdaRange returns the range
    written out in [sampled_range]. *)
Lemma dff_range_returns (l : Z → LambdaRange) capacity n mw sanitize :
  (sanitize = true → in_int (n * mw)) →
  dff_range l capacity n mw sanitize
  = Ret (sampled_range l capacity n mw sanitize).
Proof.
  intros Hprod. unfold dff_range, sampled_range.
  destruct sanitize; [|done]. specialize (Hprod eq_refl).
  unfold sanitizeLambdaRange, imul. rewrite (chk_ok _ Hprod).
  cbn [mbind res_mbind res_bind].
  destruct (decide (n * mw = 0)) as [Hz|Hnz].
  - rewrite (bool_decide_eq_false_2 (n * mw ≠ 0)) by auto.
    by rewrite (bool_decide_eq_true_2 (n * mw = 0)).
  - rewrite (bool_decide_eq_true_2 (n * mw ≠ 0)) by done.
    rewrite (bool_decide_eq_false_2 (n * mw = 0)) by done.
    unfold idiv. rewrite (bool_decide_eq_false_2 (n * mw = 0)) by done.
    rewrite chk_ok; [done|].
    pose proof int_range. unfold in_int. Z.quot_rem_to_equations. nia.
Qed.

(** The step is the ceiling of the width of the range over the number of
    samples plus one. *)
Lemma dff_step_returns nLambdaSamples (r : LambdaRange) (lStep : Z) :
  0 ≤ nLambdaSamples < int_max →
  int_min ≤ LambdaRange.min r → LambdaRange.max r ≤ int_max →
  LambdaRange.min r - 1 ≤ LambdaRange.max r →
  LambdaRange.max r - LambdaRange.min r < int_max →
  (nLambdaSamples + 1) * (lStep - 1)
    < LambdaRange.max r - LambdaRange.min r + 1
    ≤ (nLambdaSamples + 1) * lStep →
  dff_step nLambdaSamples r = Ret lStep.
Proof.
  intros Hn Hlo Hhi Hinv Hw Hceil. pose proof int_range.
  unfold dff_step, isub, iadd.
  rewrite (chk_ok (LambdaRange.max r - LambdaRange.min r)) by int_ok.
  cbn [mbind res_mbind res_bind].
  rewrite (chk_ok (LambdaRange.max r - LambdaRange.min r + 1)) by int_ok.
  cbn [mbind res_mbind res_bind].
  rewrite (chk_ok (nLambdaSamples + 1)) by int_ok.
  cbn [mbind res_mbind res_bind]. unfold ceil_div_pp, assert.
  rewrite (bool_decide_eq_true_2
             (0 ≤ LambdaRange.max r - LambdaRange.min r + 1)) by lia.
  rewrite (bool_decide_eq_true_2 (0 ≤ nLambdaSamples + 1)) by lia.
  cbn [andb mbind res_mbind res_bind].
  rewrite (bool_decide_eq_false_2 (nLambdaSamples + 1 = 0)) by lia.
  f_equal. Z.quot_rem_to_equations. nia.
Qed.

Section dff_total.
Variable nLambdaSamples : Z.
Variable f : Z → Z → Z → res Z.
Variable l : Z → LambdaRange.

(** The loop started at [lambda] with a positive step: it evaluates
    [lambda], [lambda + lStep], ... as long as they are below [rmax] and
    returns the maximum of [acc] and the bounds found. *)
Lemma dff_loop_returns fuel weights capacity rmax lStep lambda acc :
  1 ≤ lStep → int_min ≤ lambda → rmax + lStep ≤ int_max →
  (Z.to_nat (rmax - lambda) < fuel)%nat →
  (∀ j : nat, lambda + Z.of_nat j * lStep < rmax →
     transform_defined f weights capacity (lambda + Z.of_nat j * lStep)) →
  ∃ bs : list Z,
    dff_loop f fuel weights capacity rmax lStep lambda acc
      = Ret (foldl Z.max acc bs) ∧
    (∀ (j : nat) bj, bs !! j = Some bj →
       lambda + Z.of_nat j * lStep < rmax ∧ 0 ≤ bj ∧
       per_lambda_bound f weights capacity (lambda + Z.of_nat j * lStep) bj) ∧
    rmax ≤ lambda + Z.of_nat (length bs) * lStep.
Proof.
  intros Hstep. revert lambda acc.
  induction fuel as [|fuel IH]; intros lambda acc Hlo Hhi Hfuel Hdef; [lia|].
  cbn [dff_loop]. case_bool_decide as Hlt.
  - destruct (single_returns f weights capacity lambda) as (b & Hb & Hbound).
    { specialize (Hdef 0%nat). rewrite Z.add_0_r in Hdef. by apply Hdef. }
    rewrite Hb. cbn [mbind res_mbind res_bind]. unfold iadd.
    rewrite chk_ok by int_ok. cbn [mbind res_mbind res_bind].
    destruct (IH (lambda + lStep) (acc `max` b)) as (bs & Hrun & Hbs & Hend);
      [lia|lia|lia| |].
    { intros j Hj.
      replace (lambda + lStep + Z.of_nat j * lStep)
        with (lambda + Z.of_nat (S j) * lStep) in * by lia.
      by apply Hdef. }
    exists (b :: bs). split; [done|]. split.
    + intros [|j] bj Hj; simpl in Hj.
      * injection Hj as <-. rewrite Z.add_0_r.
        split; [done|]. split; [by eapply single_nonneg|done].
      * destruct (Hbs j bj Hj) as [? ?].
        replace (lambda + Z.of_nat (S j) * lStep)
          with (lambda + lStep + Z.of_nat j * lStep) by lia. done.
    + simpl length. lia.
  - exists []. split; [done|]. split; [done|]. simpl. lia.
Qed.

(** X14 (the sampling of calcDffLowerbound as a whole).  Take the range [r]
    that is to be sampled ([sampled_range]), not inverted by more than
    one position, and the step [lStep], the ceiling of its width over
    [nLambdaSamples + 1].  When the product looked at by the
    sanitization, the bounds of the range and the lambdas that are stepped
    through are ints, and the transform is defined at the lambdas
    [min + lStep], [min + 2 lStep], ... that are below [max], the call
    returns: it evaluates exactly these lambdas, which are at most
    [nLambdaSamples] and all strictly inside the range, takes at each the
    ceiling of the sum of the transformed weights over the transformed
    capacity, and returns the maximum of these bounds, which is 0 when no
    lambda is evaluated. *)
Lemma calcDffLowerbound_returns_max (weights : list Z)
    (capacity n mw : Z) (sanitize : bool) (r : LambdaRange) (lStep : Z)
    (fuel : nat) :
  r = sampled_range l capacity n mw sanitize →
  0 ≤ nLambdaSamples < int_max →
  (sanitize = true → in_int (n * mw)) →
  in_int (LambdaRange.min r) →
  LambdaRange.min r - 1 ≤ LambdaRange.max r →
  LambdaRange.max r - LambdaRange.min r < int_max →
  (nLambdaSamples + 1) * (lStep - 1)
    < LambdaRange.max r - LambdaRange.min r + 1
    ≤ (nLambdaSamples + 1) * lStep →
  LambdaRange.max r + lStep ≤ int_max →
  (∀ j : nat,
     LambdaRange.min r + (Z.of_nat j + 1) * lStep < LambdaRange.max r →
     transform_defined f weights capacity
       (LambdaRange.min r + (Z.of_nat j + 1) * lStep)) →
  (Z.to_nat (LambdaRange.max r - LambdaRange.min r) < fuel)%nat →
  ∃ bs : list Z,
    calcDffLowerbound nLambdaSamples f l fuel weights capacity n mw sanitize
      = Ret (foldl Z.max 0 bs) ∧
    (Z.of_nat (length bs) ≤ nLambdaSamples) ∧
    (∀ (j : nat) bj, bs !! j = Some bj →
       LambdaRange.min r
         < LambdaRange.min r + (Z.of_nat j + 1) * lStep
         < LambdaRange.max r ∧
       per_lambda_bound f weights capacity
         (LambdaRange.min r + (Z.of_nat j + 1) * lStep) bj) ∧
    LambdaRange.max r
      ≤ LambdaRange.min r + (Z.of_nat (length bs) + 1) * lStep ∧
    (bs = [] → foldl Z.max 0 bs = 0) ∧
    (bs ≠ [] → foldl Z.max 0 bs ∈ bs) ∧
    Forall (λ b, b ≤ foldl Z.max 0 bs) bs.
Proof.
  intros Hr Hn Hprod [Hlo Hlo'] Hinv Hw Hceil Hhi Hdef Hfuel.
  pose proof int_range. assert (0 ≤ lStep) by nia.
  unfold calcDffLowerbound.
  rewrite (dff_range_returns l capacity n mw sanitize Hprod), <-Hr.
  cbn [mbind res_mbind res_bind].
  rewrite (dff_step_returns nLambdaSamples r lStep Hn Hlo) by lia.
  cbn [mbind res_mbind res_bind].
  destruct (decide (lStep = 0)) as [->|Hnz].
  - unfold iadd. rewrite chk_ok by int_ok. cbn [mbind res_mbind res_bind].
    destruct fuel as [|fuel]; [lia|]. cbn [dff_loop].
    rewrite bool_decide_eq_false_2 by lia.
    exists []. split; [done|]. split; [simpl; lia|]. split; [done|].
    split; [simpl; lia|]. split; [done|]. split; [done|constructor].
  - assert (1 ≤ lStep) by nia.
    assert (LambdaRange.min r ≤ LambdaRange.max r) by nia.
    unfold iadd. rewrite chk_ok by int_ok. cbn [mbind res_mbind res_bind].
    destruct (dff_loop_returns fuel weights capacity (LambdaRange.max r)
                lStep (LambdaRange.min r + lStep) 0)
      as (bs & Hrun & Hbs & Hend); [lia|lia|lia|lia| |].
    { intros j Hj.
      replace (LambdaRange.min r + lStep + Z.of_nat j * lStep)
        with (LambdaRange.min r + (Z.of_nat j + 1) * lStep) in * by lia.
      by apply Hdef. }
    exists bs. split; [done|].
    destruct (foldl_max_spec 0 bs) as (Hle & Hall & Hin).
    assert (∀ (j : nat) bj, bs !! j = Some bj →
              LambdaRange.min r + (Z.of_nat j + 1) * lStep
                < LambdaRange.max r ∧ 0 ≤ bj ∧
              per_lambda_bound f weights capacity
                (LambdaRange.min r + (Z.of_nat j + 1) * lStep) bj) as Hbs'.
    { intros j bj Hj. destruct (Hbs j bj Hj) as (? & ? & ?).
      replace (LambdaRange.min r + (Z.of_nat j + 1) * lStep)
        with (LambdaRange.min r + lStep + Z.of_nat j * lStep) by lia. done. }
    split; [|split; [|split; [lia|split; [by intros ->|split; [|done]]]]].
    + destruct bs as [|b0 bs0] eqn:Ebs using rev_ind; [simpl; lia|].
      destruct (Hbs' (length bs0) b0) as (Hlast & _).
      { by rewrite lookup_app_r, Nat.sub_diag by lia. }
      rewrite length_app. simpl length. nia.
    + intros j bj Hj. destruct (Hbs' j bj Hj) as (? & ? & ?).
      split; [nia|done].
    + intros Hne. destruct Hin as [Heq|Hin]; [|done].
      destruct bs as [|b bs]; [done|]. rewrite Heq.
      apply Forall_cons in Hall as [Hb _].
      destruct (Hbs' 0%nat b eq_refl) as (_ & Hb0 & _).
      replace 0 with b by lia. by left.
Qed.

(** A range inverted by more than one position: the width handed to
    ceil_div_pp is negative, which is outside the nonnegative operands
    the ceiling division is for, and the run stops there, whatever the
    transform, the weights and the budget. *)
Lemma calcDffLowerbound_inverted_range (weights : list Z)
    (capacity n mw : Z) (sanitize : bool) (r : LambdaRange) (fuel : nat) :
  r = sampled_range l capacity n mw sanitize →
  0 ≤ nLambdaSamples < int_max →
  (sanitize = true → in_int (n * mw)) →
  in_int (LambdaRange.max r - LambdaRange.min r) →
  LambdaRange.max r + 1 < LambdaRange.min r →
  calcDffLowerbound nLambdaSamples f l fuel weights capacity n mw sanitize
    = Fault AssertFailed.
Proof.
  intros Hr Hn Hprod Hd Hinv. pose proof int_range.
  unfold calcDffLowerbound.
  rewrite (dff_range_returns l capacity n mw sanitize Hprod), <-Hr.
  cbn [mbind res_mbind res_bind]. unfold dff_step, isub, iadd.
  rewrite (chk_ok _ Hd). cbn [mbind res_mbind res_bind].
  unfold in_int in Hd. rewrite chk_ok by int_ok.
  cbn [mbind res_mbind res_bind]. rewrite chk_ok by int_ok.
  cbn [mbind res_mbind res_bind]. unfold ceil_div_pp, assert.
  by rewrite (bool_decide_eq_false_2
                (0 ≤ LambdaRange.max r - LambdaRange.min r + 1)) by lia.
Qed.
End dff_total.

(** Three items of sizes 6, 6, 4 and capacity 10 under MT with ten
    samples: the range [0, 5] is sampled at 1, 2, 3, 4 and the result is
    the bound 2 found there.  Three items of size 6 * 10^8 and capacity
    10^9: the sanitized range is [0, 1], no lambda lies strictly inside
    it and the result is 0. *)
Lemma calcDffLowerbound_returns_max_witness :
  (∃ bs : list Z,
     calcDffLowerbound 10 fMT lMT 6 [6; 6; 4] 10 3 6 true
       = Ret (foldl Z.max 0 bs) ∧
     Z.of_nat (length bs) ≤ 10 ∧
     (∀ (j : nat) bj, bs !! j = Some bj →
        0 < 0 + (Z.of_nat j + 1) * 1 < 5 ∧
        per_lambda_bound fMT [6; 6; 4] 10 (0 + (Z.of_nat j + 1) * 1) bj) ∧
     5 ≤ 0 + (Z.of_nat (length bs) + 1) * 1) ∧
  calcDffLowerbound 10 fMT lMT 6 [6; 6; 4] 10 3 6 true = Ret 2 ∧
  calcDffLowerbound 10 fMT lMT 2
    [600000000; 600000000; 600000000] 1000000000 3 600000000 true = Ret 0.
Proof.
  split; [|split; by vm_compute].
  destruct (calcDffLowerbound_returns_max 10 fMT lMT [6; 6; 4] 10 3 6 true
              (LambdaRange.mk 0 5) 1 6)
    as (bs & Hrun & Hlen & Hbs & Hend & _).
  1: reflexivity.
  1: by vm_compute.
  1: by intros _; vm_compute.
  1: by vm_compute.
  1: simpl; lia.
  1: by vm_compute.
  1: simpl; lia.
  1: by vm_compute.
  2: simpl; lia.
  - cbn [LambdaRange.min LambdaRange.max]. intros j Hj.
    assert (j = 0 ∨ j = 1 ∨ j = 2 ∨ j = 3)%nat as Hc by lia.
    destruct Hc as [->|[->|[->| ->]]]; exists [6; 6; 4], 10.
    all: split;
      [repeat (constructor; [split; [by vm_compute|lia]|]); constructor|].
    all: split; [by vm_compute|]. all: split; [by vm_compute|lia].
  - cbn [LambdaRange.min LambdaRange.max] in Hbs, Hend.
    exists bs. split; [exact Hrun|]. split; [exact Hlen|].
    split; [exact Hbs|exact Hend].
Defined.



(** The same with ten items of weight 30000 and capacity 100000, which
    fit four bins and no fewer.  Without sanitization RAD2 with ten
    samples returns the bound 4; with sanitization the range becomes
    [25001, 7158] and the run stops before any lambda is looked at. *)
Lemma calcDffLowerbound_RAD2_ten_items (nLambdaSamples : Z) (fuel : nat) :
  0 ≤ nLambdaSamples < int_max →
  calcDffLowerbound 10 fRAD2 lRAD2 5000 (replicate 10 30000) 100000
    10 30000 false = Ret 4 ∧
  calcDffLowerbound nLambdaSamples fRAD2 lRAD2 fuel (replicate 10 30000)
    100000 10 30000 true = Fault AssertFailed.
Proof.
  intros Hn. split; [by vm_compute|].
  apply (calcDffLowerbound_inverted_range nLambdaSamples fRAD2 lRAD2
           (replicate 10 30000) 100000 10 30000 true
           (LambdaRange.mk 25001 7158)).
  - reflexivity.
  - done.
  - intros _. by vm_compute.
  - by vm_compute.
  - simpl. lia.
Qed.

(** ** The total size kept by Pack *)

Section pack_proof.
Variables (IntView OffsetView Space : Type).
Variable int_update : Space → IntView → IntView.
Variable offset_update : Space → OffsetView → OffsetView.
Variable offset_subscribe : Space → OffsetView → PropCond → Space.
Variable int_subscribe : Space → IntView → PropCond → Space.

Lemma add_sizes_run t0 (bs0 : list (Item.Item IntView)) :
  0 ≤ t0 → nonneg (sizes bs0) → t0 + sumZ (sizes bs0) ≤ int_max →
  Pack.add_sizes IntView t0 bs0 = Ret (t0 + sumZ (sizes bs0)).
Proof.
  unfold sizes. revert t0.
  induction bs0 as [|i bs0 IH]; intros t0 Ht0 Hnn Hsum; csimpl in *.
  - unfold Pack.add_sizes. simpl. f_equal. lia.
  - apply Forall_cons in Hnn as [Hi Hnn].
    pose proof (sumZ_nonneg _ Hnn).
    unfold Pack.add_sizes in *. simpl. unfold iadd at 2.
    rewrite chk_ok by int_ok. cbn [mbind res_mbind res_bind].
    rewrite IH; [f_equal; lia|lia|done|lia].
Qed.

Lemma sizes_clone home (bs0 : list (Item.Item IntView)) :
  sizes (Item.update int_update home <$> bs0) = sizes bs0.
Proof. unfold sizes. rewrite <-list_fmap_compose. done. Qed.

(** C9 (total-size invariant of Pack).  For items with nonnegative sizes
    whose sum is an int, the constructor returns a propagator over these
    items whose field [t] is the sum of their sizes; the copy
    constructor takes [t] over from its source, and the sizes of the
    copied items still sum to it. *)
Theorem Pack_total_size (home : Space) (l0 : list OffsetView)
    (bs0 : list (Item.Item IntView)) :
  nonneg (sizes bs0) → sumZ (sizes bs0) ≤ int_max →
  ∃ home' p,
    Pack.create IntView OffsetView Space offset_subscribe int_subscribe
      home l0 bs0 = Ret (home', p) ∧
    Pack.bs p = bs0 ∧
    Pack.t p = sumZ (sizes (Pack.bs p)) ∧
    ∀ home2,
      let q := Pack.clone IntView OffsetView Space int_update
                 offset_update home2 p in
      Pack.t q = Pack.t p ∧ Pack.t q = sumZ (sizes (Pack.bs q)).
Proof.
  intros Hnn Hsum. unfold Pack.create.
  rewrite (add_sizes_run 0 bs0 ltac:(lia) Hnn ltac:(lia)).
  cbn [mbind res_mbind res_bind]. eexists _, _. split; [done|]. simpl.
  split; [done|]. split; [done|]. intros home2. split; [done|].
  by rewrite sizes_clone.
Qed.
End pack_proof.

Lemma Pack_total_size_witness :
  ∃ home' p,
    Pack.create unit unit unit (λ h _ _, h) (λ h _ _, h) () [(); ()]
      [Item.mk unit () 4; Item.mk unit () 3; Item.mk unit () 3]
      = Ret (home', p) ∧
    Pack.t p = 10.
Proof.
  destruct (Pack_total_size unit unit unit (λ _ v, v) (λ _ v, v)
              (λ h _ _, h) (λ h _ _, h) () [(); ()]
              [Item.mk unit () 4; Item.mk unit () 3; Item.mk unit () 3])
    as (home' & p & Hrun & Hbs & Ht & _).
  - repeat constructor; simpl; lia.
  - vm_compute. discriminate.
  - exists home', p. split; [exact Hrun|]. rewrite Ht, Hbs. reflexivity.
Defined.

(** ** The six transforms and division by zero *)

Lemma no_dbz_bind_Ret {A B} (m : res A) (k : A → res B) :
  no_dbz m → (∀ x, m = Ret x → no_dbz (k x)) → no_dbz (m ≫= k).
Proof.
  intros Hm Hk. destruct m as [x|e|]; [by apply Hk| |by unfold no_dbz].
  unfold no_dbz in *. cbn. intros [= ->]. done.
Qed.

Lemma no_dbz_bind {A B} (m : res A) (k : A → res B) :
  no_dbz m → (∀ x, no_dbz (k x)) → no_dbz (m ≫= k).
Proof. intros Hm Hk. apply no_dbz_bind_Ret; auto. Qed.

Lemma no_dbz_chk z : no_dbz (chk z).
Proof. unfold no_dbz, chk. by case_bool_decide. Qed.

Lemma no_dbz_idiv x y : y ≠ 0 → no_dbz (idiv x y).
Proof.
  intros. unfold idiv. rewrite bool_decide_eq_false_2 by done.
  apply no_dbz_chk.
Qed.

Lemma no_dbz_imod x y : y ≠ 0 → no_dbz (imod x y).
Proof.
  intros. unfold imod. rewrite bool_decide_eq_false_2 by done.
  apply no_dbz_bind; [apply no_dbz_chk|by intros ?].
Qed.

Lemma no_dbz_ceil_div_pp x y : y ≠ 0 → no_dbz (ceil_div_pp x y).
Proof.
  intros. unfold ceil_div_pp, assert.
  destruct (bool_decide (0 ≤ x) && bool_decide (0 ≤ y)); [|done].
  cbn [mbind res_mbind res_bind]. by rewrite bool_decide_eq_false_2.
Qed.

Ltac no_dbz_step :=
  first
    [ apply no_dbz_chk
    | apply no_dbz_idiv; lia
    | apply no_dbz_imod; lia
    | apply no_dbz_ceil_div_pp; lia
    | apply no_dbz_bind; [|intros ?]
    | case_bool_decide
    | by unfold no_dbz ].

Ltac no_dbz_tac := unfold dot2, dot3, iadd, isub, imul; repeat no_dbz_step.

Lemma fVB2Base_no_dbz w lam c : c ≠ 0 → no_dbz (fVB2Base w lam c).
Proof. intros. unfold fVB2Base. no_dbz_tac. Qed.

Lemma fRAD2Base_no_dbz w lam c : no_dbz (fRAD2Base w lam c).
Proof. unfold fRAD2Base. no_dbz_tac. Qed.

(** With a nonzero lambda, and a nonzero capacity for the two transforms
    that divide by it, no transform divides by zero, whatever the
    weight. *)
Lemma transform_no_dbz t w lam c :
  lam ≠ 0 → (t = VB2 ∨ t = FS1 → c ≠ 0) → no_dbz (transform_f t w lam c).
Proof.
  intros Hlam Hc. destruct t; simpl.
  - unfold fCCM1. no_dbz_tac.
  - unfold fMT. no_dbz_tac.
  - unfold fBJ1. no_dbz_tac.
  - assert (c ≠ 0) by auto. unfold fVB2, dot3, iadd, isub, imul.
    repeat (no_dbz_step || by apply fVB2Base_no_dbz).
  - assert (c ≠ 0) by auto. unfold fFS1. no_dbz_tac.
  - unfold fRAD2, dot2, iadd, isub, imul.
    repeat (no_dbz_step || apply fRAD2Base_no_dbz).
Qed.

(** ** The transformed capacity *)

Lemma idiv_Ret x y v : idiv x y = Ret v → y ≠ 0 ∧ v = x ÷ y.
Proof.
  unfold idiv. case_bool_decide; [done|]. by intros [-> _]%chk_Ret.
Qed.

Lemma imod_Ret x y v : imod x y = Ret v → y ≠ 0 ∧ v = Z.rem x y.
Proof.
  unfold imod. case_bool_decide; [done|].
  destruct (chk (x ÷ y)); [|done..]. by intros [= <-].
Qed.

(** Peels the binds off a run that returned. *)
Ltac inv_run H :=
  unfold iadd, isub, imul in H;
  repeat
    (let x := fresh "x" in
     let Hx := fresh "Hx" in
     apply bind_Ret in H as (x & Hx & H);
     first
       [ apply chk_Ret in Hx as [-> _]
       | apply idiv_Ret in Hx as [? ->]
       | apply imod_Ret in Hx as [? ->]
       | progress inv_run Hx
       | idtac ]);
  first
    [ apply chk_Ret in H as [-> _]
    | apply idiv_Ret in H as [? ->]
    | apply imod_Ret in H as [? ->]
    | injection H as <-
    | idtac ].

Lemma fCCM1_capacity c lam v :
  1 < lam < c ÷ 2 → fCCM1 c lam c = Ret v → 0 < v.
Proof.
  intros Hlam Hrun.
  assert (2 * lam < c) by (Z.quot_rem_to_equations; lia).
  unfold fCCM1 in Hrun. inv_run Hrun.
  rewrite (bool_decide_eq_true_2 (c < 2 * c)) by lia.
  rewrite (bool_decide_eq_false_2 (2 * c = c)) by lia.
  rewrite (bool_decide_eq_false_2 (2 * c < c)) by lia.
  simpl. replace (c - c) with 0 by lia. rewrite Z.quot_0_l by lia.
  assert (1 ≤ c ÷ lam) by (Z.quot_rem_to_equations; nia).
  lia.
Qed.

Lemma fMT_capacity c lam v :
  0 < lam < c ÷ 2 → fMT c lam c = Ret v → 0 < v.
Proof.
  intros Hlam Hrun.
  assert (2 * lam < c) by (Z.quot_rem_to_equations; lia).
  unfold fMT in Hrun.
  rewrite (bool_decide_eq_true_2 (lam ≤ c)) in Hrun by lia.
  inv_run Hrun. repeat case_bool_decide; unfold b2i; lia.
Qed.

Lemma fBJ1_capacity c lam v :
  1 < lam < c → fBJ1 c lam c = Ret v → 0 < v.
Proof.
  intros Hlam Hrun. unfold fBJ1 in Hrun. inv_run Hrun.
  rewrite (bool_decide_eq_true_2 (Z.rem c lam ≤ Z.rem c lam)) by lia.
  rewrite (bool_decide_eq_false_2 (Z.rem c lam < Z.rem c lam)) by lia.
  unfold b2i.
  assert (1 ≤ c ÷ lam ∧ 0 ≤ Z.rem c lam < lam)
    as [??] by (Z.quot_rem_to_equations; nia).
  nia.
Qed.

Lemma fVB2Base_Ret w lam c v :
  fVB2Base w lam c = Ret v →
  0 ≤ lam * w ∧ 0 < c ∧
  ((lam * w = 0 ∧ v = 0) ∨ (0 < lam * w ∧ c * v < lam * w ≤ c * (v + 1))).
Proof.
  intros Hrun. unfold fVB2Base in Hrun.
  apply bind_Ret in Hrun as (lw & [-> _]%chk_Ret & Hrun).
  apply bind_Ret in Hrun as (u & (? & ? & ?)%ceil_div_pp_Ret & Hrun).
  split; [done|]. split; [done|]. case_bool_decide.
  - apply chk_Ret in Hrun as [-> _]. right. split; [nia|].
    replace (u - 1 + 1) with u by lia. lia.
  - injection Hrun as <-. left. split; [nia|done].
Qed.

Lemma fVB2_capacity c lam v :
  2 < lam < c → fVB2 c lam c = Ret v → 0 < v.
Proof.
  intros Hlam Hrun. unfold fVB2 in Hrun.
  apply bind_Ret in Hrun as (tw & [-> _]%chk_Ret & Hrun).
  apply bind_Ret in Hrun as (t0 & Ht0%fVB2Base_Ret & Hrun).
  apply bind_Ret in Hrun as (t1 & Ht1%fVB2Base_Ret & Hrun).
  apply bind_Ret in Hrun as (d & [-> _]%chk_Ret & Hrun).
  apply bind_Ret in Hrun as (t2 & Ht2%fVB2Base_Ret & Hrun).
  inv_run Hrun.
  rewrite (bool_decide_eq_true_2 (c < 2 * c)) by lia.
  rewrite (bool_decide_eq_false_2 (2 * c = c)) by lia.
  rewrite (bool_decide_eq_false_2 (2 * c < c)) by lia.
  unfold b2i.
  assert (t2 = 0) as -> by (destruct Ht2 as (_ & _ & [[_ ->]|[? _]]); lia).
  assert (t0 = lam - 1) as ->
    by (destruct Ht0 as (_ & _ & [[? _]|[_ ?]]); nia).
  lia.
Qed.

Lemma fFS1_capacity c lam v :
  1 < lam < 100 → c ≠ 0 → fFS1 c lam c = Ret v → v ≠ 0.
Proof.
  intros Hlam Hc Hrun. unfold fFS1 in Hrun. inv_run Hrun.
  rewrite (Z.mul_comm c (lam + 1)), Z.rem_mul by done.
  rewrite (bool_decide_eq_true_2 (0 = 0)) by done.
  rewrite (bool_decide_eq_false_2 (0 ≠ 0)) by auto.
  unfold b2i. nia.
Qed.

Lemma fRAD2Base_zero lam c v :
  0 < lam → 2 * lam ≤ c → fRAD2Base 0 lam c = Ret v → v = 0.
Proof.
  intros Hlam Hc Hrun. unfold fRAD2Base in Hrun.
  rewrite (bool_decide_eq_false_2 (lam ≤ 0)) in Hrun by lia.
  apply bind_Ret in Hrun as (c1 & [= <-] & Hrun).
  apply bind_Ret in Hrun as (tl & [-> _]%chk_Ret & Hrun).
  apply bind_Ret in Hrun as (d & [-> _]%chk_Ret & Hrun).
  rewrite (bool_decide_eq_false_2 (c - 2 * lam < 0)) in Hrun by lia.
  apply bind_Ret in Hrun as (c2 & [= <-] & Hrun).
  inv_run Hrun. lia.
Qed.

Lemma fRAD2_capacity c lam v :
  c ÷ 4 + 1 < lam < c ÷ 3 → fRAD2 c lam c = Ret v → 0 < v.
Proof.
  intros Hlam Hrun.
  assert (0 < lam ∧ 3 * lam < c) as [??] by (Z.quot_rem_to_equations; lia).
  unfold fRAD2 in Hrun.
  apply bind_Ret in Hrun as (tl & [-> _]%chk_Ret & Hrun).
  apply bind_Ret in Hrun as (v0 & _ & Hrun).
  apply bind_Ret in Hrun as (d & [-> _]%chk_Ret & Hrun).
  replace (c - c) with 0 in Hrun by lia.
  apply bind_Ret in Hrun as (r & ->%fRAD2Base_zero & Hrun); [|lia..].
  inv_run Hrun.
  rewrite (bool_decide_eq_false_2 (c < 2 * lam)) by lia.
  rewrite (bool_decide_eq_true_2 (2 * lam ≤ c)) by lia.
  unfold b2i. lia.
Qed.

(** For a lambda strictly inside the range of its transform, and a
    nonzero capacity in the case of FS1, the transformed capacity is not
    zero and lambda is positive. *)
Lemma transform_capacity_nonzero t c lam v :
  LambdaRange.min (transform_l t c) < lam < LambdaRange.max (transform_l t c) →
  (t = FS1 → c ≠ 0) →
  transform_f t c lam c = Ret v → v ≠ 0.
Proof.
  intros Hlam Hc Hrun. destruct t; simpl in *.
  - pose proof (fCCM1_capacity c lam v Hlam Hrun). lia.
  - pose proof (fMT_capacity c lam v Hlam Hrun). lia.
  - pose proof (fBJ1_capacity c lam v Hlam Hrun). lia.
  - pose proof (fVB2_capacity c lam v Hlam Hrun). lia.
  - apply (fFS1_capacity c lam v Hlam); auto.
  - pose proof (fRAD2_capacity c lam v Hlam Hrun). lia.
Qed.

Lemma transform_lambda_nonzero t c lam :
  LambdaRange.min (transform_l t c) < lam < LambdaRange.max (transform_l t c) →
  lam ≠ 0 ∧ (t = VB2 → c ≠ 0).
Proof.
  intros Hlam. destruct t; simpl in *; (split; [|try done; lia]);
    try lia; Z.quot_rem_to_equations; lia.
Qed.

(** ** Runs of calcDffLowerbound without division by zero *)

Lemma sanitizeLambdaRange_Ret r n mw r' :
  sanitizeLambdaRange r n mw = Ret r' →
  (LambdaRange.min r' = LambdaRange.min r ∧
   LambdaRange.max r' ≤ LambdaRange.max r) ∨
  r' = LambdaRange.mk 0 (-1).
Proof.
  unfold sanitizeLambdaRange. intros Hrun.
  apply bind_Ret in Hrun as (prod & _ & Hrun). case_bool_decide.
  - apply bind_Ret in Hrun as (prod' & _ & Hrun).
    apply bind_Ret in Hrun as (q & _ & Hrun). injection Hrun as <-.
    left. simpl. lia.
  - injection Hrun as <-. by right.
Qed.

Lemma sanitizeLambdaRange_no_dbz r n mw :
  no_dbz (sanitizeLambdaRange r n mw).
Proof.
  unfold sanitizeLambdaRange, imul.
  apply no_dbz_bind_Ret; [apply no_dbz_chk|]. intros prod [-> _]%chk_Ret.
  case_bool_decide; [|done].
  apply no_dbz_bind_Ret; [apply no_dbz_chk|]. intros prod' [-> _]%chk_Ret.
  apply no_dbz_bind; [by apply no_dbz_idiv|done].
Qed.

Section dff_no_dbz.
Variable nLambdaSamples : Z.
Hypothesis HnLS : 0 ≤ nLambdaSamples.
Variable t : transform.
Variable c : Z.
Hypothesis Hc : t = FS1 → c ≠ 0.

Local Abbreviation lo := (LambdaRange.min (transform_l t c)).
Local Abbreviation hi := (LambdaRange.max (transform_l t c)).

Lemma single_no_dbz weights lam :
  lo < lam < hi →
  no_dbz (calcDffLowerboundSingleLambda (transform_f t) weights c lam).
Proof using Hc.
  intros Hlam.
  destruct (transform_lambda_nonzero t c lam Hlam) as [Hnz Hvb].
  assert (∀ w, no_dbz (transform_f t w lam c)) as Hw.
  { intros w. apply transform_no_dbz; [done|]. intros [->| ->]; auto. }
  unfold calcDffLowerboundSingleLambda. apply no_dbz_bind.
  - assert (no_dbz (Ret 0 : res Z)) as Hacc by done. revert Hacc.
    generalize (Ret 0 : res Z).
    induction weights as [|w ws IH]; intros acc Hacc; simpl; [done|].
    apply IH. apply no_dbz_bind; [done|intros ?].
    apply no_dbz_bind; [apply Hw|intros ?]. apply no_dbz_chk.
  - intros sum. apply no_dbz_bind_Ret; [apply Hw|]. intros tc Htc.
    apply no_dbz_ceil_div_pp.
    by apply (transform_capacity_nonzero t c lam).
Qed.

Lemma dff_loop_no_dbz fuel weights rmax lStep lam acc :
  0 ≤ lStep → (lo < lam ∧ rmax ≤ hi) ∨ rmax ≤ lam →
  no_dbz (dff_loop (transform_f t) fuel weights c rmax lStep lam acc).
Proof using Hc.
  intros Hstep. revert lam acc.
  induction fuel as [|fuel IH]; intros lam acc Hlam; [done|].
  cbn [dff_loop]. case_bool_decide; [|done].
  apply no_dbz_bind; [apply single_no_dbz; lia|intros b].
  unfold iadd. apply no_dbz_bind_Ret; [apply no_dbz_chk|].
  intros lam' [-> _]%chk_Ret. apply IH. lia.
Qed.

End dff_no_dbz.

(** ** Transformed capacity of zero *)

(** [fFS1] takes the remainder of a division by the capacity. *)
Lemma fFS1_capacity_zero w lam :
  in_int (lam + 1) → in_int (w * (lam + 1)) → fFS1 w lam 0 = Fault DivByZero.
Proof.
  intros H1 H2. unfold fFS1, iadd, imul. rewrite (chk_ok _ H1).
  cbn [mbind res_mbind res_bind]. rewrite (chk_ok _ H2). done.
Qed.

(** With the range [1, 100] of FS1 and at least one sample, the first
    lambda that is evaluated lies between 2 and 51; a fault of that
    evaluation is the outcome of the whole run. *)
Lemma FS1_first_sample (nLambdaSamples : Z) (fuel : nat) (weights : list Z)
    (capacity n mw : Z) :
  1 ≤ nLambdaSamples < int_max → (1 ≤ fuel)%nat →
  dff_range lFS1 capacity n mw true = Ret (LambdaRange.mk 1 100) →
  ∃ lam, 2 ≤ lam ≤ 51 ∧
    ∀ e, calcDffLowerboundSingleLambda fFS1 weights capacity lam = Fault e →
         calcDffLowerbound nLambdaSamples fFS1 lFS1 fuel weights capacity
           n mw true = Fault e.
Proof.
  intros Hn Hfuel Hr. pose proof int_range as [Hmin Hmax].
  assert (100 ≤ int_max) by (by vm_compute).
  unfold calcDffLowerbound. rewrite Hr.
  cbn [mbind res_mbind res_bind]. unfold dff_step.
  cbn [LambdaRange.max LambdaRange.min].
  unfold isub, iadd. rewrite (chk_ok (100 - 1)) by int_ok.
  cbn [mbind res_mbind res_bind]. rewrite (chk_ok (100 - 1 + 1)) by int_ok.
  cbn [mbind res_mbind res_bind].
  rewrite (chk_ok (nLambdaSamples + 1)) by int_ok.
  cbn [mbind res_mbind res_bind]. unfold ceil_div_pp, assert.
  rewrite (bool_decide_eq_true_2 (0 ≤ 100 - 1 + 1)) by lia.
  rewrite (bool_decide_eq_true_2 (0 ≤ nLambdaSamples + 1)) by lia.
  cbn [andb mbind res_mbind res_bind].
  rewrite (bool_decide_eq_false_2 (nLambdaSamples + 1 = 0)) by lia.
  cbn [mbind res_mbind res_bind].
  set (lStep := (100 - 1 + 1 + (nLambdaSamples + 1) - 1) ÷ (nLambdaSamples + 1)).
  assert (1 ≤ lStep ≤ 50) as HlStep.
  { unfold lStep. rewrite Z.quot_div_nonneg by lia. split.
    - apply Z.div_le_lower_bound; lia.
    - apply Z.lt_succ_r. apply Z.div_lt_upper_bound; lia. }
  rewrite (chk_ok (1 + lStep)) by int_ok. cbn [mbind res_mbind res_bind].
  exists (1 + lStep). split; [lia|]. intros e He.
  destruct fuel as [|fuel]; [lia|]. cbn [dff_loop].
  rewrite bool_decide_eq_true_2 by lia. by rewrite He.
Qed.

(** C8 (division-by-zero guarding) at the transform FS1 with capacity 0,
    one item of weight 1 and sanitization switched on.  The range of FS1
    is [1, 100] whatever the capacity, so with at least one sample the
    first sampled lambda lies inside it, and [fFS1] divides by the
    capacity: the run stops at a division by zero. *)
Theorem calcDffLowerbound_FS1_capacity_zero (nLambdaSamples : Z)
    (fuel : nat) :
  1 ≤ nLambdaSamples < int_max → (1 ≤ fuel)%nat →
  calcDffLowerbound nLambdaSamples fFS1 lFS1 fuel [1] 0 1 1 true
    = Fault DivByZero.
Proof.
  intros Hn Hfuel.
  destruct (FS1_first_sample nLambdaSamples fuel [1] 0 1 1 Hn Hfuel)
    as (lam & Hlam & Hrun); [by vm_compute|].
  apply Hrun. pose proof int_range as [Hmin Hmax].
  assert (100 ≤ int_max) by (by vm_compute).
  unfold calcDffLowerboundSingleLambda. cbn [foldl mbind res_mbind res_bind].
  by rewrite (fFS1_capacity_zero 1 lam) by int_ok.
Qed.

Lemma calcDffLowerbound_FS1_capacity_zero_witness :
  calcDffLowerbound 10 fFS1 lFS1 1 [1] 0 1 1 true = Fault DivByZero.
Proof.
  apply (calcDffLowerbound_FS1_capacity_zero 10 1).
  - vm_compute. split; [discriminate|reflexivity].
  - lia.
Defined.

(** ** Overflow of the transformed capacity *)

(** sanitizeLambdaRange looks at the weights only, and the capacity is
    transformed as well.  With capacity 10^9 and one item of weight 10
    the sanitized range of FS1 is [1, 100]; at every lambda that can be
    sampled first, [fFS1] multiplies the capacity by [lambda + 1], which
    does not fit an int. *)
Lemma single_FS1_capacity_overflow lam :
  2 ≤ lam ≤ 51 →
  calcDffLowerboundSingleLambda fFS1 [10] (10 ^ 9) lam = Fault Overflow.
Proof.
  intros Hlam.
  assert (Forall (λ lam', calcDffLowerboundSingleLambda fFS1 [10] (10 ^ 9) lam'
                          = Fault Overflow) (seqZ 2 50)) as Hall.
  { apply (bool_decide_unpack _). by vm_compute. }
  eapply Forall_forall in Hall; [exact Hall|]. apply elem_of_seqZ. lia.
Qed.

Lemma calcDffLowerbound_FS1_capacity_overflow (nLambdaSamples : Z)
    (fuel : nat) :
  1 ≤ nLambdaSamples < int_max → (1 ≤ fuel)%nat →
  calcDffLowerbound nLambdaSamples fFS1 lFS1 fuel [10] (10 ^ 9) 1 10 true
    = Fault Overflow.
Proof.
  intros Hn Hfuel.
  destruct (FS1_first_sample nLambdaSamples fuel [10] (10 ^ 9) 1 10 Hn Hfuel)
    as (lam & Hlam & Hrun); [by vm_compute|].
  by apply Hrun, single_FS1_capacity_overflow.
Qed.

(** ** Filling a SizeSet *)

Lemma add_capacity s0 x y :
  SizeSet.add s0 x = Ret y → length (SizeSet.s y) = length (SizeSet.s x).
Proof.
  unfold SizeSet.add. intros Hrun.
  apply bind_Ret in Hrun as (t' & _ & Hrun). case_bool_decide; [|done].
  apply bind_Ret in Hrun as (n' & _ & Hrun). injection Hrun as <-. simpl.
  by rewrite length_insert.
Qed.

Lemma filled_add_returns x l s0 :
  filled x l → 0 ≤ s0 → nonneg l → sumZ l + s0 ≤ int_max →
  Z.of_nat (length l) < Z.of_nat (length (SizeSet.s x)) →
  Z.of_nat (length l) < int_max →
  ∃ y, SizeSet.add s0 x = Ret y.
Proof.
  intros (Hcnt & Htot & _) Hs0 Hnn Hsum Hcap Hlen.
  pose proof (sumZ_nonneg l Hnn). unfold SizeSet.add, iadd.
  rewrite Htot, chk_ok by int_ok. cbn [mbind res_mbind res_bind].
  rewrite bool_decide_eq_true_2 by lia.
  rewrite Hcnt, chk_ok by int_ok. cbn [mbind res_mbind res_bind].
  by eexists.
Qed.

Lemma of_list_from_returns x l0 l :
  filled x l0 → nonneg l0 → nonneg l → sumZ l0 + sumZ l ≤ int_max →
  Z.of_nat (length l0 + length l) ≤ Z.of_nat (length (SizeSet.s x)) →
  Z.of_nat (length l0 + length l) ≤ int_max →
  ∃ y, foldl (λ acc s0, z ← acc; SizeSet.add s0 z) (Ret x) l = Ret y ∧
       length (SizeSet.s y) = length (SizeSet.s x).
Proof.
  revert x l0. induction l as [|s0 l IH]; intros x l0 Hx Hn0 Hn Hsum Hcap Hlen.
  { by exists x. }
  apply Forall_cons in Hn as [Hs0 Hn]. simpl in *.
  pose proof (sumZ_nonneg l Hn).
  destruct (filled_add_returns x l0 s0 Hx Hs0 Hn0) as [z Hz]; [lia..|].
  cbn [mbind res_mbind res_bind]. rewrite Hz.
  pose proof (add_capacity _ _ _ Hz) as Hcz.
  destruct (IH z (l0 ++ [s0])) as (y & Hy & Hcy).
  - by eapply filled_add.
  - apply Forall_app. split; [done|]. by constructor.
  - done.
  - rewrite sumZ_app. simpl. lia.
  - rewrite length_app, Hcz. simpl. lia.
  - rewrite length_app. simpl. lia.
  - exists y. split; [done|]. by rewrite Hcy.
Qed.

Lemma create_capacity n_max :
  length (SizeSet.s (SizeSet.create n_max)) = Z.to_nat n_max.
Proof. unfold SizeSet.create. simpl. by rewrite length_replicate. Qed.

Lemma of_list_capacity n_max l x :
  SizeSet.of_list n_max l = Ret x → length (SizeSet.s x) = Z.to_nat n_max.
Proof.
  unfold SizeSet.of_list. rewrite <-(create_capacity n_max).
  generalize (SizeSet.create n_max). revert x.
  induction l as [|s0 l IH]; intros x x0; simpl.
  - by intros [= ->].
  - destruct (SizeSet.add s0 x0) as [z|e|] eqn:Hz.
    + intros Hx. rewrite (IH _ _ Hx). by eapply add_capacity.
    + by rewrite (foldl_fault (λ s1 acc, z ← acc; SizeSet.add s1 z)).
    + intros Hy. exfalso. clear -Hy.
      induction l as [|?? IHl]; simpl in *; [done|auto].
Qed.

(** X1 (filling a size set).  A SizeSet created for [n_max] sizes takes
    up to [n_max] nonnegative sizes whose sum is an int: every [add]
    returns, and afterwards [card()] is their number, [total()] their sum,
    [operator[]] gives them back in the order they were added, and an
    index outside [0, card) is a fault. *)
Theorem SizeSet_add_round_trip (n_max : Z) (l : list Z) :
  Z.of_nat (length l) ≤ n_max ≤ int_max → nonneg l → sumZ l ≤ int_max →
  ∃ x, SizeSet.of_list n_max l = Ret x ∧
       SizeSet.card x = Ret (Z.of_nat (length l)) ∧
       SizeSet.total x = Ret (sumZ l) ∧
       (∀ (i : nat) v, l !! i = Some v →
          SizeSet.get x (Z.of_nat i) = Ret v) ∧
       (∀ i, ¬ (0 ≤ i < Z.of_nat (length l)) →
          ∃ e, SizeSet.get x i = Fault e).
Proof.
  intros Hlen Hn Hsum.
  destruct (of_list_from_returns (SizeSet.create n_max) [] l
              (filled_create n_max)) as (x & Hx & _).
  - constructor.
  - done.
  - simpl. lia.
  - rewrite create_capacity. simpl. lia.
  - simpl. lia.
  - exists x. split; [done|].
    pose proof (filled_of_list n_max l x Hx) as Hfill.
    pose proof Hfill as (Hcnt & Htot & _).
    split; [by unfold SizeSet.card; rewrite Hcnt|].
    split; [by unfold SizeSet.total; rewrite Htot|]. split.
    + intros i v Hv. apply (filled_get x l); [done|lia|].
      by rewrite Nat2Z.id.
    + intros i Hi. by apply (filled_get_out x l).
Qed.

Lemma SizeSet_add_round_trip_witness :
  ∃ x, SizeSet.of_list 4 [5; 3; 3] = Ret x ∧
       SizeSet.card x = Ret 3 ∧ SizeSet.total x = Ret 11 ∧
       SizeSet.get x 1 = Ret 3.
Proof.
  destruct (SizeSet_add_round_trip 4 [5; 3; 3])
    as (x & Hx & Hc & Ht & Hget & _).
  - vm_compute. split; discriminate.
  - repeat constructor; lia.
  - vm_compute. discriminate.
  - exists x. split; [exact Hx|]. split; [exact Hc|]. split; [exact Ht|].
    exact (Hget 1%nat 3 eq_refl).
Defined.

(** X2 (a full size set).  Once [n_max] sizes have been added, one more
    [add] writes behind the block obtained from the region. *)
Theorem SizeSet_add_full (n_max : Z) (l : list Z)
    (x : SizeSet.SizeSet) (s0 : Z) :
  SizeSet.of_list n_max l = Ret x → Z.of_nat (length l) = n_max →
  in_int (sumZ l + s0) →
  SizeSet.add s0 x = Fault OutOfBounds.
Proof.
  intros Hx Hlen Hsum.
  pose proof (of_list_capacity _ _ _ Hx) as Hcap.
  pose proof (filled_of_list _ _ _ Hx) as (Hcnt & Htot & _).
  unfold SizeSet.add, iadd. rewrite Htot, (chk_ok _ Hsum).
  cbn [mbind res_mbind res_bind]. rewrite bool_decide_eq_false_2; [done|].
  rewrite Hcnt, Hcap. lia.
Qed.

Lemma SizeSet_add_full_witness :
  SizeSet.add 1 sizes_553 = Fault OutOfBounds.
Proof.
  apply (SizeSet_add_full 3 [5; 5; 3]).
  - reflexivity.
  - reflexivity.
  - vm_compute. split; discriminate.
Defined.

(** ** The cursor of SizeSetMinusOne *)

(** X3 (cursor not set).  [add] leaves the cursor where the constructor
    put it, at -1: until [minus] has been called, [card()], [total()]
    and [operator[]] stop at their assertion [p >= 0]. *)
Theorem minus_one_unset (n_max : Z) (l : list Z)
    (x : SizeSetMinusOne.SizeSetMinusOne) :
  SizeSetMinusOne.of_list n_max l = Ret x →
  SizeSetMinusOne.p x = -1 ∧
  SizeSetMinusOne.card x = Fault AssertFailed ∧
  SizeSetMinusOne.total x = Fault AssertFailed ∧
  ∀ i, SizeSetMinusOne.get x i = Fault AssertFailed.
Proof.
  intros Hx.
  apply (minus_one_of_list_from (SizeSetMinusOne.create n_max) [] l x
           (filled_create n_max)) in Hx as [_ Hp]. simpl in Hp.
  unfold SizeSetMinusOne.card, SizeSetMinusOne.total, SizeSetMinusOne.get.
  rewrite Hp. done.
Qed.

Lemma minus_one_unset_witness :
  SizeSetMinusOne.p sizes_5331 = -1 ∧
  SizeSetMinusOne.card sizes_5331 = Fault AssertFailed ∧
  SizeSetMinusOne.total sizes_5331 = Fault AssertFailed ∧
  SizeSetMinusOne.get sizes_5331 0 = Fault AssertFailed.
Proof.
  destruct (minus_one_unset 4 [5; 3; 3; 1] sizes_5331)
    as (Hp & Hc & Ht & Hg).
  - reflexivity.
  - split; [exact Hp|]. split; [exact Hc|]. split; [exact Ht|exact (Hg 0)].
Defined.

Section minus_cursor.
Variables (b : SizeSet.SizeSet) (l : list Z).
Hypothesis Hb : filled b l.

Lemma minus_loop_first fuel s0 q (j : nat) v :
  -1 ≤ q < Z.of_nat j → l !! j = Some v → v ≤ s0 →
  (∀ (i : nat) w, q < Z.of_nat i < Z.of_nat j → l !! i = Some w → s0 < w) →
  (Z.to_nat (Z.of_nat j - q) ≤ fuel)%nat →
  SizeSetMinusOne.minus_loop fuel b s0 q = Ret (Z.of_nat j).
Proof using Hb.
  intros Hq Hj Hv. revert q Hq.
  induction fuel as [|fuel IH]; intros q Hq Hgt Hf; [lia|].
  pose proof (lookup_lt_Some _ _ _ Hj) as Hjl.
  pose proof Hb as (Hcnt & _ & Hni & _). unfold in_int in Hni.
  destruct (lookupZ l (q + 1) ltac:(lia)) as [w Hw].
  cbn [SizeSetMinusOne.minus_loop]. unfold iadd.
  rewrite chk_ok by int_ok. cbn [mbind res_mbind res_bind].
  rewrite (filled_get b l (q + 1) w Hb ltac:(lia) Hw).
  cbn [mbind res_mbind res_bind].
  destruct (decide (q + 1 = Z.of_nat j)) as [Heq|Hne].
  - rewrite Heq, Nat2Z.id in Hw. simplify_eq.
    rewrite bool_decide_eq_false_2 by lia. by rewrite Heq.
  - rewrite bool_decide_eq_true_2.
    + apply IH; [lia| |lia]. intros i w' Hi. apply Hgt. lia.
    + apply (Hgt (Z.to_nat (q + 1))); [lia|done].
Qed.

Lemma minus_loop_absent fuel s0 q :
  -1 ≤ q →
  (∀ (i : nat) w, q < Z.of_nat i → l !! i = Some w → s0 < w) →
  ∀ q', SizeSetMinusOne.minus_loop fuel b s0 q ≠ Ret q'.
Proof using Hb.
  intros Hq Hgt. revert q Hq Hgt.
  induction fuel as [|fuel IH]; intros q Hq Hgt q'; [done|].
  cbn [SizeSetMinusOne.minus_loop]. unfold iadd.
  destruct (chk (q + 1)) as [q1| |] eqn:Hq1; [|done..].
  apply chk_Ret in Hq1 as [-> _]. cbn [mbind res_mbind res_bind].
  destruct (decide (q + 1 < Z.of_nat (length l))) as [Hin|Hout].
  - destruct (lookupZ l (q + 1) ltac:(lia)) as [w Hw].
    rewrite (filled_get b l (q + 1) w Hb ltac:(lia) Hw).
    cbn [mbind res_mbind res_bind].
    rewrite bool_decide_eq_true_2.
    + apply IH; [lia|]. intros i w' Hi. apply Hgt. lia.
    + apply (Hgt (Z.to_nat (q + 1))); [lia|done].
  - destruct (filled_get_out b l (q + 1) Hb ltac:(lia)) as [e ->]. done.
Qed.
End minus_cursor.

(** X4 (where [minus] puts the cursor).  On a set holding the sizes [l],
    with the cursor at [q], the call [minus(s0)] moves the cursor forward
    to the first entry behind [q] that is not greater than [s0]; it does
    not ask that this entry equals [s0], nor that the sizes are
    sorted. *)
Theorem minus_first_not_greater (n_max : Z) (l : list Z)
    (x0 : SizeSetMinusOne.SizeSetMinusOne) (s0 q : Z) (j : nat) (v : Z)
    (fuel : nat) :
  SizeSetMinusOne.of_list n_max l = Ret x0 →
  -1 ≤ q < Z.of_nat j → l !! j = Some v → v ≤ s0 →
  (∀ (i : nat) w, q < Z.of_nat i < Z.of_nat j → l !! i = Some w → s0 < w) →
  (length l ≤ fuel)%nat →
  SizeSetMinusOne.minus fuel s0
    {| SizeSetMinusOne.base := SizeSetMinusOne.base x0;
       SizeSetMinusOne.p := q |}
  = Ret {| SizeSetMinusOne.base := SizeSetMinusOne.base x0;
           SizeSetMinusOne.p := Z.of_nat j |}.
Proof.
  intros Hx Hq Hj Hv Hgt Hf.
  apply (minus_one_of_list_from (SizeSetMinusOne.create n_max) [] l x0
           (filled_create n_max)) in Hx as [Hb _]. simpl in Hb.
  pose proof (lookup_lt_Some _ _ _ Hj).
  pose proof Hb as (Hcnt & _).
  unfold SizeSetMinusOne.minus. simpl.
  rewrite (minus_loop_first _ l Hb fuel s0 q j v Hq Hj Hv Hgt) by lia.
  cbn [mbind res_mbind res_bind]. unfold assert.
  rewrite bool_decide_eq_true_2 by lia. done.
Qed.

Lemma minus_first_not_greater_witness :
  SizeSetMinusOne.minus 4 4 sizes_5331
  = Ret {| SizeSetMinusOne.base := SizeSetMinusOne.base sizes_5331;
           SizeSetMinusOne.p := 1 |}.
Proof.
  apply (minus_first_not_greater 4 [5; 3; 3; 1] sizes_5331 4 (-1) 1 3 4).
  - reflexivity.
  - lia.
  - reflexivity.
  - lia.
  - intros i w Hi Hw. assert (i = 0%nat) as -> by lia.
    injection Hw as <-. lia.
  - simpl. lia.
Defined.

(** X5 ([minus] for a size that is not there).  When every entry behind
    the cursor is greater than [s0], the loop of [minus(s0)] runs off the
    sizes that were added: whatever its budget, the call does not
    return. *)
Theorem minus_absent (n_max : Z) (l : list Z)
    (x0 : SizeSetMinusOne.SizeSetMinusOne) (s0 q : Z) (fuel : nat) :
  SizeSetMinusOne.of_list n_max l = Ret x0 → -1 ≤ q →
  (∀ (i : nat) w, q < Z.of_nat i → l !! i = Some w → s0 < w) →
  ∀ y, SizeSetMinusOne.minus fuel s0
         {| SizeSetMinusOne.base := SizeSetMinusOne.base x0;
            SizeSetMinusOne.p := q |} ≠ Ret y.
Proof.
  intros Hx Hq Hgt y Hrun.
  apply (minus_one_of_list_from (SizeSetMinusOne.create n_max) [] l x0
           (filled_create n_max)) in Hx as [Hb _]. simpl in Hb.
  unfold SizeSetMinusOne.minus in Hrun. simpl in Hrun.
  apply bind_Ret in Hrun as (q' & Hq' & _).
  by apply (minus_loop_absent _ l Hb fuel s0 q Hq Hgt) in Hq'.
Qed.

Lemma minus_absent_witness :
  SizeSetMinusOne.minus 10 0 sizes_5331 = Fault OutOfBounds ∧
  ¬ (∃ y, SizeSetMinusOne.minus 10 0 sizes_5331 = Ret y).
Proof.
  split; [reflexivity|]. intros [y Hy].
  apply (minus_absent 4 [5; 3; 3; 1] sizes_5331 0 (-1) 10 eq_refl
           ltac:(lia)) with y; [|exact Hy].
  intros i w _ Hw. destruct i as [|[|[|[|i]]]]; simplify_eq/=; lia.
Defined.

(** ** [nosum] on two size sets with the same contents *)

Section nosum_same.
Context {T T' : Type} `{SizeSetOps T} `{SizeSetOps T'}.
Variables (s : T) (s' : T') (l : list Z) (a b n : Z).
Hypothesis Hs : represents s l.
Hypothesis Hs' : represents s' l.

Local Lemma at_same i : res_le (at_ s i) (at_ s' i).
Proof using Hs Hs'.
  intros x Hx.
  destruct (decide (0 ≤ i < Z.of_nat (length l))) as [Hi|Hi].
  - destruct (lookupZ l i Hi) as [y Hy].
    rewrite (repr_in s l Hs i y ltac:(lia) Hy) in Hx. injection Hx as <-.
    apply (repr_in s' l Hs'); [lia|done].
  - destruct (repr_out s l Hs i Hi) as [e He]. by rewrite He in Hx.
Qed.

Ltac same_bind := apply res_le_bind; [try apply res_le_refl|intros ?].

Lemma nosum_small_same fuel sc kp :
  res_le (nosum_small s a n fuel sc kp) (nosum_small s' a n fuel sc kp).
Proof using Hs Hs'.
  revert sc kp. induction fuel as [|fuel IH]; intros sc kp; [done|].
  cbn [nosum_small]. same_bind. same_bind; [apply at_same|]. same_bind.
  case_bool_decide; [|apply res_le_refl]. same_bind. apply IH.
Qed.

Lemma nosum_shift_same fuel k sa sb sc kp :
  res_le (nosum_shift s a n fuel k sa sb sc kp)
         (nosum_shift s' a n fuel k sa sb sc kp).
Proof using Hs Hs'.
  revert sb sc kp. induction fuel as [|fuel IH]; intros sb sc kp; [done|].
  cbn [nosum_shift]. same_bind. case_bool_decide; [|apply res_le_refl].
  do 2 same_bind. same_bind; [apply at_same|]. do 3 same_bind.
  same_bind; [apply at_same|]. do 2 same_bind. apply IH.
Qed.

Lemma nosum_main_same fuel inner k sa sb sc kp :
  res_le (nosum_main s a b n fuel inner k sa sb sc kp)
         (nosum_main s' a b n fuel inner k sa sb sc kp).
Proof using Hs Hs'.
  revert k sa sb sc kp.
  induction fuel as [|fuel IH]; intros k sa sb sc kp; [done|].
  cbn [nosum_main].
  destruct (bool_decide (sa < a) && bool_decide (sb ≤ b));
    [|apply res_le_refl].
  same_bind; [apply at_same|]. do 2 same_bind.
  case_bool_decide; [|apply IH].
  do 2 same_bind. same_bind; [apply at_same|]. do 2 same_bind.
  apply res_le_bind; [apply nosum_shift_same|]. intros [[??]?]. apply IH.
Qed.
End nosum_same.

(** [nosum] looks at a size set through [card], [total] and indexing
    only: on two sets that stand for the same sizes it returns the
    same. *)
Lemma nosum_same {T T' : Type} `{SizeSetOps T} `{SizeSetOps T'}
    (s : T) (s' : T') (l : list Z) (a b : Z) (fuel : nat)
    (ap bp : option Z) :
  represents s l → represents s' l →
  res_le (nosum fuel s a b ap bp) (nosum fuel s' a b ap bp).
Proof.
  intros Hs Hs'. unfold nosum. case_bool_decide; [apply res_le_refl|].
  rewrite (repr_total s l Hs), (repr_total s' l Hs').
  cbn [mbind res_mbind res_bind]. case_bool_decide; [apply res_le_refl|].
  rewrite (repr_card s l Hs), (repr_card s' l Hs').
  cbn [mbind res_mbind res_bind].
  apply res_le_bind; [apply res_le_refl|intros n].
  apply res_le_bind; [by apply (nosum_small_same s s' l)|intros [sc kp]].
  apply res_le_bind; [apply res_le_refl|intros i].
  apply res_le_bind; [by apply (at_same s s' l)|intros sb].
  apply res_le_bind; [by apply (nosum_main_same s s' l)|intros [[??]?]].
  apply res_le_refl.
Qed.

(** X6 ([nosum] without one item).  Take a SizeSetMinusOne that holds the
    nonnegative sizes [l] with its cursor on entry [q], and a SizeSet
    that holds the sizes [l] without that entry.  [nosum] returns the
    same on both: the answer and the two sums [ap] and [bp]. *)
Theorem nosum_minus_one (n_max n_max' : Z) (l : list Z)
    (x0 : SizeSetMinusOne.SizeSetMinusOne) (y : SizeSet.SizeSet)
    (q v a b : Z) (fuel : nat) (ap bp : option Z)
    (r : bool * option Z * option Z) :
  SizeSetMinusOne.of_list n_max l = Ret x0 → nonneg l →
  0 ≤ q → l !! Z.to_nat q = Some v →
  SizeSet.of_list n_max' (delete (Z.to_nat q) l) = Ret y →
  nosum fuel {| SizeSetMinusOne.base := SizeSetMinusOne.base x0;
                SizeSetMinusOne.p := q |} a b ap bp = Ret r
  ↔ nosum fuel y a b ap bp = Ret r.
Proof.
  intros Hx Hn Hq Hv Hy.
  apply (minus_one_of_list_from (SizeSetMinusOne.create n_max) [] l x0
           (filled_create n_max)) in Hx as [Hb _]. simpl in Hb.
  set (x := {| SizeSetMinusOne.base := SizeSetMinusOne.base x0;
               SizeSetMinusOne.p := q |}).
  assert (represents x (delete (Z.to_nat q) l)) as Hrx.
  { by apply (minus_represents x l v). }
  pose proof (of_list_represents _ _ _ Hy) as Hry.
  split.
  - apply (nosum_same x y _ a b fuel ap bp Hrx Hry).
  - apply (nosum_same y x _ a b fuel ap bp Hry Hrx).
Qed.

Lemma nosum_minus_one_witness :
  nosum 10 {| SizeSetMinusOne.base := SizeSetMinusOne.base sizes_5331;
              SizeSetMinusOne.p := 3 |} 9 10 None None
    = Ret (true, Some 8, Some 11) ∧
  nosum 10 {| SizeSet.n := 3; SizeSet.t := 11;
              SizeSet.s := [Some 5; Some 3; Some 3] |} 9 10 None None
    = Ret (true, Some 8, Some 11).
Proof.
  split; [by vm_compute|].
  apply (nosum_minus_one 4 3 [5; 3; 3; 1] sizes_5331
           {| SizeSet.n := 3; SizeSet.t := 11;
              SizeSet.s := [Some 5; Some 3; Some 3] |}
           3 1 9 10 10 None None (true, Some 8, Some 11)).
  - reflexivity.
  - repeat constructor; lia.
  - lia.
  - reflexivity.
  - reflexivity.
  - by vm_compute.
Defined.

(** ** The closed interval *)

(** X7 ([nosum] and the lower end of the interval).  Under the
    conditions of C1 an answer [true] excludes the closed interval: no
    sub-multiset has a sum [v] with [a <= v <= b], so [a] itself is not a
    sum either. *)
Theorem nosum_excludes_closed {T : Type} `{SizeSetOps T} (s : T)
    (l : list Z) (a b : Z) (fuel : nat) :
  represents s l → descending l → nonneg l → 0 < a → a ≤ b → b < sumZ l →
  nosum3 fuel s a b = Ret true →
  ∀ v, achievable l v → ¬ (a ≤ v ≤ b).
Proof.
  intros Hrep Hd Hn Ha Hab Hb Hrun v Hv Hin. unfold nosum3 in Hrun.
  destruct (nosum fuel s a b None None) as [[[r ap] bp]| |] eqn:Hns;
    [|done..].
  injection Hrun as ->.
  destruct (nosum_true s l a b fuel None None ap bp Hrep Hd Hn Ha Hab Hb Hns)
    as (ap' & bp' & _ & _ & ? & ? & _ & _ & Hgap).
  destruct (Hgap v Hv); lia.
Qed.

Lemma nosum_excludes_closed_witness :
  nosum3 10 sizes_553 6 7 = Ret true ∧
  Forall (λ v, ¬ (6 ≤ v ≤ 7)) (subsums [5; 5; 3]).
Proof.
  split; [reflexivity|]. apply Forall_forall.
  apply (nosum_excludes_closed sizes_553 [5; 5; 3] 6 7 10).
  - apply (of_list_represents 3). reflexivity.
  - exact descending_553.
  - exact nonneg_553.
  - lia.
  - lia.
  - simpl. lia.
  - vm_compute. reflexivity.
Defined.

(** ** What the transforms return *)

Lemma fCCM1_val w l c v : fCCM1 w l c = Ret v → v = val_CCM1 w l c ∧ l ≠ 0.
Proof.
  intros Hrun. unfold fCCM1 in Hrun. inv_run Hrun.
  split; [reflexivity|assumption].
Qed.

Lemma fMT_val w l c v : fMT w l c = Ret v → v = val_MT w l c.
Proof.
  intros Hrun. unfold fMT in Hrun. unfold val_MT.
  destruct (bool_decide (l ≤ w)); inv_run Hrun; lia.
Qed.

Lemma fBJ1_val w l c v : fBJ1 w l c = Ret v → v = val_BJ1 w l c ∧ l ≠ 0.
Proof.
  intros Hrun. unfold fBJ1 in Hrun. inv_run Hrun.
  split; [reflexivity|assumption].
Qed.

Lemma fVB2Base_val w l c v :
  fVB2Base w l c = Ret v → v = val_VB2Base w l c ∧ 0 ≤ l * w ∧ 0 < c.
Proof.
  intros Hrun. unfold fVB2Base in Hrun.
  apply bind_Ret in Hrun as (lw & [-> _]%chk_Ret & Hrun).
  apply bind_Ret in Hrun as (u & Hu & Hrun).
  pose proof (ceil_div_pp_Ret _ _ _ Hu) as (? & ? & _).
  unfold ceil_div_pp, assert in Hu.
  rewrite (bool_decide_eq_true_2 (0 ≤ l * w)) in Hu by lia.
  rewrite (bool_decide_eq_true_2 (0 ≤ c)) in Hu by lia.
  cbn [andb mbind res_mbind res_bind] in Hu.
  rewrite (bool_decide_eq_false_2 (c = 0)) in Hu by lia. injection Hu as <-.
  unfold val_VB2Base. cbv zeta. case_bool_decide.
  - apply chk_Ret in Hrun as [-> _]. done.
  - by injection Hrun as <-.
Qed.

Lemma fVB2_val w l c v :
  fVB2 w l c = Ret v → v = val_VB2 w l c ∧ 0 ≤ l * w ∧ 0 ≤ l * c ∧ 0 < c.
Proof.
  intros Hrun. unfold fVB2 in Hrun.
  apply bind_Ret in Hrun as (tw & [-> _]%chk_Ret & Hrun).
  apply bind_Ret in Hrun as (t0 & (-> & ? & ?)%fVB2Base_val & Hrun).
  apply bind_Ret in Hrun as (t1 & (-> & ? & ?)%fVB2Base_val & Hrun).
  apply bind_Ret in Hrun as (d & [-> _]%chk_Ret & Hrun).
  apply bind_Ret in Hrun as (t2 & (-> & ? & ?)%fVB2Base_val & Hrun).
  inv_run Hrun. done.
Qed.

Lemma fFS1_val w l c v : fFS1 w l c = Ret v → v = val_FS1 w l c ∧ c ≠ 0.
Proof.
  intros Hrun. unfold fFS1 in Hrun. inv_run Hrun.
  split; [reflexivity|assumption].
Qed.

Lemma fRAD2Base_val w l c v : fRAD2Base w l c = Ret v → v = val_RAD2Base w l c.
Proof.
  intros Hrun. unfold fRAD2Base in Hrun. unfold val_RAD2Base.
  apply bind_Ret in Hrun as (c1 & Hc1 & Hrun).
  apply bind_Ret in Hrun as (tl & [-> _]%chk_Ret & Hrun).
  apply bind_Ret in Hrun as (d & [-> _]%chk_Ret & Hrun).
  apply bind_Ret in Hrun as (c2 & Hc2 & Hrun).
  inv_run Hrun.
  assert (c1 = if bool_decide (l ≤ w)
               then b2i (bool_decide (w ≤ c - 2 * l)) else 0) as ->.
  { destruct (bool_decide (l ≤ w)); inv_run Hc1; done. }
  assert (c2 = if bool_decide (c - 2 * l < w)
               then b2i (bool_decide (w < 2 * l)) else 0) as ->.
  { destruct (bool_decide (c - 2 * l < w)); inv_run Hc2; done. }
  reflexivity.
Qed.

Lemma fRAD2_val w l c v : fRAD2 w l c = Ret v → v = val_RAD2 w l c.
Proof.
  intros Hrun. unfold fRAD2 in Hrun.
  apply bind_Ret in Hrun as (tl & [-> _]%chk_Ret & Hrun).
  apply bind_Ret in Hrun as (v0 & ->%fRAD2Base_val & Hrun).
  apply bind_Ret in Hrun as (d & [-> _]%chk_Ret & Hrun).
  apply bind_Ret in Hrun as (r & ->%fRAD2Base_val & Hrun).
  inv_run Hrun. done.
Qed.

(** Quotient and remainder of nonnegative numbers *)

Lemma quot_rem_nonneg x l :
  0 ≤ x → 0 < l → x = l * (x ÷ l) + Z.rem x l ∧ 0 ≤ Z.rem x l < l ∧ 0 ≤ x ÷ l.
Proof. intros. Z.quot_rem_to_equations. nia. Qed.

Lemma quot_add_cases x y l :
  0 ≤ x → 0 ≤ y → 0 < l →
  ((x + y) ÷ l = x ÷ l + y ÷ l ∧ Z.rem (x + y) l = Z.rem x l + Z.rem y l) ∨
  ((x + y) ÷ l = x ÷ l + y ÷ l + 1 ∧
   Z.rem (x + y) l = Z.rem x l + Z.rem y l - l).
Proof.
  intros Hx Hy Hl.
  destruct (quot_rem_nonneg x l Hx Hl) as (Ex & Hrx & Hqx).
  destruct (quot_rem_nonneg y l Hy Hl) as (Ey & Hry & Hqy).
  destruct (quot_rem_nonneg (x + y) l ltac:(lia) Hl) as (Exy & Hrxy & Hqxy).
  assert ((x + y) ÷ l = x ÷ l + y ÷ l ∨ (x + y) ÷ l = x ÷ l + y ÷ l + 1)
    as [E|E] by nia.
  - left. split; [done|]. rewrite E in Exy. lia.
  - right. split; [done|]. rewrite E in Exy. lia.
Qed.

Lemma quot_superadd x y l :
  0 ≤ x → 0 ≤ y → 0 < l → x ÷ l + y ÷ l ≤ (x + y) ÷ l.
Proof. intros Hx Hy Hl. destruct (quot_add_cases x y l Hx Hy Hl); lia. Qed.

Lemma val_MT_superadd x y l c :
  0 < l < c ÷ 2 → 0 ≤ x → 0 ≤ y → x + y ≤ c →
  val_MT x l c + val_MT y l c ≤ val_MT (x + y) l c.
Proof.
  intros Hl Hx Hy Hxy.
  assert (2 * l < c) by (Z.quot_rem_to_equations; lia).
  unfold val_MT, b2i. repeat case_bool_decide; lia.
Qed.

(** A function that is superadditive on the nonnegative numbers stays
    superadditive when it is reflected at half the capacity, the way
    [fCCM1] and [fVB2] do. *)
Lemma reflected_superadd (Q : Z → Z) (c x y : Z) :
  Q 0 = 0 →
  (∀ a, 0 ≤ a → 0 ≤ Q a) →
  (∀ a b, 0 ≤ a → 0 ≤ b → Q a + Q b ≤ Q (a + b)) →
  0 ≤ x → 0 ≤ y → x + y ≤ c →
  let h := λ w, b2i (bool_decide (c < 2 * w)) * (2 * (Q c - Q (c - w)))
                + b2i (bool_decide (2 * w = c)) * Q c
                + b2i (bool_decide (2 * w < c)) * (2 * Q w) in
  h x + h y ≤ h (x + y).
Proof.
  intros Q0 Qpos Qadd Hx Hy Hxy h. unfold h.
  pose proof (Qadd x y Hx Hy).
  pose proof (Qadd y (c - (x + y)) Hy ltac:(lia)) as H4.
  replace (y + (c - (x + y))) with (c - x) in H4 by lia.
  pose proof (Qadd x (c - (x + y)) Hx ltac:(lia)) as H5.
  replace (x + (c - (x + y))) with (c - y) in H5 by lia.
  pose proof (Qadd (x + y) (c - (x + y)) ltac:(lia) ltac:(lia)) as H3.
  replace (x + y + (c - (x + y))) with c in H3 by lia.
  pose proof (Qadd (x + y) (x + y) ltac:(lia) ltac:(lia)) as H6.
  pose proof (Qadd x x Hx Hx) as H7.
  pose proof (Qadd y y Hy Hy) as H8.
  pose proof (Qpos (c - (x + y)) ltac:(lia)).
  pose proof (Qpos x Hx). pose proof (Qpos y Hy).
  unfold b2i.
  repeat case_bool_decide; try lia;
    try (assert (Q (x + x) = Q c) by (f_equal; lia));
    try (assert (Q (y + y) = Q c) by (f_equal; lia));
    try (assert (Q (x + y + (x + y)) = Q c) by (f_equal; lia));
    try (assert (Q (c - x) = Q x) by (f_equal; lia));
    try (assert (Q (c - y) = Q y) by (f_equal; lia));
    try (assert (Q (c - (x + y)) = 0) by (rewrite <-Q0; f_equal; lia));
    try (assert (Q x = 0) by (rewrite <-Q0; f_equal; lia));
    try (assert (Q y = 0) by (rewrite <-Q0; f_equal; lia));
    try (assert (Q c = 0) by (rewrite <-Q0; f_equal; lia));
    lia.
Qed.

Lemma val_CCM1_superadd x y l c :
  1 < l < c ÷ 2 → 0 ≤ x → 0 ≤ y → x + y ≤ c →
  val_CCM1 x l c + val_CCM1 y l c ≤ val_CCM1 (x + y) l c.
Proof.
  intros Hl Hx Hy Hxy. assert (0 < l) as Hl0 by lia.
  apply (reflected_superadd (λ w, w ÷ l) c x y); [| | |done..].
  - apply Z.quot_0_l. lia.
  - intros a Ha. by apply (quot_rem_nonneg a l).
  - intros a b Ha Hb. by apply quot_superadd.
Qed.

Lemma val_BJ1_superadd x y l c :
  1 < l < c → 0 ≤ x → 0 ≤ y → x + y ≤ c →
  val_BJ1 x l c + val_BJ1 y l c ≤ val_BJ1 (x + y) l c.
Proof.
  intros Hl Hx Hy Hxy.
  assert (0 < l) as Hl0 by lia.
  destruct (quot_rem_nonneg x l Hx Hl0) as (_ & Hrx & Hqx).
  destruct (quot_rem_nonneg y l Hy Hl0) as (_ & Hry & Hqy).
  destruct (quot_rem_nonneg c l ltac:(lia) Hl0) as (_ & Hrc & Hqc).
  unfold val_BJ1.
  destruct (quot_add_cases x y l Hx Hy Hl0) as [[-> ->]|[-> ->]];
    generalize dependent (Z.rem x l); generalize dependent (Z.rem y l);
    generalize dependent (Z.rem c l); generalize dependent (x ÷ l);
    generalize dependent (y ÷ l); intros qy qx rc ? ry ? rx ? ? ?;
    unfold b2i; repeat case_bool_decide; nia.
Qed.

Lemma val_VB2Base_spec w l c :
  0 ≤ w → 0 < l → 0 < c →
  (w = 0 ∧ val_VB2Base w l c = 0) ∨
  (0 < w ∧ c * val_VB2Base w l c < l * w ≤ c * (val_VB2Base w l c + 1)).
Proof.
  intros Hw Hl Hc. unfold val_VB2Base. cbv zeta.
  assert (0 ≤ l * w) by nia.
  destruct (quot_rem_nonneg (l * w + c - 1) c ltac:(lia) Hc) as (E & Hr & Hq).
  case_bool_decide; nia.
Qed.

Lemma val_VB2Base_superadd a b l c :
  0 < l → 0 < c → 0 ≤ a → 0 ≤ b →
  val_VB2Base a l c + val_VB2Base b l c ≤ val_VB2Base (a + b) l c.
Proof.
  intros Hl Hc Ha Hb.
  destruct (val_VB2Base_spec a l c Ha Hl Hc) as [[-> ->]|[? ?]].
  { by rewrite Z.add_0_l. }
  destruct (val_VB2Base_spec b l c Hb Hl Hc) as [[-> ->]|[? ?]].
  { by rewrite !Z.add_0_r. }
  destruct (val_VB2Base_spec (a + b) l c ltac:(lia) Hl Hc) as [[? ?]|[? ?]];
    [lia|].
  nia.
Qed.

Lemma val_VB2_superadd x y l c :
  2 < l < c → 0 ≤ x → 0 ≤ y → x + y ≤ c →
  val_VB2 x l c + val_VB2 y l c ≤ val_VB2 (x + y) l c.
Proof.
  intros Hl Hx Hy Hxy.
  assert (0 < l) as Hl0 by lia. assert (0 < c) as Hc0 by lia.
  pose proof (reflected_superadd (λ w, val_VB2Base w l c) c x y) as Hr.
  cbv zeta beta in Hr. unfold val_VB2.
  etrans; [|etrans; [apply Hr; [| | |done..]|]]; [lia| | | |lia].
  - by destruct (val_VB2Base_spec 0 l c ltac:(lia) Hl0 Hc0) as [[_ ?]|[? _]];
      [|lia].
  - intros a Ha.
    destruct (val_VB2Base_spec a l c Ha Hl0 Hc0) as [[_ ->]|[? ?]]; nia.
  - intros a b Ha Hb. by apply val_VB2Base_superadd.
Qed.

Lemma val_FS1_superadd x y l c :
  0 ≤ l → 0 < c → 0 ≤ x → 0 ≤ y → x + y ≤ c →
  val_FS1 x l c + val_FS1 y l c ≤ val_FS1 (x + y) l c.
Proof.
  intros Hl Hc Hx Hy Hxy. unfold val_FS1.
  replace ((x + y) * (l + 1)) with (x * (l + 1) + y * (l + 1)) by lia.
  assert (0 ≤ x * (l + 1)) as Hx' by nia.
  assert (0 ≤ y * (l + 1)) as Hy' by nia.
  destruct (quot_rem_nonneg _ c Hx' Hc) as (Ex & Hrx & Hqx).
  destruct (quot_rem_nonneg _ c Hy' Hc) as (Ey & Hry & Hqy).
  destruct (quot_add_cases _ _ c Hx' Hy' Hc) as [[-> ->]|[-> ->]];
    generalize dependent (Z.rem (x * (l + 1)) c);
    generalize dependent (Z.rem (y * (l + 1)) c);
    generalize dependent ((x * (l + 1)) ÷ c);
    generalize dependent ((y * (l + 1)) ÷ c);
    intros qy qx ry ? ? rx ? ?;
    unfold b2i; repeat case_bool_decide; nia.
Qed.


Lemma val_RAD2Base_cases w l c :
  0 < l → 3 * l < c → c < 4 * l →
  (w < l ∧ val_RAD2Base w l c = 0) ∨
  (l ≤ w ≤ c - 2 * l ∧ val_RAD2Base w l c = c ÷ 3) ∨
  (c - 2 * l < w < 2 * l ∧ val_RAD2Base w l c = c ÷ 2) ∨
  (2 * l ≤ w ∧ val_RAD2Base w l c = 0).
Proof.
  intros. unfold val_RAD2Base, b2i. repeat case_bool_decide; lia.
Qed.

(** [fRAD2] is a step function with the values 0, c/3, c/2, c - c/3
    and c. *)
Lemma val_RAD2_cases w l c :
  0 < l → 3 * l < c → c < 4 * l → 0 ≤ w ≤ c →
  (w < l ∧ val_RAD2 w l c = 0) ∨
  (l ≤ w ≤ c - 2 * l ∧ val_RAD2 w l c = c ÷ 3) ∨
  (c - 2 * l < w < 2 * l ∧ val_RAD2 w l c = c ÷ 2) ∨
  (2 * l ≤ w ≤ c - l ∧ val_RAD2 w l c = c - c ÷ 3) ∨
  (c - l < w ∧ val_RAD2 w l c = c).
Proof.
  intros Hl H3 H4 Hw. unfold val_RAD2, b2i.
  destruct (val_RAD2Base_cases w l c Hl H3 H4)
    as [[? ->]|[[? ->]|[[? ->]|[? ->]]]];
    destruct (val_RAD2Base_cases (c - w) l c Hl H3 H4)
      as [[? ->]|[[? ->]|[[? ->]|[? ->]]]];
    repeat case_bool_decide; lia.
Qed.

Lemma val_RAD2_superadd x y l c :
  c ÷ 4 + 1 < l < c ÷ 3 → 0 ≤ x → 0 ≤ y → x + y ≤ c →
  val_RAD2 x l c + val_RAD2 y l c ≤ val_RAD2 (x + y) l c.
Proof.
  intros Hl Hx Hy Hxy.
  assert (c < 4 * l ∧ 3 * l < c ∧ 0 < l) as (H4 & H3 & Hl0)
    by (Z.quot_rem_to_equations; lia).
  assert (0 ≤ c ÷ 3 ∧ 2 * (c ÷ 3) ≤ c - c ÷ 3 ∧ c ÷ 3 ≤ c ÷ 2 ∧
          c ÷ 2 + c ÷ 2 ≤ c ∧ c ÷ 3 + c ÷ 2 ≤ c) as (? & ? & ? & ? & ?)
    by (Z.quot_rem_to_equations; lia).
  destruct (val_RAD2_cases x l c Hl0 H3 H4 ltac:(lia))
    as [[? ->]|[[? ->]|[[? ->]|[[? ->]|[? ->]]]]];
    destruct (val_RAD2_cases y l c Hl0 H3 H4 ltac:(lia))
      as [[? ->]|[[? ->]|[[? ->]|[[? ->]|[? ->]]]]];
    destruct (val_RAD2_cases (x + y) l c Hl0 H3 H4 ltac:(lia))
      as [[? ->]|[[? ->]|[[? ->]|[[? ->]|[? ->]]]]];
    lia.
Qed.

(** ** Nonnegative values *)

Lemma reflected_nonneg (Q : Z → Z) (c w : Z) :
  (∀ a, 0 ≤ a → 0 ≤ Q a) →
  (∀ a b, 0 ≤ a → 0 ≤ b → Q a + Q b ≤ Q (a + b)) →
  0 ≤ w ≤ c →
  0 ≤ b2i (bool_decide (c < 2 * w)) * (2 * (Q c - Q (c - w)))
      + b2i (bool_decide (2 * w = c)) * Q c
      + b2i (bool_decide (2 * w < c)) * (2 * Q w).
Proof.
  intros Qpos Qadd Hw.
  pose proof (Qadd w (c - w) ltac:(lia) ltac:(lia)) as Hsum.
  replace (w + (c - w)) with c in Hsum by lia.
  pose proof (Qpos w ltac:(lia)). pose proof (Qpos c ltac:(lia)).
  unfold b2i. repeat case_bool_decide; lia.
Qed.

Lemma val_CCM1_nonneg w l c : 0 < l → 0 ≤ w ≤ c → 0 ≤ val_CCM1 w l c.
Proof.
  intros Hl Hw. apply (reflected_nonneg (λ a, a ÷ l) c w); [| |done].
  - intros a Ha. by apply (quot_rem_nonneg a l).
  - intros a b Ha Hb. by apply quot_superadd.
Qed.

Lemma val_MT_nonneg w l c : 0 ≤ w ≤ c → 0 ≤ val_MT w l c.
Proof. intros Hw. unfold val_MT, b2i. repeat case_bool_decide; lia. Qed.

Lemma val_BJ1_nonneg w l c : 0 < l → 0 ≤ w → 0 ≤ c → 0 ≤ val_BJ1 w l c.
Proof.
  intros Hl Hw Hc. unfold val_BJ1.
  destruct (quot_rem_nonneg w l Hw Hl) as (_ & ? & ?).
  destruct (quot_rem_nonneg c l Hc Hl) as (_ & ? & ?).
  unfold b2i. repeat case_bool_decide; nia.
Qed.

Lemma val_VB2_nonneg w l c : 0 < l → 0 < c → 0 ≤ w ≤ c → 0 ≤ val_VB2 w l c.
Proof.
  intros Hl Hc Hw.
  pose proof (reflected_nonneg (λ a, val_VB2Base a l c) c w) as Hr.
  cbv beta in Hr. unfold val_VB2. etrans; [apply Hr|lia]; [| |done].
  - intros a Ha.
    destruct (val_VB2Base_spec a l c Ha Hl Hc) as [[_ ->]|[? ?]]; nia.
  - intros a b Ha Hb. by apply val_VB2Base_superadd.
Qed.

Lemma val_FS1_nonneg w l c : 0 ≤ l → 0 < c → 0 ≤ w → 0 ≤ val_FS1 w l c.
Proof.
  intros Hl Hc Hw. unfold val_FS1.
  assert (0 ≤ w * (l + 1)) as Hw' by nia.
  destruct (quot_rem_nonneg _ c Hw' Hc) as (_ & _ & ?).
  unfold b2i. repeat case_bool_decide; nia.
Qed.

Lemma val_RAD2_nonneg w l c :
  0 < l → 3 * l < c → c < 4 * l → 0 ≤ w ≤ c → 0 ≤ val_RAD2 w l c.
Proof.
  intros Hl H3 H4 Hw.
  assert (0 ≤ c ÷ 3 ≤ c ∧ 0 ≤ c ÷ 2) as (? & ?)
    by (Z.quot_rem_to_equations; lia).
  destruct (val_RAD2_cases w l c Hl H3 H4 Hw)
    as [[? ->]|[[? ->]|[[? ->]|[[? ->]|[? ->]]]]]; lia.
Qed.

(** ** The six transforms together *)

Lemma transform_f_val t w lam c v :
  transform_f t w lam c = Ret v →
  v = transform_val t w lam c ∧ (t = FS1 → c ≠ 0).
Proof.
  intros Hrun. destruct t; simpl in *.
  - by apply fCCM1_val in Hrun as [-> _].
  - by apply fMT_val in Hrun as ->.
  - by apply fBJ1_val in Hrun as [-> _].
  - by apply fVB2_val in Hrun as [-> _].
  - by apply fFS1_val in Hrun as [-> ?].
  - by apply fRAD2_val in Hrun as ->.
Qed.

Lemma transform_val_superadd t x y lam c :
  LambdaRange.min (transform_l t c) < lam < LambdaRange.max (transform_l t c) →
  0 < c → 0 ≤ x → 0 ≤ y → x + y ≤ c →
  transform_val t x lam c + transform_val t y lam c
    ≤ transform_val t (x + y) lam c.
Proof.
  intros Hlam Hc Hx Hy Hxy. destruct t; simpl in *.
  - by apply val_CCM1_superadd.
  - by apply val_MT_superadd.
  - by apply val_BJ1_superadd.
  - by apply val_VB2_superadd.
  - apply val_FS1_superadd; lia.
  - by apply val_RAD2_superadd.
Qed.

Lemma transform_val_nonneg t w lam c :
  LambdaRange.min (transform_l t c) < lam < LambdaRange.max (transform_l t c) →
  0 < c → 0 ≤ w ≤ c → 0 ≤ transform_val t w lam c.
Proof.
  intros Hlam Hc Hw. destruct t; simpl in *.
  - apply val_CCM1_nonneg; lia.
  - by apply val_MT_nonneg.
  - apply val_BJ1_nonneg; lia.
  - apply val_VB2_nonneg; lia.
  - apply val_FS1_nonneg; lia.
  - apply val_RAD2_nonneg; [| | |done]; Z.quot_rem_to_equations; lia.
Qed.

Lemma transform_val_mono t w lam c :
  LambdaRange.min (transform_l t c) < lam < LambdaRange.max (transform_l t c) →
  0 < c → 0 ≤ w ≤ c →
  transform_val t w lam c ≤ transform_val t c lam c.
Proof.
  intros Hlam Hc Hw.
  pose proof (transform_val_superadd t w (c - w) lam c Hlam Hc
                ltac:(lia) ltac:(lia) ltac:(lia)) as Hs.
  replace (w + (c - w)) with c in Hs by lia.
  pose proof (transform_val_nonneg t (c - w) lam c Hlam Hc ltac:(lia)). lia.
Qed.

(** The transformed sizes of the items of one bin sum to at most the
    transformed capacity. *)
Lemma transform_val_bin t lam c (bin : list Z) :
  LambdaRange.min (transform_l t c) < lam < LambdaRange.max (transform_l t c) →
  0 < c → nonneg bin → sumZ bin ≤ c →
  sumZ ((λ w, transform_val t w lam c) <$> bin) ≤ transform_val t c lam c.
Proof.
  intros Hlam Hc Hn Hsum. pose proof Hsum as Hsum0.
  assert (bin ≠ [] →
          sumZ ((λ w, transform_val t w lam c) <$> bin)
            ≤ transform_val t (sumZ bin) lam c) as Hle.
  { clear Hsum0. induction bin as [|w bin IH]; [done|]. intros _.
    apply Forall_cons in Hn as [Hw Hn]. pose proof (sumZ_nonneg bin Hn).
    destruct bin as [|w' bin'].
    - cbn. rewrite !Z.add_0_r. lia.
    - change (transform_val t w lam c
              + sumZ ((λ w0, transform_val t w0 lam c) <$> w' :: bin')
              ≤ transform_val t (w + sumZ (w' :: bin')) lam c).
      change (sumZ (w :: w' :: bin')) with (w + sumZ (w' :: bin')) in Hsum.
      etrans; [apply Z.add_le_mono_l, IH; [done|lia|done]|].
      apply transform_val_superadd; [done..|lia]. }
  destruct bin as [|w bin].
  - simpl. apply transform_val_nonneg; [done..|lia].
  - pose proof (sumZ_nonneg _ Hn).
    etrans; [by apply Hle|]. apply transform_val_mono; [done..|lia].
Qed.

(** ** The bound never exceeds the number of bins of a packing *)

Lemma sumZ_perm l1 l2 : l1 ≡ₚ l2 → sumZ l1 = sumZ l2.
Proof. induction 1; simpl; lia. Qed.

Lemma nonneg_concat bins : nonneg (concat bins) → Forall nonneg bins.
Proof.
  induction bins as [|bin bins IH]; simpl; [constructor|].
  intros [? ?]%Forall_app. constructor; [done|by apply IH].
Qed.

Lemma transform_val_bins t lam c (bins : list (list Z)) :
  LambdaRange.min (transform_l t c) < lam < LambdaRange.max (transform_l t c) →
  0 < c → Forall nonneg bins → Forall (λ bin, sumZ bin ≤ c) bins →
  sumZ ((λ w, transform_val t w lam c) <$> concat bins)
    ≤ Z.of_nat (length bins) * transform_val t c lam c.
Proof.
  intros Hlam Hc Hn Hsum.
  induction bins as [|bin bins IH]; [simpl; lia|].
  apply Forall_cons in Hn as [Hn1 Hn]. apply Forall_cons in Hsum as [Hs1 Hs].
  simpl concat. rewrite fmap_app, sumZ_app.
  pose proof (transform_val_bin t lam c bin Hlam Hc Hn1 Hs1).
  specialize (IH Hn Hs). simpl length. lia.
Qed.

Lemma transformed_values t weights lam c vs :
  Forall2 (λ w v, transform_f t w lam c = Ret v) weights vs →
  vs = (λ w, transform_val t w lam c) <$> weights.
Proof.
  induction 1 as [|w v ws vs Hv _ IH]; [done|]. csimpl.
  apply transform_f_val in Hv as [-> _]. by rewrite IH.
Qed.





(** The sum of the transformed weights of a packing is at most the
    number of its bins times the transformed capacity, so the ceiling of
    their quotient is at most the number of bins. *)
Lemma single_sound (t : transform)
    (weights : list Z) (c lam : Z) (bins : list (list Z)) (b : Z) :
  nonneg weights → concat bins ≡ₚ weights →
  Forall (λ bin, sumZ bin ≤ c) bins → 0 < c →
  LambdaRange.min (transform_l t c) < lam < LambdaRange.max (transform_l t c) →
  calcDffLowerboundSingleLambda (transform_f t) weights c lam = Ret b →
  b ≤ Z.of_nat (length bins).
Proof.
  intros Hn Hperm Hbins Hc Hlam
    (vs & tc & Hvs & Htc & Htc0 & Hlt & _)%single_bound.
  apply transformed_values in Hvs as ->.
  apply transform_f_val in Htc as [-> _].
  assert (Forall nonneg bins) as Hnb.
  { apply nonneg_concat. unfold nonneg. by rewrite Hperm. }
  pose proof (transform_val_bins t lam c bins Hlam Hc Hnb Hbins) as Hle.
  rewrite (sumZ_perm _ ((λ w, transform_val t w lam c) <$> weights)) in Hle
    by (by apply fmap_Permutation).
  nia.
Qed.



Section dff_sound.
Variable t : transform.
Variables (weights : list Z) (c : Z) (bins : list (list Z)).
Hypothesis Hn : nonneg weights.
Hypothesis Hperm : concat bins ≡ₚ weights.
Hypothesis Hbins : Forall (λ bin, sumZ bin ≤ c) bins.
Hypothesis Hc : 0 < c.

Local Abbreviation lo := (LambdaRange.min (transform_l t c)).
Local Abbreviation hi := (LambdaRange.max (transform_l t c)).

Lemma dff_loop_sound fuel rmax lStep lam acc v :
  0 ≤ lStep → (lo < lam ∧ rmax ≤ hi) ∨ rmax ≤ lam →
  acc ≤ Z.of_nat (length bins) →
  dff_loop (transform_f t) fuel weights c rmax lStep lam acc = Ret v →
  v ≤ Z.of_nat (length bins).
Proof using Hn Hperm Hbins Hc.
  intros Hstep. revert lam acc.
  induction fuel as [|fuel IH]; intros lam acc Hlam Hacc; [done|].
  cbn [dff_loop]. case_bool_decide as Hlt; [|by intros [= <-]].
  intros (b & Hb & Hrun)%bind_Ret.
  apply bind_Ret in Hrun as (lam' & [-> _]%chk_Ret & Hrun).
  apply (single_sound t weights c lam bins b Hn Hperm Hbins Hc) in Hb; [|lia].
  apply IH in Hrun; [done|lia|lia].
Qed.
End dff_sound.



(** ** Comparing items *)

(** X16 (the order on items).  [operator <] is a strict weak order that
    compares sizes only, the larger size first: it is irreflexive and
    transitive, two items are unordered exactly when their sizes agree,
    which is the case for items that [operator ==] takes for equal, and
    [operator !=] is the negation of [operator ==].  An array in which no
    item is less than its predecessor, as a sort with [operator <]
    leaves it, has its sizes in non-increasing order. *)
Theorem Item_order {IntView : Type} (view_eq : IntView → IntView → bool) :
  (∀ i : Item.Item IntView, Item_lt i i = false) ∧
  (∀ i j k : Item.Item IntView,
     Item_lt i j = true → Item_lt j k = true → Item_lt i k = true) ∧
  (∀ i j : Item.Item IntView,
     Item_lt i j = false ∧ Item_lt j i = false ↔ Item.size i = Item.size j) ∧
  (∀ i j, Item_eq IntView view_eq i j = true →
     Item_lt i j = false ∧ Item_lt j i = false) ∧
  (∀ i j, Item_ne IntView view_eq i j = true ↔
     Item_eq IntView view_eq i j = false) ∧
  (∀ bs : list (Item.Item IntView),
     Sorted (λ i j, Item_lt j i = false) bs → descending (sizes bs)).
Proof.
  unfold Item_lt, Item_ne, Item_eq. repeat split.
  - intros i. by rewrite bool_decide_eq_false_2 by lia.
  - intros i j k Hij%bool_decide_eq_true_1 Hjk%bool_decide_eq_true_1.
    apply bool_decide_eq_true_2. lia.
  - intros [Hij%bool_decide_eq_false_1 Hji%bool_decide_eq_false_1]. lia.
  - apply bool_decide_eq_false_2. lia.
  - apply bool_decide_eq_false_2. lia.
  - apply andb_true_iff in H as [_ Hs%bool_decide_eq_true_1].
    apply bool_decide_eq_false_2. lia.
  - apply andb_true_iff in H as [_ Hs%bool_decide_eq_true_1].
    apply bool_decide_eq_false_2. lia.
  - by intros ?%negb_true_iff.
  - by intros ?%negb_true_iff.
  - intros bs Hs. unfold descending, sizes.
    induction Hs as [|i bs Hs IH Hhd]; csimpl; constructor; [done|].
    destruct Hhd as [|j bs' Hj]; csimpl; constructor.
    apply bool_decide_eq_false_1 in Hj. lia.
Qed.

(** ** Further runs of calcDffLowerbound *)

(** X15 (no nonzero weight).  With sanitization on and a product
    [nNotZeroWeights * maxWeight] of zero, calcDffLowerbound returns 0
    for every transform, range function, capacity and weights: the
    sanitized range is [0, -1], the step is 0 and the transform is never
    called. *)
Theorem calcDffLowerbound_no_weights (nLambdaSamples : Z)
    (f : Z → Z → Z → res Z) (l : Z → LambdaRange) (fuel : nat)
    (weights : list Z) (capacity n mw : Z) :
  0 ≤ nLambdaSamples < int_max → n * mw = 0 → (1 ≤ fuel)%nat →
  calcDffLowerbound nLambdaSamples f l fuel weights capacity n mw true
    = Ret 0.
Proof.
  intros Hn Hz Hfuel. pose proof int_range. unfold calcDffLowerbound.
  rewrite (dff_range_returns l capacity n mw true)
    by (intros _; rewrite Hz; int_ok).
  unfold sampled_range. rewrite (bool_decide_eq_true_2 (n * mw = 0)) by done.
  cbn [mbind res_mbind res_bind].
  rewrite (dff_step_returns nLambdaSamples (LambdaRange.mk 0 (-1)) 0 Hn)
    by (simpl; lia).
  cbn [mbind res_mbind res_bind LambdaRange.min LambdaRange.max].
  unfold iadd. rewrite chk_ok by int_ok. cbn [mbind res_mbind res_bind].
  destruct fuel as [|fuel]; [lia|]. cbn [dff_loop].
  by rewrite bool_decide_eq_false_2 by lia.
Qed.

Lemma calcDffLowerbound_no_weights_witness :
  calcDffLowerbound 10 fFS1 lFS1 1 [0; 0; 0] 0 0 0 true = Ret 0.
Proof.
  apply (calcDffLowerbound_no_weights 10 fFS1 lFS1 1 [0; 0; 0] 0 0 0).
  - vm_compute. split; [discriminate|reflexivity].
  - reflexivity.
  - lia.
Defined.


